(** * rag_ops: a shallow embedding of the asynchronous RAG pipeline

  The development follows the layout of the repository:

  - [Py]: the fragments of Python and of its standard library which the
    sources rely on (exceptions, [str.join], [str.strip], slices);
  - [Config]: [config/config.py];
  - [ApiUtils]: [api/utils.py];
  - [TextSplitter]: the third-party [RecursiveCharacterTextSplitter] which
    [models/vectorstore.py] instantiates;
  - [FileProcessor]: [models/file_processor.py], one coroutine per uploaded
    file, as a small machine with one state per suspension point;
  - [VectorStore], [Retriever]: [models/vectorstore.py], [models/retriever.py];
  - [App]: [app.py], the orchestrator and one run of the Streamlit script;
  - [ApiModels], [ApiMain]: [api/models.py], [api/main.py], the upload
    service over its in-memory [files_db];
  - [Demo]: concrete capabilities, files and sessions on which the
    definitions run.

  Definitions come first, the properties after them: the upload API, the
  orchestrator (retrieval and generation), the parser, ingestion, the
  metadata, the text splitter, whole runs of the script; then the parse
  tasks and their temporary files, ingestion up to the index, the upload
  service, and what every chunk is. *)

From Stdlib Require Import ZArith Ascii String List Lia DecimalString.
From stdpp Require Import base tactics option list gmap strings fin_maps.

Open Scope string_scope.
Open Scope list_scope.
Open Scope Z_scope.

(* ===================================================================== *)
(** * Python values and library functions                                 *)
(* ===================================================================== *)

Module Py.

(** Exceptions.  [Exception msg] stands for an instance of any subclass of
    [Exception] with [str(e) = msg].  [CancelledError] derives from
    [BaseException]: a handler [except Exception] does not catch it. *)
Inductive exn :=
| Exception (msg : string)
| CancelledError.

(** The result of evaluating a call: a value or a raised exception. *)
Inductive outcome (A : Type) :=
| Returned (a : A)
| Raised (e : exn).
Arguments Returned {A} a.
Arguments Raised {A} e.

(** [sep.join(parts)] *)
Fixpoint join (sep : string) (parts : list string) : string :=
  match parts with
  | [] => ""
  | [p] => p
  | p :: ps => p +:+ sep +:+ join sep ps
  end.

(** [l[-n:]] for [n > 0]: the slice starts at [max (len l - n) 0]. *)
Definition slice_last {A} (n : nat) (l : list A) : list A :=
  drop (length l - n) l.

(** [l[:n]] for [n >= 0]. *)
Definition slice_first {A} (n : nat) (l : list A) : list A := take n l.

(** [str.isspace] on one character, for the code points below 256. *)
Definition isspace (c : ascii) : bool :=
  let n := nat_of_ascii c in
  ((9 <=? n)%nat && (n <=? 13)%nat)
  || ((28 <=? n)%nat && (n <=? 32)%nat)
  || (n =? 133)%nat || (n =? 160)%nat.

Fixpoint lstrip (s : list ascii) : list ascii :=
  match s with
  | c :: s' => if isspace c then lstrip s' else s
  | [] => []
  end.

Definition rstrip (s : list ascii) : list ascii := rev (lstrip (rev s)).

(** [s.strip()] *)
Definition strip (s : list ascii) : list ascii := rstrip (lstrip s).

(** [x in s] for strings, as lists of characters. *)
Fixpoint startswith (p s : list ascii) : bool :=
  match p, s with
  | [], _ => true
  | a :: p', b :: s' => if decide (a = b) then startswith p' s' else false
  | _ :: _, [] => false
  end.

Fixpoint contains (p s : list ascii) : bool :=
  startswith p s ||
  match s with
  | [] => false
  | _ :: s' => contains p s'
  end.

(** Strings as lists of characters and back. *)
Definition chars (s : string) : list ascii := list_ascii_of_string s.
Definition str (l : list ascii) : string := string_of_list_ascii l.

(** [s.strip()] on a string. *)
Definition str_strip (s : string) : string := str (strip (chars s)).




(** [x] is a passage of [s]: the characters of [x], in a row, somewhere
    in [s]. *)
Definition passage (x s : list ascii) : Prop := ∃ l r, s = l ++ x ++ r.

(** Every character of [g] which is not whitespace lies, where it stands
    in the text [l ++ g ++ r], in one of the [chunks] found in this
    text. *)
Definition covered (chunks : list (list ascii)) (l g r : list ascii) : Prop :=
  ∀ g1 c g2,
    g = g1 ++ c :: g2 →
    isspace c = false →
    ∃ x a b,
      x ∈ chunks
      ∧ l ++ g ++ r = a ++ x ++ b
      ∧ (length a ≤ length (l ++ g1) < length a + length x)%nat.


(** [chr(c).lower()], for the code points below 256: the letters [A] to
    [Z] and the capital letters of Latin-1. *)
Definition lower_char (c : ascii) : ascii :=
  let n := nat_of_ascii c in
  if ((65 <=? n)%nat && (n <=? 90)%nat)
     || ((192 <=? n)%nat && (n <=? 222)%nat && negb (n =? 215)%nat)
  then ascii_of_nat (n + 32) else c.

(** [s.lower()] *)
Fixpoint lower (s : string) : string :=
  match s with
  | EmptyString => EmptyString
  | String c s' => String (lower_char c) (lower s')
  end.

(** [s.rsplit(sep, 1)] for a separator of one character: [s] cut at the
    last [sep], or [s] alone when it holds none. *)
Fixpoint rsplit1 (sep : ascii) (s : string) : list string :=
  match s with
  | EmptyString => [EmptyString]
  | String c s' =>
      match rsplit1 sep s' with
      | [head; tail] => [String c head; tail]
      | _ => if decide (c = sep) then [EmptyString; s'] else [s]
      end
  end.

(** [str(n)] for an integer *)
Definition str_int (n : Z) : string := NilZero.string_of_int (Z.to_int n).

(** [str(l)] for a list of strings which need no escape: each one between
    single quotes. *)
Definition str_list (l : list string) : string :=
  "[" +:+ join ", " (map (λ s, "'" +:+ s +:+ "'") l) +:+ "]".

(** A [dict]: the keys with their values, in the order of insertion. *)
Section dict.
Context {K V : Type} `{EqDecision K}.

(** [d.get(k)], and [k in d] *)
Fixpoint dict_get (d : list (K * V)) (k : K) : option V :=
  match d with
  | [] => None
  | (k', v) :: d' => if decide (k' = k) then Some v else dict_get d' k
  end.

(** [d[k] = v]: the value of an existing key is replaced where it stands,
    a new key goes to the end. *)
Fixpoint dict_set (d : list (K * V)) (k : K) (v : V) : list (K * V) :=
  match d with
  | [] => [(k, v)]
  | (k', v') :: d' =>
      if decide (k' = k) then (k, v) :: d' else (k', v') :: dict_set d' k v
  end.

(** [del d[k]] for a key of [d] *)
Definition dict_del (d : list (K * V)) (k : K) : list (K * V) :=
  filter (λ kv, kv.1 ≠ k) d.

(** [list(d.keys())], [list(d.values())] *)
Definition dict_keys (d : list (K * V)) : list K := map fst d.
Definition dict_values (d : list (K * V)) : list V := map snd d.

End dict.

End Py.

Import Py.

(* ===================================================================== *)
(** * config/config.py                                                    *)
(* ===================================================================== *)

Module Config.

(** [CHUNK_SIZE] and [CHUNK_OVERLAP] are read from the environment when the
    module is loaded; a run of the program sees them as constants. *)
Record t := mk {
  VECTORSTORE_PATH : string;
  CHUNK_SIZE : Z;
  CHUNK_OVERLAP : Z
}.

(** The values taken when the environment sets none of them. *)
Definition default : t :=
  {| VECTORSTORE_PATH := "./data/vectorstore";
     CHUNK_SIZE := 1500;
     CHUNK_OVERLAP := 200 |}.

End Config.

(* ===================================================================== *)
(** * api/utils.py                                                        *)
(* ===================================================================== *)

Module ApiUtils.

(** [fastapi.HTTPException] *)
Record HTTPException := {
  status_code : Z;
  detail : string
}.

Definition HTTP_400_BAD_REQUEST : Z := 400.

(** Maximum file sizes (in bytes) *)
Definition MAX_FILE_SIZES : gmap string Z :=
  {[ "pdf"  := 20 * 1024 * 1024;
     "csv"  := 10 * 1024 * 1024;
     "xlsx" := 15 * 1024 * 1024 ]}.

Section validate.

(** [format_file_size] divides by 1024 in floating point and prints two
    decimals; only the text of the error message depends on it, so the
    rendering is left open here. *)
Variable format_file_size : Z → string.

Definition size_error_detail (file_size max_size : Z) (file_type : string) : string :=
  "File size (" +:+ format_file_size file_size
  +:+ ") exceeds maximum allowed size (" +:+ format_file_size max_size
  +:+ ") for " +:+ file_type +:+ " files".

(** [validate_file_size]: [inr tt] is the normal return of a function
    without result, [inl e] a raised [HTTPException]. *)
Definition validate_file_size (file_size : Z) (file_type : string)
  : HTTPException + unit :=
  let max_size := MAX_FILE_SIZES !! file_type in
  match max_size with
  | Some m =>
      (* [if max_size and file_size > max_size]: [0] is falsy *)
      if negb (m =? 0) && (file_size >? m)
      then inl {| status_code := HTTP_400_BAD_REQUEST;
                  detail := size_error_detail file_size m file_type |}
      else inr tt
  | None => inr tt
  end.

End validate.

(** Allowed file types and their corresponding MIME types *)
Definition ALLOWED_FILE_TYPES : list (string * gset string) :=
  [ ("pdf", {[ "application/pdf" ]});
    ("csv", {[ "text/csv"; "application/csv" ]});
    ("xlsx", {[ "application/vnd.openxmlformats-officedocument.spreadsheetml.sheet";
                "application/vnd.ms-excel" ]}) ].

(** [validate_file_type]: the validated file type, or the [HTTPException]
    raised. *)
Definition validate_file_type (filename content_type : string)
  : HTTPException + string :=
  (* [filename.rsplit(".", 1)[1]]: IndexError when there is no second part *)
  match rsplit1 "." filename !! 1%nat with
  | None =>
      inl {| status_code := HTTP_400_BAD_REQUEST;
             detail := "File must have an extension" |}
  | Some ext =>
      let file_ext := lower ext in
      match dict_get ALLOWED_FILE_TYPES file_ext with
      | None =>
          inl {| status_code := HTTP_400_BAD_REQUEST;
                 detail := "File type '." +:+ file_ext
                           +:+ "' not allowed. Allowed types: "
                           +:+ str_list (dict_keys ALLOWED_FILE_TYPES) |}
      | Some content_types =>
          if decide (content_type ∈ content_types)
          then inr file_ext
          else inl {| status_code := HTTP_400_BAD_REQUEST;
                      detail := "Invalid content type '" +:+ content_type
                                +:+ "' for file type '" +:+ file_ext +:+ "'" |}
      end
  end.

(** The file type and the content type which [validate_file_type] lets
    through. *)
Definition allowed_pair (ty content_type : string) : Prop :=
  (ty = "pdf" ∧ content_type = "application/pdf")
  ∨ (ty = "csv" ∧ (content_type = "text/csv" ∨ content_type = "application/csv"))
  ∨ (ty = "xlsx"
     ∧ (content_type
        = "application/vnd.openxmlformats-officedocument.spreadsheetml.sheet"
        ∨ content_type = "application/vnd.ms-excel")).

End ApiUtils.

(* ===================================================================== *)
(** * langchain: Document and RecursiveCharacterTextSplitter              *)
(* ===================================================================== *)

(** [langchain.schema.Document] *)
Record Document := {
  page_content : string;
  metadata : gmap string string
}.

(** The text splitter is not part of the repository: [AsyncVectorStore]
    builds a [RecursiveCharacterTextSplitter(chunk_size, chunk_overlap)] of
    [langchain_text_splitters] and hands every document to its
    [split_documents].  The module transcribes that class with the defaults
    the repository leaves in place: [separators = ["\n\n", "\n", " ", ""]],
    [keep_separator = True], [is_separator_regex = False],
    [length_function = len], [strip_whitespace = True],
    [add_start_index = False].  Texts are lists of characters here, so that
    [len], slices and concatenation are those of lists. *)
Module TextSplitter.

Abbreviation text := (list ascii).

Record t := mk {
  _chunk_size : Z;
  _chunk_overlap : Z
}.

(** [TextSplitter.__init__]: the checks on the two sizes. *)
Definition init (chunk_size chunk_overlap : Z) : outcome t :=
  if chunk_size <=? 0 then Raised (Exception "chunk_size must be > 0")
  else if chunk_overlap <? 0 then Raised (Exception "chunk_overlap must be >= 0")
  else if chunk_overlap >? chunk_size
       then Raised (Exception "Got a larger chunk overlap than chunk size, should be smaller.")
       else Returned (mk chunk_size chunk_overlap).

Definition len (s : text) : Z := Z.of_nat (length s).

Definition newline : ascii := ascii_of_nat 10.
Definition space : ascii := ascii_of_nat 32.

Definition _separators : list text :=
  [ [newline; newline]; [newline]; [space]; [] ].

(** The texts between the occurrences of a literal, non-empty [sep],
    scanning from the left and skipping each occurrence found; [skip]
    counts the characters of the current occurrence still to pass. *)
Fixpoint between (sep : text) (skip : nat) (s : text) : list text :=
  match s with
  | [] => [[]]
  | c :: s' =>
      match skip with
      | S k => between sep k s'
      | O =>
          if startswith sep s
          then [] :: between sep (length sep - 1) s'
          else match between sep 0 s' with
               | p :: ps => (c :: p) :: ps
               | [] => [[c]]
               end
      end
  end.

(** [re.split(f"({separator})", text)] for an escaped separator: the texts
    between the occurrences, alternating with the separator captured. *)
Fixpoint alternate (sep : text) (pieces : list text) : list text :=
  match pieces with
  | [] => []
  | [p] => [p]
  | p :: ps => p :: sep :: alternate sep ps
  end.

Definition re_split_capture (sep s : text) : list text :=
  alternate sep (between sep 0 s).

(** The elements of a list glued two by two.  On the tail of [_splits]
    this is [[_splits[i] + _splits[i + 1] for i in range(1, len(_splits), 2)]];
    [re.split] with one group returns a list of odd length, so that every
    [i + 1] is in range. *)
Fixpoint glue_pairs (l : list text) : list text :=
  match l with
  | a :: b :: l' => (a ++ b) :: glue_pairs l'
  | _ => []
  end.

(** [_split_text_with_regex(text, separator, keep_separator=True)] *)
Definition _split_text_with_regex (s separator : text) : list text :=
  let splits :=
    match separator with
    | _ :: _ =>
        let _splits := re_split_capture separator s in
        (* range(1, len(_splits), 2) *)
        let splits := glue_pairs (tail _splits) in
        let splits :=
          if Nat.even (length _splits)
          then splits ++ slice_last 1 _splits else splits in
        slice_first 1 _splits ++ splits
    | [] => map (λ c, [c]) s
    end in
  filter (λ p, p ≠ []) splits.

(** [separator.join(docs)] *)
Fixpoint join_text (separator : text) (docs : list text) : text :=
  match docs with
  | [] => []
  | [d] => d
  | d :: ds => d ++ separator ++ join_text separator ds
  end.

(** [_join_docs] *)
Definition _join_docs (docs : list text) (separator : text) : option text :=
  let s := strip (join_text separator docs) in
  match s with
  | [] => None
  | _ => Some s
  end.

Section merge.
Variable self : t.
Variable separator : text.

Definition separator_len : Z := len separator.

(** The test which opens the flush in [_merge_splits], also the second
    half of the condition of its [while]. *)
Definition overflows (total _len : Z) (current_doc : list text) : bool :=
  total + _len + (if (0 <? Z.of_nat (length current_doc)) then separator_len else 0)
    >? _chunk_size self.

(** The [while] loop of [_merge_splits]: drop splits from the front of
    [current_doc].  When [current_doc] is empty, [total] is [0] in
    [_merge_splits] and the condition is false for an overlap which is not
    negative: the loop ends there. *)
Fixpoint pop_front (_len : Z) (current_doc : list text) (total : Z)
  : list text * Z :=
  match current_doc with
  | [] => ([], total)
  | d0 :: rest =>
      if (total >? _chunk_overlap self)
         || (overflows total _len current_doc && (total >? 0))
      then pop_front _len rest
             (total - (len d0
                       + (if (1 <? Z.of_nat (length current_doc))
                          then separator_len else 0)))
      else (current_doc, total)
  end.

(** The state of the [for d in splits] loop. *)
Record merge_state := {
  docs : list text;
  current_doc : list text;
  total : Z
}.

Definition merge_step (st : merge_state) (d : text) : merge_state :=
  let _len := len d in
  let st :=
    if overflows (total st) _len (current_doc st)
    then
      match current_doc st with
      | _ :: _ =>
          let docs' := docs st ++ option_list (_join_docs (current_doc st) separator) in
          let '(cd, tot) := pop_front _len (current_doc st) (total st) in
          {| docs := docs'; current_doc := cd; total := tot |}
      | [] => st
      end
    else st in
  let cd := current_doc st ++ [d] in
  {| docs := docs st;
     current_doc := cd;
     total := total st + (_len + (if (1 <? Z.of_nat (length cd))
                                  then separator_len else 0)) |}.

Definition _merge_splits (splits : list text) : list text :=
  let st := foldl merge_step {| docs := []; current_doc := []; total := 0 |} splits in
  docs st ++ option_list (_join_docs (current_doc st) separator).

End merge.

(** The body of [_split_text] once the separator is chosen.  [recurse] is
    the recursive call on [new_separators], absent when that list is
    empty.  With [keep_separator = True] the pieces are merged with the
    empty separator. *)
Section split_loop.
Variable self : t.
Variable recurse : option (text → list text).

Record loop_state := {
  final_chunks : list text;
  _good_splits : list text
}.

Definition flush (st : loop_state) : loop_state :=
  match _good_splits st with
  | _ :: _ =>
      {| final_chunks := final_chunks st ++ _merge_splits self [] (_good_splits st);
         _good_splits := [] |}
  | [] => st
  end.

Definition loop_step (st : loop_state) (s : text) : loop_state :=
  if len s <? _chunk_size self
  then {| final_chunks := final_chunks st;
          _good_splits := _good_splits st ++ [s] |}
  else
    let st := flush st in
    match recurse with
    | None => {| final_chunks := final_chunks st ++ [s]; _good_splits := [] |}
    | Some f => {| final_chunks := final_chunks st ++ f s; _good_splits := [] |}
    end.

Definition split_loop (splits : list text) : list text :=
  final_chunks (flush (foldl loop_step {| final_chunks := []; _good_splits := [] |} splits)).

End split_loop.

(** [_split_text(text, separators)].  The [for] loop which picks the
    separator is the recursion on [separators]: an empty separator, or one
    which occurs in the text, is taken; when none is, the last one is. *)
Fixpoint _split_text (self : t) (separators : list text) (s : text) : list text :=
  match separators with
  | [] => []
  | _s :: rest =>
      match _s with
      | [] => split_loop self None (_split_text_with_regex s [])
      | _ :: _ =>
          if contains _s s
          then split_loop self
                 (match rest with [] => None | _ => Some (_split_text self rest) end)
                 (_split_text_with_regex s _s)
          else match rest with
               | [] => split_loop self None (_split_text_with_regex s _s)
               | _ => _split_text self rest s
               end
      end
  end.

Definition split_text (self : t) (s : string) : list string :=
  map str (_split_text self _separators (chars s)).

(** [create_documents]: every chunk receives a copy of the metadata of
    the text it comes from. *)
Definition create_documents (self : t) (texts : list string)
    (metadatas : list (gmap string string)) : list Document :=
  flat_map (λ '(s, m),
              map (λ chunk, {| page_content := chunk; metadata := m |})
                  (split_text self s))
           (zip texts metadatas).

Definition split_documents (self : t) (documents : list Document) : list Document :=
  let texts := map page_content documents in
  let metadatas := map metadata documents in
  create_documents self texts metadatas.


End TextSplitter.

(* ===================================================================== *)
(** * The capabilities outside the repository                             *)
(* ===================================================================== *)

(** PyMuPDF, pandas, the Chroma vector store with its embedding model, and
    the chat model are reached through these operations only.  Each one
    either returns or raises. *)
Class Capabilities := {
  (** [fitz.open(path)]: the texts [page.get_text()] of the pages, from the
      bytes of the file *)
  fitz_open : string → outcome (list string);
  (** [pd.read_csv(path).to_string()] and [pd.read_excel(path).to_string()] *)
  pd_read_csv : string → outcome string;
  pd_read_excel : string → outcome string;
  (** a Chroma collection *)
  Chroma : Type;
  (** [Chroma.from_documents(documents, embedding, persist_directory)]:
      embeds every chunk and persists the collection *)
  Chroma_from_documents : list Document → string → outcome Chroma;
  (** [vector_db.add_documents(chunks)] *)
  Chroma_add_documents : Chroma → list Document → outcome Chroma;
  (** [vector_db.similarity_search(query, k)] *)
  Chroma_similarity_search : Chroma → string → Z → outcome (list Document);
  (** [ChatOpenAI.ainvoke(prompt)] followed by [StrOutputParser]: the text
      of the reply *)
  llm_ainvoke : string → outcome string
}.

(* ===================================================================== *)
(** * models/file_processor.py                                            *)
(* ===================================================================== *)

Module FileProcessor.

(** A Streamlit [UploadedFile]: [name], [type] (the declared content
    type) and the bytes [getbuffer()]. *)
Record UploadedFile := {
  name : string;
  type : string;
  getbuffer : string
}.

(** The files of the scratch location: path to content.  A file can be
    created under any path. *)
Abbreviation FS := (gmap string string).

(** [os.path.join(a, b)] (posixpath) *)
Definition os_path_join (a b : string) : string :=
  if String.prefix "/" b then b
  else if (String.eqb a "") || String.eqb (substring (String.length a - 1) 1 a) "/"
       then a +:+ b
       else a +:+ "/" +:+ b.

Definition os_path_exists (fs : FS) (path : string) : bool :=
  bool_decide (is_Some (fs !! path)).

Definition os_remove (fs : FS) (path : string) : FS := delete path fs.

(** What a decoder finds when it opens [path]. *)
Definition read_file (fs : FS) (path : string) : outcome string :=
  match fs !! path with
  | Some bytes => Returned bytes
  | None => Raised (Exception ("No such file or directory: " +:+ path))
  end.

Section processor.
Context `{Capabilities}.

(** [aprocess_pdf], [aprocess_csv], [aprocess_excel]: the work done in
    the executor, on the file found at [file_path]. *)
Definition aprocess_pdf (fs : FS) (file_path : string) : outcome string :=
  match read_file fs file_path with
  | Returned bytes =>
      match fitz_open bytes with
      | Returned pages => Returned (join (String (ascii_of_nat 10) "") pages)
      | Raised e => Raised e
      end
  | Raised e => Raised e
  end.

Definition aprocess_csv (fs : FS) (file_path : string) : outcome string :=
  match read_file fs file_path with
  | Returned bytes => pd_read_csv bytes
  | Raised e => Raised e
  end.

Definition aprocess_excel (fs : FS) (file_path : string) : outcome string :=
  match read_file fs file_path with
  | Returned bytes => pd_read_excel bytes
  | Raised e => Raised e
  end.

(** The three branches of the dispatch on [uploaded_file.type]. *)
Inductive decoder := pdf | csv | excel.

Definition dispatch (content_type : string) : option decoder :=
  if String.eqb content_type "application/pdf" then Some pdf
  else if String.eqb content_type "text/csv" then Some csv
  else if String.eqb content_type
            "application/vnd.openxmlformats-officedocument.spreadsheetml.sheet"
       then Some excel
       else None.

Definition decode (d : decoder) (fs : FS) (file_path : string) : outcome string :=
  match d with
  | pdf => aprocess_pdf fs file_path
  | csv => aprocess_csv fs file_path
  | excel => aprocess_excel fs file_path
  end.

(** The coroutine [aprocess_file(uploaded_file)]: where it stands.  It is
    suspended at each [await]; the work awaited runs in the executor and
    the coroutine goes on to its next [await] when that work is done. *)
Inductive pc :=
| Start                      (* created by [aprocess_files], not yet run *)
| AwaitOpen                  (* [async with aiofiles.open(...)]: opening *)
| AwaitWrite                 (* [await f.write(...)] *)
| AwaitClose                 (* leaving [async with]: closing *)
| AwaitDecode (d : decoder)  (* inside [try]: one of the three decoders *)
| Finished (r : outcome (option Document)).

Record task := {
  file : UploadedFile;
  at_pc : pc
}.

Definition start (uploaded_file : UploadedFile) : task :=
  {| file := uploaded_file; at_pc := Start |}.

Definition temp_file_path (uploaded_file : UploadedFile) : string :=
  os_path_join "/tmp" (name uploaded_file).

(** The [finally] block. *)
Definition cleanup (fs : FS) (path : string) : FS :=
  if os_path_exists fs path then os_remove fs path else fs.

Definition moved (t : task) (to : pc) : task :=
  {| file := file t; at_pc := to |}.

(** The awaited work completes and the coroutine runs to its next
    [await], or to its end.  Opening with mode ['wb'] creates the file or
    empties it; the write stores the buffer. *)
Definition step (fs : FS) (t : task) : FS * task :=
  let uploaded_file := file t in
  let path := temp_file_path uploaded_file in
  match at_pc t with
  | Start => (fs, moved t AwaitOpen)
  | AwaitOpen => (<[path := ""]> fs, moved t AwaitWrite)
  | AwaitWrite => (<[path := getbuffer uploaded_file]> fs, moved t AwaitClose)
  | AwaitClose =>
      match dispatch (type uploaded_file) with
      | Some d => (fs, moved t (AwaitDecode d))
      | None => (cleanup fs path, moved t (Finished (Returned None)))
      end
  | AwaitDecode d =>
      match decode d fs path with
      | Returned s =>
          let doc := {| page_content := s;
                        metadata := {[ "file_name" := name uploaded_file ]} |} in
          (cleanup fs path, moved t (Finished (Returned (Some doc))))
      | Raised e => (cleanup fs path, moved t (Finished (Raised e)))
      end
  | Finished _ => (fs, t)
  end.

(** The host cancels the task: [CancelledError] is raised at the [await]
    where the coroutine is suspended, and the work awaited there does not
    take place.  Only the [await] of a decoder stands inside [try]. *)
Definition cancel (fs : FS) (t : task) : FS * task :=
  let path := temp_file_path (file t) in
  match at_pc t with
  | Finished _ => (fs, t)
  | AwaitDecode _ => (cleanup fs path, moved t (Finished (Raised CancelledError)))
  | _ => (fs, moved t (Finished (Raised CancelledError)))
  end.

(** [n] resumptions in a row. *)
Fixpoint steps (n : nat) (fs : FS) (t : task) : FS * task :=
  match n with
  | O => (fs, t)
  | S n' => let '(fs', t') := step fs t in steps n' fs' t'
  end.

(** [await aprocess_file(uploaded_file)] with nothing else running: the
    coroutine passes at most five suspension points. *)
Definition aprocess_file (fs : FS) (uploaded_file : UploadedFile)
  : FS * option (outcome (option Document)) :=
  let '(fs', t) := steps 5 fs (start uploaded_file) in
  (fs', match at_pc t with Finished r => Some r | _ => None end).

(** [r] is what a parse of [uploaded_file] returns: nothing for a
    content type outside the three of the dispatch, else a Document with
    the name of the file as its only metadata. *)
Definition parsed_from (uploaded_file : UploadedFile) (r : option Document) : Prop :=
  match dispatch (type uploaded_file) with
  | None => r = None
  | Some _ =>
      ∃ s, r = Some {| page_content := s;
                       metadata := {[ "file_name" := name uploaded_file ]} |}
  end.

(** A task of [uploaded_file], wherever it stands. *)
Definition task_of (uploaded_file : UploadedFile) (t : task) : Prop :=
  file t = uploaded_file
  ∧ match at_pc t with
    | AwaitDecode d => dispatch (type uploaded_file) = Some d
    | Finished (Returned r) => parsed_from uploaded_file r
    | _ => True
    end.

(** The resumptions a task still needs, at most. *)
Definition remaining (t : task) : nat :=
  match at_pc t with
  | Start => 5
  | AwaitOpen => 4
  | AwaitWrite => 3
  | AwaitClose => 2
  | AwaitDecode _ => 1
  | Finished _ => 0
  end.

Definition has_raised (t : task) : Prop :=
  ∃ e, at_pc t = Finished (Raised e).

(** What a decoder makes of the bytes of a file. *)
Definition decode_bytes (d : decoder) (bytes : string) : outcome string :=
  match d with
  | pdf =>
      match fitz_open bytes with
      | Returned pages => Returned (join (String (ascii_of_nat 10) "") pages)
      | Raised e => Raised e
      end
  | csv => pd_read_csv bytes
  | excel => pd_read_excel bytes
  end.

(** The outcome of a parse whose decoder finds, at the temporary path,
    the bytes of the upload itself: for reference. *)
Definition parse_of (uploaded_file : UploadedFile) : outcome (option Document) :=
  match dispatch (type uploaded_file) with
  | None => Returned None
  | Some d =>
      match decode_bytes d (getbuffer uploaded_file) with
      | Returned s =>
          Returned (Some {| page_content := s;
                            metadata := {[ "file_name" := name uploaded_file ]} |})
      | Raised e => Raised e
      end
  end.

(** The documents of the uploads whose parse returns one. *)
Definition documents_of (uploaded_files : list UploadedFile) : list Document :=
  omap (λ f, match parse_of f with Returned r => r | Raised _ => None end)
       uploaded_files.

(** The scratch location without the temporary files of the uploads. *)
Definition without_temp_files (fs : FS) (uploaded_files : list UploadedFile) : FS :=
  foldr (λ f, delete (temp_file_path f)) fs uploaded_files.

(** A task of [uploaded_file] in a scratch location where its temporary
    path holds what the task itself has put there. *)
Definition in_step_with (fs : FS) (uploaded_file : UploadedFile) (t : task) : Prop :=
  file t = uploaded_file
  ∧ match at_pc t with
    | AwaitClose =>
        fs !! temp_file_path uploaded_file = Some (getbuffer uploaded_file)
    | AwaitDecode d =>
        dispatch (type uploaded_file) = Some d
        ∧ fs !! temp_file_path uploaded_file = Some (getbuffer uploaded_file)
    | Finished r =>
        r = parse_of uploaded_file ∧ fs !! temp_file_path uploaded_file = None
    | _ => True
    end.

End processor.

End FileProcessor.

(* ===================================================================== *)
(** * models/vectorstore.py                                               *)
(* ===================================================================== *)

Module VectorStore.
Section vectorstore.
Context `{Capabilities}.

Record AsyncVectorStore := {
  vectorstore_path : string;
  text_splitter : TextSplitter.t
}.

(** [AsyncVectorStore.__init__] *)
Definition init (config : Config.t) : outcome AsyncVectorStore :=
  match TextSplitter.init (Config.CHUNK_SIZE config) (Config.CHUNK_OVERLAP config) with
  | Returned splitter =>
      Returned {| vectorstore_path := Config.VECTORSTORE_PATH config;
                  text_splitter := splitter |}
  | Raised e => Raised e
  end.

(** [aprocess_documents] *)
Definition aprocess_documents (self : AsyncVectorStore) (documents : list Document)
  : list Document :=
  TextSplitter.split_documents (text_splitter self) documents.

(** [asetup_vectorstore]: the chunks handed to [Chroma.from_documents],
    and what that call gives. *)
Definition asetup_vectorstore (self : AsyncVectorStore) (documents : list Document)
  : list Document * outcome Chroma :=
  let doc_chunks := aprocess_documents self documents in
  (doc_chunks, Chroma_from_documents doc_chunks (vectorstore_path self)).

(** [aadd_documents] *)
Definition aadd_documents (self : AsyncVectorStore) (vectorstore : Chroma)
    (documents : list Document) : list Document * outcome Chroma :=
  let doc_chunks := aprocess_documents self documents in
  (doc_chunks, Chroma_add_documents vectorstore doc_chunks).

End vectorstore.
End VectorStore.

(* ===================================================================== *)
(** * models/retriever.py                                                 *)
(* ===================================================================== *)

Module Retriever.
Section retriever.
Context `{Capabilities}.

Record AsyncDocumentRetriever := {
  vector_db : Chroma
}.

(** The default of the parameter [top_k] of [aretrieve]. *)
Definition top_k_default : Z := 5.

(** [aretrieve(query, top_k=5)]: [top_k = None] is a call which does not
    give the argument. *)
Definition aretrieve (self : AsyncDocumentRetriever) (query : string)
    (top_k : option Z) : outcome (list Document) :=
  Chroma_similarity_search (vector_db self) query (default top_k_default top_k).

End retriever.
End Retriever.

(* ===================================================================== *)
(** * app.py                                                              *)
(* ===================================================================== *)

Module App.
Import FileProcessor VectorStore Retriever.

(** What a run of the script shows on the page. *)
Inductive ui_event :=
| st_sidebar_title (s : string)
| st_warning (s : string)
| st_error (s : string)
| st_title (s : string)
| st_chat_message (role content : string).

Section app.
Context `{Capabilities}.

(** The calls made to the vector store and to the chat model. *)
Inductive call :=
| from_documents_call (chunks : list Document)
| similarity_search_call (query : string) (k : Z)
| llm_call (prompt : string).

(** [st.session_state] *)
Record Session := {
  messages : list (string * string);
  chat_history : list (string * string);
  retriever : option AsyncDocumentRetriever
}.

(** The session before anything is stored in it. *)
Definition new_session : Session :=
  {| messages := []; chat_history := []; retriever := None |}.

(** Everything a run of the script reads and changes. *)
Record World := {
  fs : FS;
  session_state : Session;
  page : list ui_event;
  calls : list call
}.

Definition show (e : ui_event) (w : World) : World :=
  {| fs := fs w; session_state := session_state w;
     page := page w ++ [e]; calls := calls w |}.

Definition record_call (c : call) (w : World) : World :=
  {| fs := fs w; session_state := session_state w;
     page := page w; calls := calls w ++ [c] |}.

Definition with_fs (fs' : FS) (w : World) : World :=
  {| fs := fs'; session_state := session_state w;
     page := page w; calls := calls w |}.

Definition with_session (s : Session) (w : World) : World :=
  {| fs := fs w; session_state := s; page := page w; calls := calls w |}.

(** A coroutine of the application: from a world, either the schedule
    given ends before the coroutine does ([None]), or a new world with a
    value returned or an exception raised. *)
Definition M (A : Type) : Type := World → option (World * outcome A).

Definition ret {A} (a : A) : M A := λ w, Some (w, Returned a).

Definition bind {A B} (m : M A) (k : A → M B) : M B :=
  λ w, match m w with
       | Some (w', Returned a) => k a w'
       | Some (w', Raised e) => Some (w', Raised e)
       | None => None
       end.

Definition lift {A} (o : outcome A) : M A := λ w, Some (w, o).

Definition modify (f : World → World) : M unit := λ w, Some (f w, Returned tt).

(** [try: m  except Exception as e: handler(str(e))] *)
Definition try_except {A} (m : M A) (handler : string → M A) : M A :=
  λ w, match m w with
       | Some (w', Raised (Exception msg)) => handler msg w'
       | r => r
       end.

Notation "'let!' x := m 'in' k" := (bind m (λ x, k))
  (at level 10, x name, m at level 100, k at level 200).

(** ** asyncio.gather over the parse tasks *)

(** The results of the tasks, in the order of the tasks, once every one
    has returned. *)
Definition result_of (t : task) : option (option Document) :=
  match at_pc t with
  | Finished (Returned r) => Some r
  | _ => None
  end.

Definition results (tasks : list task) : option (list (option Document)) :=
  mapM result_of tasks.

(** [await asyncio.gather] on the tasks.  The event loop resumes one suspended
    task at a time; [schedule] lists the tasks resumed, by position, in
    the order in which their awaited work completes.  The first
    exception raised by a task is raised by [gather] at once; when every
    task has returned, [gather] returns their results in the order of
    the tasks. *)
Fixpoint gather (schedule : list nat) (fs : FS) (tasks : list task)
  : option (FS * outcome (list (option Document))) :=
  match results tasks with
  | Some rs => Some (fs, Returned rs)
  | None =>
      match schedule with
      | [] => None
      | i :: schedule' =>
          match tasks !! i with
          | None => gather schedule' fs tasks
          | Some t =>
              let '(fs', t') := step fs t in
              match at_pc t' with
              | Finished (Raised e) => Some (fs', Raised e)
              | _ => gather schedule' fs' (<[i := t']> tasks)
              end
          end
      end
  end.

(** A schedule resumes each of [n] tasks often enough for the task to
    reach its end. *)
Definition enough (schedule : list nat) (n : nat) : bool :=
  forallb (λ i, (5 <=? count_occ Nat.eq_dec schedule i)%nat) (seq 0 n).

(** The schedule which resumes the tasks in turn. *)
Definition round_robin (n : nat) : list nat :=
  concat (replicate 5 (seq 0 n)).

(** ** AsyncRAGApp *)

Record AsyncRAGApp := {
  vector_store : AsyncVectorStore
}.

(** [AsyncRAGApp.__init__] *)
Definition init (config : Config.t) : outcome AsyncRAGApp :=
  match VectorStore.init config with
  | Returned vs => Returned {| vector_store := vs |}
  | Raised e => Raised e
  end.

(** [[doc for doc in documents if doc is not None]] *)
Definition not_None (documents : list (option Document)) : list Document :=
  omap id documents.

(** [aprocess_files] *)
Definition tasks_of (uploaded_files : list UploadedFile) : list task :=
  map start uploaded_files.

Definition aprocess_files (schedule : list nat) (uploaded_files : list UploadedFile)
  : M (list Document) :=
  λ w,
    let tasks := tasks_of uploaded_files in
    match gather schedule (fs w) tasks with
    | Some (fs', Returned documents) => Some (with_fs fs' w, Returned (not_None documents))
    | Some (fs', Raised e) => Some (with_fs fs' w, Raised e)
    | None => None
    end.

(** [asetup_retriever] *)
Definition asetup_retriever (self : AsyncRAGApp) (documents : list Document)
  : M AsyncDocumentRetriever :=
  let '(doc_chunks, built) := asetup_vectorstore (vector_store self) documents in
  let! _ := modify (record_call (from_documents_call doc_chunks)) in
  let! vectordb := lift built in
  ret {| vector_db := vectordb |}.

(** The template of [_create_prompt], with the three placeholders
    filled in. *)
Definition render_prompt (context chat_history question : string) : string :=
  "You are a helpful AI assistant. Using the following context, answer the user's question. 
        If you cannot answer the question based on the context, say so.

        Context: " +:+ context +:+ "
        Chat History: " +:+ chat_history +:+ "
        Question: " +:+ question +:+ "

        Answer the question based on the context provided. If uncertain, admit it.
        Make your response clear and well-structured.
        ".

Definition LF : string := String (ascii_of_nat 10) "".

(** [f"Q: {q}\nA: {a}"] *)
Definition format_turn (turn : string * string) : string :=
  "Q: " +:+ fst turn +:+ LF +:+ "A: " +:+ snd turn.

(** The chat history as it enters the prompt. *)
Definition history_str (chat_history : list (string * string)) : string :=
  join LF (map format_turn (slice_last 3 chat_history)).

(** [agenerate_response] *)
Definition agenerate_response (query : string) (retriever : AsyncDocumentRetriever)
    (chat_history : list (string * string)) : M string :=
  let! _ := modify (record_call (similarity_search_call query 3)) in
  let! docs := lift (aretrieve retriever query (Some 3)) in
  let context := join LF (map page_content docs) in
  let prompt_response := render_prompt context (history_str chat_history) query in
  let! _ := modify (record_call (llm_call prompt_response)) in
  let! llm_response := lift (llm_ainvoke prompt_response) in
  ret llm_response.

(** ** One run of the script *)

(** How a block of [main] ends: the script goes on, or [main] returns. *)
Inductive flow := Continue | Return.

Definition set_retriever (r : AsyncDocumentRetriever) (w : World) : World :=
  with_session {| messages := messages (session_state w);
                  chat_history := chat_history (session_state w);
                  retriever := Some r |} w.

Definition append_message (role content : string) (w : World) : World :=
  with_session {| messages := messages (session_state w) ++ [(role, content)];
                  chat_history := chat_history (session_state w);
                  retriever := retriever (session_state w) |} w.

Definition append_chat_history (turn : string * string) (w : World) : World :=
  with_session {| messages := messages (session_state w);
                  chat_history := chat_history (session_state w) ++ [turn];
                  retriever := retriever (session_state w) |} w.

(** "Process files and setup retriever": the [try] block run when the
    session has no retriever. *)
Definition ingest (app : AsyncRAGApp) (schedule : list nat)
    (uploaded_files : list UploadedFile) : M flow :=
  try_except
    (let! documents := aprocess_files schedule uploaded_files in
     match documents with
     | [] =>
         let! _ := modify (show (st_error "No valid documents were processed.")) in
         ret Return
     | _ =>
         let! r := asetup_retriever app documents in
         let! _ := modify (set_retriever r) in
         ret Continue
     end)
    (λ msg,
       let! _ := modify (show (st_error ("Error processing documents: " +:+ msg))) in
       ret Return).

(** "Chat input": the block run when the user has typed [prompt]. *)
Definition ask (app : AsyncRAGApp) (prompt : string) : M unit :=
  let! _ := modify (append_message "user" prompt) in
  let! _ := modify (show (st_chat_message "user" prompt)) in
  try_except
    (λ w,
       match retriever (session_state w) with
       | None =>
           (* [None.aretrieve]: AttributeError *)
           Some (w, Raised (Exception "'NoneType' object has no attribute 'aretrieve'"))
       | Some r =>
           (let! response := agenerate_response prompt r (chat_history (session_state w)) in
            let! _ := modify (show (st_chat_message "assistant" response)) in
            let! _ := modify (append_message "assistant" response) in
            modify (append_chat_history (prompt, response))) w
       end)
    (λ msg,
       modify (show (st_error ("Error generating response: " +:+ msg)))).

Definition show_messages (w : World) : World :=
  foldl (λ w m, show (st_chat_message (fst m) (snd m)) w) w
        (messages (session_state w)).

(** [main]: one run of the script on a session, with the files of the
    uploader and the text of the chat input, if any.  The page shows what
    [st.sidebar.title], [st.warning], [st.error], [st.title] and
    [st.markdown] inside [st.chat_message] write. *)
Definition main (config : Config.t) (schedule : list nat)
    (uploaded_files : list UploadedFile) (chat_input : option string) : M unit :=
  let! app := lift (init config) in
  let! _ := modify (show (st_sidebar_title "📁 Upload Files")) in
  match uploaded_files with
  | [] =>
      modify (show (st_warning "👋 Please upload files to start chatting!"))
  | _ =>
      let! go := (λ w, match retriever (session_state w) with
                       | None => ingest app schedule uploaded_files w
                       | Some _ => ret Continue w
                       end) in
      match go with
      | Return => ret tt
      | Continue =>
          let! _ := modify (show (st_title "💬 Async RAG Chatbot")) in
          let! _ := modify show_messages in
          match chat_input with
          | Some prompt =>
              if String.eqb prompt "" then ret tt else ask app prompt
          | None => ret tt
          end
      end
  end.

End app.
End App.

(* ===================================================================== *)
(** * api/models.py                                                       *)
(* ===================================================================== *)

Module ApiModels.
Import ApiUtils.

(** What a validator of [FileCreate] raises: the [ValueError] written in
    it, or the [KeyError] of a subscript. *)
Inductive error :=
| ValueError (msg : string)
| KeyError (key : string).

(** [FileCreate.validate_file_type] *)
Definition validate_file_type (v : string) : error + string :=
  match dict_get ALLOWED_FILE_TYPES v with
  | None =>
      inl (ValueError ("File type not allowed. Allowed types: "
                       +:+ str_list (dict_keys ALLOWED_FILE_TYPES)))
  | Some _ => inr v
  end.

(** [FileCreate.validate_content_type]; [values] holds the fields
    validated before this one. *)
Definition validate_content_type (v : string) (values : gmap string string)
  : error + string :=
  match values !! "file_type" with
  | Some file_type =>
      match dict_get ALLOWED_FILE_TYPES file_type with
      | None => inl (KeyError file_type)
      | Some content_types =>
          if decide (v ∈ content_types)
          then inr v
          else inl (ValueError ("Invalid content type for file type " +:+ file_type))
      end
  | None => inr v
  end.

End ApiModels.

(* ===================================================================== *)
(** * api/main.py                                                         *)
(* ===================================================================== *)

Module ApiMain.
Import ApiUtils.

Definition HTTP_404_NOT_FOUND : Z := 404.
Definition HTTP_500_INTERNAL_SERVER_ERROR : Z := 500.

(** A [fastapi.UploadFile]: its name, its declared content type and the
    bytes [read()] gives. *)
Module UploadFile.
Record t := {
  filename : string;
  content_type : string;
  read : string
}.
End UploadFile.

(** What the service takes from its surroundings: the rendering of sizes
    (see [ApiUtils.validate_file_size]), the values of [datetime.now()] with
    their [strftime("%Y%m%d_%H%M%S")], the upload directory, and the file
    system, which may refuse to open a path for writing or to remove a
    file: [Some msg] is the text of the [OSError] raised. *)
Class Surroundings := {
  format_file_size : Z → string;
  datetime : Type;
  strftime : datetime → string;
  UPLOAD_DIR : string;
  open_error : string → option string;
  remove_error : string → option string
}.

Section service.
Context `{Surroundings}.

(** An entry of [files_db]. *)
Record FileEntry := {
  id : Z;
  filename : string;
  file_type : string;
  content_type : string;
  size : Z;
  size_formatted : string;
  upload_time : datetime;
  status : string;
  file_path : string;
  error_message : option string
}.

(** The state of the service: the in-memory [files_db] and the files on
    disk, path to content. *)
Record Server := {
  files_db : list (Z * FileEntry);
  disk : gmap string string
}.

(** The service when it starts, on a disk. *)
Definition started (disk : gmap string string) : Server :=
  {| files_db := []; disk := disk |}.

Definition not_found (file_id : Z) : HTTPException :=
  {| status_code := HTTP_404_NOT_FOUND;
     detail := "File with ID " +:+ str_int file_id +:+ " not found" |}.

(** [health_check] *)
Definition health_check : list (string * string) := [("status", "healthy")].

(** [list_files] *)
Definition list_files (s : Server) : list FileEntry := dict_values (files_db s).

(** [get_file] *)
Definition get_file (file_id : Z) (s : Server) : HTTPException + FileEntry :=
  match dict_get (files_db s) file_id with
  | None => inl (not_found file_id)
  | Some file_info => inr file_info
  end.

(** Where [upload_file] saves an upload. *)
Definition upload_path (file : UploadFile.t) (now : datetime) : string :=
  let timestamp := strftime now in
  let safe_filename := timestamp +:+ "_" +:+ UploadFile.filename file in
  FileProcessor.os_path_join UPLOAD_DIR safe_filename.

(** [upload_file]; [now] and [now'] are the two values of
    [datetime.now()].  Opening with mode ['wb'] creates the file or empties
    it; the size is checked with the file open, before the write. *)
Definition upload_file (file : UploadFile.t) (now now' : datetime) (s : Server)
  : Server * (HTTPException + FileEntry) :=
  match validate_file_type (UploadFile.filename file) (UploadFile.content_type file) with
  | inl e => (s, inl e)
  | inr file_type =>
      let file_path := upload_path file now in
      match open_error file_path with
      | Some msg =>
          (s, inl {| status_code := HTTP_500_INTERNAL_SERVER_ERROR; detail := msg |})
      | None =>
          let opened := <[file_path := ""]> (disk s) in
          let content := UploadFile.read file in
          let file_size := Z.of_nat (String.length content) in
          match validate_file_size format_file_size file_size file_type with
          | inl e => ({| files_db := files_db s; disk := opened |}, inl e)
          | inr _ =>
              let written := <[file_path := content]> opened in
              let file_id := Z.of_nat (length (files_db s)) + 1 in
              let new_file :=
                {| id := file_id;
                   filename := UploadFile.filename file;
                   file_type := file_type;
                   content_type := UploadFile.content_type file;
                   size := file_size;
                   size_formatted := format_file_size file_size;
                   upload_time := now';
                   status := "uploaded";
                   file_path := file_path;
                   error_message := None |} in
              ({| files_db := dict_set (files_db s) file_id new_file;
                  disk := written |},
               inr new_file)
          end
      end
  end.

(** What [delete_file] returns. *)
Inductive deleted :=
| file_deleted (message filename size_freed : string)
| record_deleted (message filename note : string).

(** [delete_file] *)
Definition delete_file (file_id : Z) (s : Server)
  : Server * (HTTPException + deleted) :=
  match dict_get (files_db s) file_id with
  | None => (s, inl (not_found file_id))
  | Some file_info =>
      let path := file_path file_info in
      match (if String.eqb path "" then None else disk s !! path) with
      | Some content =>
          let file_size := Z.of_nat (String.length content) in
          match remove_error path with
          | Some msg =>
              (s, inl {| status_code := HTTP_500_INTERNAL_SERVER_ERROR;
                         detail := "Error deleting physical file: " +:+ msg |})
          | None =>
              ({| files_db := dict_del (files_db s) file_id;
                  disk := delete path (disk s) |},
               inr (file_deleted
                      ("File " +:+ str_int file_id +:+ " deleted successfully")
                      (filename file_info)
                      (format_file_size file_size)))
          end
      | None =>
          ({| files_db := dict_del (files_db s) file_id; disk := disk s |},
           inr (record_deleted
                  ("File " +:+ str_int file_id +:+ " record deleted successfully")
                  (filename file_info)
                  "No physical file was found"))
      end
  end.

(** The ids of [files_db] are [1] to [len(files_db)], in this order: so
    it is as long as no entry has been deleted. *)
Definition dense (db : list (Z * FileEntry)) : Prop :=
  dict_keys db = map Z.of_nat (seq 1 (length db)).

End service.
End ApiMain.


(* ===================================================================== *)
(** * Stand-ins for the capabilities                                      *)
(* ===================================================================== *)

(** Concrete capabilities on which the definitions can be run: a PDF has one
    page whose text is its bytes, a CSV renders as its bytes, no spreadsheet
    can be read; the collection is the list of its chunks and a search
    returns its first [k] entries; the chat model always gives the same
    reply. *)
Module Demo.

#[export] Instance capabilities : Capabilities := {|
    fitz_open bytes := Returned [bytes];
    pd_read_csv bytes := Returned bytes;
    pd_read_excel _ := Raised (Exception "Excel file format cannot be determined");
    Chroma := list Document;
    Chroma_from_documents chunks _ := Returned chunks;
    Chroma_add_documents db chunks := Returned (db ++ chunks);
    Chroma_similarity_search db _ k := Returned (take (Z.to_nat k) db);
    llm_ainvoke _ := Returned "I cannot tell from the context."
  |}.

(** The same, with a chat model which is out of quota. *)
Definition llm_down : Capabilities := {|
  fitz_open bytes := Returned [bytes];
  pd_read_csv bytes := Returned bytes;
  pd_read_excel _ := Raised (Exception "Excel file format cannot be determined");
  Chroma := list Document;
  Chroma_from_documents chunks _ := Returned chunks;
  Chroma_add_documents db chunks := Returned (db ++ chunks);
  Chroma_similarity_search db _ k := Returned (take (Z.to_nat k) db);
  llm_ainvoke _ := Raised (Exception "insufficient_quota")
|}.

Definition doc (s : string) : Document :=
  {| page_content := s; metadata := {[ "file_name" := "notes.pdf" ]} |}.

Definition five_chunks : list Document :=
  [doc "one"; doc "two"; doc "three"; doc "four"; doc "five"].

Definition retriever_of_five : @Retriever.AsyncDocumentRetriever capabilities :=
  @Retriever.Build_AsyncDocumentRetriever capabilities five_chunks.

(** The store and the application built from the default configuration. *)
Definition vector_store : VectorStore.AsyncVectorStore :=
  {| VectorStore.vectorstore_path := "./data/vectorstore";
     VectorStore.text_splitter := TextSplitter.mk 1500 200 |}.

Definition app : App.AsyncRAGApp := {| App.vector_store := vector_store |}.

(** What pandas prints for a table with the header [name,age] and the row
    [Alice,30]. *)
Definition people_table : Document :=
  {| page_content := "    name  age" +:+ App.LF +:+ "0  Alice   30";
     metadata := {[ "file_name" := "people.csv" ]} |}.

(** Three paragraphs of 1001 letters each, separated by empty lines. *)
Definition paragraph (c : ascii) : list ascii := repeat c 1001.

Definition blank_line : list ascii := [ascii_of_nat 10; ascii_of_nat 10].

Definition three_paragraphs : Document :=
  {| page_content :=
       str (paragraph "a" ++ blank_line ++ paragraph "b" ++ blank_line ++ paragraph "c");
     metadata := {[ "file_name" := "essay.pdf" ]} |}.

Definition paragraph_chunk (c : ascii) : Document :=
  {| page_content := str (paragraph c);
     metadata := {[ "file_name" := "essay.pdf" ]} |}.


(** A session in which nothing has happened yet, and sessions with a
    retriever over five chunks: one whose chat model is down, one with four
    turns of conversation behind it. *)
Definition fresh : @App.World capabilities :=
  {| App.fs := ∅; App.session_state := App.new_session;
     App.page := []; App.calls := [] |}.

Definition retriever_llm_down : @Retriever.AsyncDocumentRetriever llm_down :=
  @Retriever.Build_AsyncDocumentRetriever llm_down five_chunks.

Definition ready_llm_down : @App.World llm_down :=
  {| App.fs := ∅;
     App.session_state :=
       {| App.messages := []; App.chat_history := [];
          App.retriever := Some retriever_llm_down |};
     App.page := []; App.calls := [] |}.

Definition four_turns : list (string * string) :=
  [ ("Who wrote it?", "Ada."); ("When?", "In 1843.");
    ("Where?", "In London."); ("Why?", "To explain the engine.") ].

Definition after_four_turns : @App.World capabilities :=
  {| App.fs := ∅;
     App.session_state :=
       {| App.messages := []; App.chat_history := four_turns;
          App.retriever := Some retriever_of_five |};
     App.page := []; App.calls := [] |}.

Definition report_pdf : FileProcessor.UploadedFile :=
  {| FileProcessor.name := "report.pdf";
     FileProcessor.type := "application/pdf";
     FileProcessor.getbuffer := "The capital of France is Paris." |}.

Definition people_csv : FileProcessor.UploadedFile :=
  {| FileProcessor.name := "people.csv";
     FileProcessor.type := "text/csv";
     FileProcessor.getbuffer := "name,age" |}.

Definition logo_png : FileProcessor.UploadedFile :=
  {| FileProcessor.name := "logo.png";
     FileProcessor.type := "image/png";
     FileProcessor.getbuffer := "PNG" |}.

Definition readme_txt : FileProcessor.UploadedFile :=
  {| FileProcessor.name := "readme.txt";
     FileProcessor.type := "text/plain";
     FileProcessor.getbuffer := "hello" |}.

Definition sales_xlsx : FileProcessor.UploadedFile :=
  {| FileProcessor.name := "sales.xlsx";
     FileProcessor.type :=
       "application/vnd.openxmlformats-officedocument.spreadsheetml.sheet";
     FileProcessor.getbuffer := "PK" |}.



(** Surroundings of the upload service: sizes are rendered in bytes, a
    time is the text [strftime] gives for it, and the file system refuses
    nothing but the removal of files under [/proc]. *)
#[export] Instance surroundings : ApiMain.Surroundings := {|
    ApiMain.format_file_size n := str_int n +:+ " B";
    ApiMain.datetime := string;
    ApiMain.strftime now := now;
    ApiMain.UPLOAD_DIR := "data/uploads";
    ApiMain.open_error _ := None;
    ApiMain.remove_error path :=
      if String.prefix "/proc" path then Some "Operation not permitted" else None
  |}.

Definition report_upload : ApiMain.UploadFile.t :=
  {| ApiMain.UploadFile.filename := "Report.PDF";
     ApiMain.UploadFile.content_type := "application/pdf";
     ApiMain.UploadFile.read := "%PDF-1.7" |}.

Definition people_upload : ApiMain.UploadFile.t :=
  {| ApiMain.UploadFile.filename := "people.csv";
     ApiMain.UploadFile.content_type := "text/csv";
     ApiMain.UploadFile.read := "name,age" |}.

Definition script_upload : ApiMain.UploadFile.t :=
  {| ApiMain.UploadFile.filename := "run.sh";
     ApiMain.UploadFile.content_type := "text/x-shellscript";
     ApiMain.UploadFile.read := "#!/bin/sh" |}.

(** A table of one byte more than ten megabytes. *)
Definition huge_csv : ApiMain.UploadFile.t :=
  {| ApiMain.UploadFile.filename := "huge.csv";
     ApiMain.UploadFile.content_type := "text/csv";
     ApiMain.UploadFile.read := str (repeat "x"%char (Z.to_nat (10 * 1024 * 1024 + 1))) |}.

(** The service after the uploads of the report and of the table. *)
Definition two_uploads : ApiMain.Server :=
  (ApiMain.upload_file people_upload "20240501_120500" "20240501_120500"
     (ApiMain.upload_file report_upload "20240501_120000" "20240501_120000"
        (ApiMain.started ∅)).1).1.

(** The entry of the report uploaded at [now], under [id]. *)
Definition report_entry (id : Z) (now : string) : ApiMain.FileEntry :=
  {| ApiMain.id := id;
     ApiMain.filename := "Report.PDF";
     ApiMain.file_type := "pdf";
     ApiMain.content_type := "application/pdf";
     ApiMain.size := 8;
     ApiMain.size_formatted := "8 B";
     ApiMain.upload_time := now;
     ApiMain.status := "uploaded";
     ApiMain.file_path := "data/uploads/" +:+ now +:+ "_Report.PDF";
     ApiMain.error_message := None |}.



(** The upload of the tests of the service. *)
Definition test_file (name : string) : ApiMain.UploadFile.t :=
  {| ApiMain.UploadFile.filename := name;
     ApiMain.UploadFile.content_type := "application/pdf";
     ApiMain.UploadFile.read := "dummy content" |}.

End Demo.

(* ===================================================================== *)
(** * Properties of api/utils.py                                          *)
(* ===================================================================== *)

Section ApiUtils_properties.
Import ApiUtils.
Variable format_file_size : Z → string.

Lemma MAX_FILE_SIZES_lookup (ty : string) (m : Z) :
  MAX_FILE_SIZES !! ty = Some m →
  (ty = "pdf" ∧ m = 20971520) ∨ (ty = "csv" ∧ m = 10485760)
  ∨ (ty = "xlsx" ∧ m = 15728640).
Proof.
  unfold MAX_FILE_SIZES. intros H.
  destruct (decide (ty = "pdf")) as [->|Hp]; [ left | ].
  { rewrite lookup_insert_eq in H. by inversion H. }
  rewrite lookup_insert_ne in H by done.
  destruct (decide (ty = "csv")) as [->|Hc]; [ right; left | ].
  { rewrite lookup_insert_eq in H. by inversion H. }
  rewrite lookup_insert_ne in H by done.
  destruct (decide (ty = "xlsx")) as [->|Hx]; [ right; right | ].
  { rewrite lookup_singleton_eq in H. by inversion H. }
  rewrite lookup_singleton_ne in H by done. done.
Qed.

Lemma MAX_FILE_SIZES_nonzero (ty : string) (m : Z) :
  MAX_FILE_SIZES !! ty = Some m → m ≠ 0.
Proof. intros H%MAX_FILE_SIZES_lookup. lia. Qed.

(** C10.  [validate_file_size] raises exactly when the file type has an
    entry in [MAX_FILE_SIZES] and the size is strictly above it; a file
    type without an entry is accepted at every size. *)
Theorem validate_file_size_raises_iff (file_size : Z) (file_type : string) :
  ((∃ e, validate_file_size format_file_size file_size file_type = inl e)
     ↔ (∃ m, MAX_FILE_SIZES !! file_type = Some m ∧ m < file_size))
  ∧ (MAX_FILE_SIZES !! file_type = None →
     ∀ size, validate_file_size format_file_size size file_type = inr tt).
Proof.
  split; [ split | ].
  - intros [e He]. unfold validate_file_size in He.
    destruct (MAX_FILE_SIZES !! file_type) as [m|] eqn:Hm; [ | done ].
    exists m. split; [ done | ].
    destruct (negb (m =? 0) && (file_size >? m)) eqn:Hc; [ | done ].
    apply andb_true_iff in Hc as [_ Hgt]. lia.
  - intros (m & Hm & Hlt). unfold validate_file_size. rewrite Hm.
    pose proof (MAX_FILE_SIZES_nonzero _ _ Hm) as Hnz.
    assert (negb (m =? 0) && (file_size >? m) = true) as ->.
    { apply andb_true_iff. split; [ apply negb_true_iff | ]; lia. }
    eauto.
  - intros Hnone size. unfold validate_file_size. by rewrite Hnone.
Qed.

(** One byte above twenty megabytes is too much for a PDF; a type without
    entry passes at any size. *)
Example validate_file_size_pdf :
  validate_file_size format_file_size (20 * 1024 * 1024) "pdf" = inr tt
  ∧ (∃ e, validate_file_size format_file_size (20 * 1024 * 1024 + 1) "pdf" = inl e
          ∧ status_code e = 400)
  ∧ validate_file_size format_file_size (10 ^ 12) "docx" = inr tt.
Proof. split; [ done | ]. split; [ | done ]. eexists. split; reflexivity. Qed.

End ApiUtils_properties.

(* ===================================================================== *)
(** * Properties of the orchestrator: retrieval and generation            *)
(* ===================================================================== *)

Section Python_lists.
Context {A : Type}.

Lemma slice_last_app (n : nat) (older recent : list A) :
  length recent = n → slice_last n (older ++ recent) = recent.
Proof.
  intros Hn. unfold slice_last. rewrite length_app.
  replace (length older + length recent - n)%nat with (length older) by lia.
  by rewrite drop_app_length.
Qed.

Lemma slice_last_short (n : nat) (l : list A) :
  (length l ≤ n)%nat → slice_last n l = l.
Proof.
  intros Hn. unfold slice_last.
  by replace (length l - n)%nat with 0%nat by lia.
Qed.

Lemma slice_last_length (n : nat) (l : list A) :
  length (slice_last n l) = Nat.min n (length l).
Proof. unfold slice_last. rewrite length_drop. lia. Qed.

End Python_lists.

Section Generation.
Import FileProcessor VectorStore Retriever App.
Context `{Capabilities}.

(** What [agenerate_response] does, by the outcome of the search. *)
Lemma agenerate_response_search_raises query r history w e :
  Chroma_similarity_search (vector_db r) query 3 = Raised e →
  agenerate_response query r history w
  = Some (record_call (similarity_search_call query 3) w, Raised e).
Proof.
  intros Hs. unfold agenerate_response, bind, modify, lift, aretrieve. simpl.
  by rewrite Hs.
Qed.

Lemma agenerate_response_search_returns query r history w docs :
  Chroma_similarity_search (vector_db r) query 3 = Returned docs →
  let prompt := render_prompt (join LF (map page_content docs))
                              (history_str history) query in
  agenerate_response query r history w
  = Some (record_call (llm_call prompt)
            (record_call (similarity_search_call query 3) w),
          llm_ainvoke prompt).
Proof.
  intros Hs. unfold agenerate_response, bind, modify, lift, aretrieve, ret. simpl.
  rewrite Hs. by destruct (llm_ainvoke _).
Qed.

Lemma history_str_recent (older recent : list (string * string)) :
  length recent = 3%nat ∨ (older = [] ∧ (length recent < 3)%nat) →
  history_str (older ++ recent)
  = join LF (map (λ turn, "Q: " +:+ turn.1 +:+ LF +:+ "A: " +:+ turn.2) recent).
Proof.
  intros Hrecent. unfold history_str.
  assert (slice_last 3 (older ++ recent) = recent) as ->; [ | done ].
  destruct Hrecent as [H3 | [-> Hlt]].
  - by apply slice_last_app.
  - apply slice_last_short. simpl. lia.
Qed.

(** A question asked after the turns [older ++ recent], where [recent] are
    the last three turns or all the turns there are. *)
Lemma ask_prompt_recent
    (app : AsyncRAGApp) (query : string) (w : World) (r : AsyncDocumentRetriever)
    (older recent : list (string * string)) (docs : list Document) :
  retriever (session_state w) = Some r →
  chat_history (session_state w) = older ++ recent →
  length recent = 3%nat ∨ (older = [] ∧ (length recent < 3)%nat) →
  Chroma_similarity_search (vector_db r) query 3 = Returned docs →
  let prompt :=
    render_prompt
      (join LF (map page_content docs))
      (join LF (map (λ turn, "Q: " +:+ turn.1 +:+ LF +:+ "A: " +:+ turn.2) recent))
      query in
  ∃ w' res,
    ask app query w = Some (w', res)
    ∧ calls w' = calls w ++ [similarity_search_call query 3; llm_call prompt]
    ∧ chat_history (session_state w')
      = older ++ recent ++ match llm_ainvoke prompt with
                           | Returned answer => [(query, answer)]
                           | Raised _ => []
                           end.
Proof.
  intros Hr Hh Hrecent Hs prompt.
  pose proof (history_str_recent older recent Hrecent) as Hstr.
  unfold ask, bind, modify, try_except. simpl. rewrite Hr. simpl. rewrite Hh.
  rewrite (agenerate_response_search_returns _ _ _ _ _ Hs). simpl.
  rewrite Hstr. fold prompt.
  destruct (llm_ainvoke prompt) as [answer | [msg | ]]; simpl;
    eexists _, _; (split; [ reflexivity | ]); simpl;
    rewrite ?Hh, <- ?app_assoc; simpl; rewrite ?app_nil_r; done.
Qed.

(** C9.  Whatever the history, the chat history written into the prompt is
    made of its last three turns (of all of them when there are fewer),
    each as a line [Q: question] and a line [A: answer], joined by
    newlines; the older turns are not in the prompt and stay in the
    history, to which a successful answer adds its turn. *)
Theorem prompt_history_is_last_three
    (app : AsyncRAGApp) (query : string) (w : World) (r : AsyncDocumentRetriever)
    (docs : list Document) :
  retriever (session_state w) = Some r →
  Chroma_similarity_search (vector_db r) query 3 = Returned docs →
  ∃ older recent,
    chat_history (session_state w) = older ++ recent
    ∧ length recent = Nat.min 3 (length (chat_history (session_state w)))
    ∧ let prompt :=
        render_prompt
          (join LF (map page_content docs))
          (join LF (map (λ turn, "Q: " +:+ turn.1 +:+ LF +:+ "A: " +:+ turn.2) recent))
          query in
      ∃ w' res,
        ask app query w = Some (w', res)
        ∧ calls w' = calls w ++ [similarity_search_call query 3; llm_call prompt]
        ∧ chat_history (session_state w')
          = older ++ recent ++ match llm_ainvoke prompt with
                               | Returned answer => [(query, answer)]
                               | Raised _ => []
                               end.
Proof.
  intros Hr Hs. set (history := chat_history (session_state w)).
  exists (take (length history - 3) history), (drop (length history - 3) history).
  split; [ by rewrite take_drop | ]. split; [ rewrite length_drop; lia | ].
  apply (ask_prompt_recent app query w r); [ done | by rewrite take_drop | | done ].
  rewrite length_drop. destruct (decide (3 ≤ length history)%nat) as [Hge | Hlt].
  - left. lia.
  - right. replace (length history - 3)%nat with 0%nat by lia. split; [ done | lia ].
Qed.

(** A question during which the search or the chat model raises an
    exception: what [ask] leaves behind. *)
Lemma ask_failure (app : AsyncRAGApp) (prompt : string) (w : World)
    (r : AsyncDocumentRetriever) (msg : string) :
  retriever (session_state w) = Some r →
  (Chroma_similarity_search (vector_db r) prompt 3 = Raised (Exception msg)
   ∨ ∃ docs,
       Chroma_similarity_search (vector_db r) prompt 3 = Returned docs
       ∧ llm_ainvoke (render_prompt (join LF (map page_content docs))
                        (history_str (chat_history (session_state w))) prompt)
         = Raised (Exception msg)) →
  ∃ w0,
    ask app prompt w
    = Some (show (st_error ("Error generating response: " +:+ msg)) w0, Returned tt)
    ∧ session_state w0 = session_state (append_message "user" prompt w)
    ∧ page w0 = page w ++ [st_chat_message "user" prompt].
Proof.
  intros Hr Hfail.
  unfold ask, bind, modify, try_except. simpl. rewrite Hr. simpl.
  destruct Hfail as [Hs | (docs & Hs & Hllm)].
  - rewrite (agenerate_response_search_raises _ _ _ _ _ Hs). simpl.
    eexists. split; [ reflexivity | ]. simpl. by rewrite ?Hr.
  - rewrite (agenerate_response_search_returns _ _ _ _ _ Hs). simpl.
    rewrite Hllm. simpl.
    eexists. split; [ reflexivity | ]. simpl. by rewrite ?Hr.
Qed.

(** C7.  When the search or the chat model raises an exception during a
    question, no turn is added to the chat history, the retriever of the
    session stays in place, and the page shows the error as one of
    generating the response.  (The question itself has been added to the
    messages shown, before the [try].) *)
Theorem ask_failure_keeps_conversation
    (app : AsyncRAGApp) (prompt : string) (w : World) (r : AsyncDocumentRetriever)
    (msg : string) :
  retriever (session_state w) = Some r →
  (Chroma_similarity_search (vector_db r) prompt 3 = Raised (Exception msg)
   ∨ ∃ docs,
       Chroma_similarity_search (vector_db r) prompt 3 = Returned docs
       ∧ llm_ainvoke (render_prompt (join LF (map page_content docs))
                        (history_str (chat_history (session_state w))) prompt)
         = Raised (Exception msg)) →
  ∃ w',
    ask app prompt w = Some (w', Returned tt)
    ∧ chat_history (session_state w') = chat_history (session_state w)
    ∧ retriever (session_state w') = Some r
    ∧ page w' = page w ++ [st_chat_message "user" prompt;
                           st_error ("Error generating response: " +:+ msg)].
Proof.
  intros Hr Hfail.
  destruct (ask_failure app prompt w r msg Hr Hfail) as (w0 & Hask & Hsession & Hpage).
  eexists. split; [ exact Hask | ]. simpl. rewrite Hsession, Hpage. simpl.
  split; [ done | ]. split; [ done | ]. by rewrite <- app_assoc.
Qed.


End Generation.



(* ===================================================================== *)
(** * Properties of the parser                                            *)
(* ===================================================================== *)

Section Parser.
Import FileProcessor.
Context `{Capabilities}.

Lemma cleanup_removes (fs : FS) (path : string) : cleanup fs path !! path = None.
Proof.
  unfold cleanup, os_path_exists, os_remove. case_bool_decide as Hex.
  - apply lookup_delete_eq.
  - destruct (fs !! path) eqn:Hl; [ | done ]. exfalso. apply Hex. eauto.
Qed.

Lemma step_file (fs : FS) (t : task) : file (step fs t).2 = file t.
Proof.
  unfold step. destruct (at_pc t); simpl; try done.
  - by destruct (dispatch _).
  - by destruct (decode _ _ _).
Qed.

(** A resumption which ends the coroutine runs the [finally] block. *)
Lemma step_end_removes_temp_file (fs : FS) (t : task) (r : outcome (option Document)) :
  (0 < remaining t)%nat →
  at_pc (step fs t).2 = Finished r →
  (step fs t).1 !! temp_file_path (file t) = None.
Proof.
  unfold step, remaining. destruct (at_pc t) eqn:Hpc; simpl; try done; try lia.
  - destruct (dispatch _); simpl; [ done | ]. intros _ _. apply cleanup_removes.
  - destruct (decode _ _ _); simpl; intros _ _; apply cleanup_removes.
Qed.

(** So does a cancellation which reaches the coroutine in a decoder. *)
Lemma cancel_in_decoder_removes_temp_file (fs : FS) (t : task) (d : decoder) :
  at_pc t = AwaitDecode d →
  (cancel fs t).1 !! temp_file_path (file t) = None
  ∧ at_pc (cancel fs t).2 = Finished (Raised CancelledError).
Proof.
  intros Hpc. unfold cancel. rewrite Hpc. simpl. split; [ | done ].
  apply cleanup_removes.
Qed.

Lemma step_remaining (fs : FS) (t : task) :
  (remaining (step fs t).2 ≤ remaining t - 1)%nat.
Proof.
  unfold step, remaining. destruct (at_pc t) eqn:Hpc; simpl; try lia.
  - destruct (dispatch _); simpl; lia.
  - destruct (decode _ _ _); simpl; lia.
  - rewrite Hpc. lia.
Qed.

Lemma steps_remaining (n : nat) (fs : FS) (t : task) :
  (remaining (steps n fs t).2 ≤ remaining t - n)%nat.
Proof.
  revert fs t. induction n as [ | n IH ]; intros fs t; simpl; [ lia | ].
  destruct (step fs t) as [fs' t'] eqn:Hstep.
  pose proof (step_remaining fs t) as Hr. rewrite Hstep in Hr. simpl in Hr.
  specialize (IH fs' t'). lia.
Qed.

Lemma remaining_0 (t : task) : remaining t = 0%nat → ∃ r, at_pc t = Finished r.
Proof. unfold remaining. destruct (at_pc t); try done. eauto. Qed.

Lemma steps_finished (n : nat) (fs : FS) (t : task) :
  remaining t = 0%nat → steps n fs t = (fs, t).
Proof.
  intros [r Hr]%remaining_0. induction n as [ | n IH ]; simpl; [ done | ].
  unfold step. by rewrite Hr.
Qed.

Lemma steps_end_removes_temp_file (n : nat) (fs : FS) (t : task) :
  (0 < remaining t)%nat →
  remaining (steps n fs t).2 = 0%nat →
  (steps n fs t).1 !! temp_file_path (file t) = None.
Proof.
  revert fs t. induction n as [ | n IH ]; intros fs t Hpos; simpl; [ lia | ].
  destruct (step fs t) as [fs' t'] eqn:Hstep.
  destruct (decide (remaining t' = 0%nat)) as [Hend | Hmore].
  - rewrite steps_finished by done. simpl. intros _.
    destruct (remaining_0 _ Hend) as [r Hr].
    pose proof (step_end_removes_temp_file fs t r Hpos) as Hrm.
    rewrite Hstep in Hrm. by apply Hrm.
  - intros Hn. pose proof (step_file fs t) as Hf. rewrite Hstep in Hf.
    simpl in Hf. rewrite <- Hf. apply IH; [ lia | done ].
Qed.

(** Run on its own, [aprocess_file] comes to its end, and the temporary
    file is gone by then. *)
Lemma aprocess_file_alone (fs : FS) (uploaded_file : UploadedFile) :
  ∃ r, (aprocess_file fs uploaded_file).2 = Some r
       ∧ (aprocess_file fs uploaded_file).1 !! temp_file_path uploaded_file = None.
Proof.
  unfold aprocess_file.
  pose proof (steps_remaining 5 fs (start uploaded_file)) as Hrem.
  pose proof (steps_end_removes_temp_file 5 fs (start uploaded_file)) as Hrm.
  destruct (steps 5 fs (start uploaded_file)) as [fs' t] eqn:Hsteps.
  simpl in *.
  assert (remaining t = 0%nat) as Hend.
  { change (remaining (start uploaded_file)) with 5%nat in Hrem. lia. }
  destruct (remaining_0 _ Hend) as [r Hr]. rewrite Hr.
  exists r. split; [ done | ]. apply Hrm; [ unfold remaining; simpl; lia | done ].
Qed.

(** C5, where the code departs from it.  A cancellation which reaches the
    coroutine while it is suspended in [await f.write(...)] ends it with
    [CancelledError] and leaves the temporary file, created by the
    [open], in place: that [await] stands before the [try]. *)
Theorem cancel_during_write_leaves_temp_file (fs : FS) (uploaded_file : UploadedFile) :
  let suspended := steps 2 fs (start uploaded_file) in
  let cancelled := cancel suspended.1 suspended.2 in
  at_pc suspended.2 = AwaitWrite
  ∧ at_pc cancelled.2 = Finished (Raised CancelledError)
  ∧ cancelled.1 !! temp_file_path uploaded_file = Some "".
Proof.
  simpl. split; [ done | ]. split; [ done | ]. apply lookup_insert_eq.
Qed.

(** What a task is to its file is kept by every resumption. *)
Lemma step_task_of (fs : FS) (uploaded_file : UploadedFile) (t : task) :
  task_of uploaded_file t → task_of uploaded_file (step fs t).2.
Proof.
  intros [Hfile Hpc]. split; [ by rewrite step_file | ].
  unfold step. rewrite Hfile. destruct (at_pc t) eqn:Hat; simpl; try done.
  - destruct (dispatch (type uploaded_file)) as [d | ] eqn:Hd; simpl; [ done | ].
    unfold parsed_from. by rewrite Hd.
  - destruct (decode _ _ _); simpl; [ | done ].
    unfold parsed_from. rewrite Hpc. eauto.
  - by rewrite Hat.
Qed.

Lemma start_task_of (uploaded_file : UploadedFile) :
  task_of uploaded_file (start uploaded_file).
Proof. done. Qed.

(** Only a decoder makes a task raise. *)
Lemma step_raises (fs : FS) (uploaded_file : UploadedFile) (t : task) (e : exn) :
  task_of uploaded_file t →
  ¬ has_raised t →
  at_pc (step fs t).2 = Finished (Raised e) →
  is_Some (dispatch (type uploaded_file)).
Proof.
  intros [Hfile Hpc] Hnot. unfold step.
  destruct (at_pc t) eqn:Hat; simpl; try done.
  - by destruct (dispatch _).
  - intros Hr. exfalso. apply Hnot. by exists e.
Qed.

End Parser.

(** The upload of [report.pdf] cancelled during the write: the empty file
    stays in the scratch location.  Left alone, the same upload ends with
    the scratch location empty. *)
Example cancel_report_during_write :
  let suspended :=
    FileProcessor.steps (H := Demo.capabilities) 2 ∅ (FileProcessor.start Demo.report_pdf) in
  FileProcessor.cancel suspended.1 suspended.2
  = ({[ "/tmp/report.pdf" := "" ]},
     {| FileProcessor.file := Demo.report_pdf;
        FileProcessor.at_pc := FileProcessor.Finished (Raised CancelledError) |})
  ∧ (FileProcessor.aprocess_file (H := Demo.capabilities) ∅ Demo.report_pdf).1 = ∅.
Proof. split; vm_compute; reflexivity. Qed.

(* ===================================================================== *)
(** * Properties of ingestion                                             *)
(* ===================================================================== *)

Section Ingestion.
Import FileProcessor VectorStore Retriever App.
Context `{Capabilities}.

Lemma results_parsed_from (files : list UploadedFile) (tasks : list task)
    (rs : list (option Document)) :
  Forall2 task_of files tasks →
  results tasks = Some rs →
  Forall2 parsed_from files rs.
Proof.
  unfold results. intros Hinv Hrs%mapM_Some. revert rs Hrs.
  induction Hinv as [ | f t files tasks [_ Hpc] _ IH ]; intros rs Hrs;
    inversion Hrs as [ | ? r ? rs' Hr Hrs' ]; subst; constructor; [ | by apply IH ].
  unfold result_of in Hr.
  destruct (at_pc t) as [ | | | | d | [r' | e]]; try done. by inversion Hr; subst.
Qed.

Lemma resume_task_of (files : list UploadedFile) (tasks : list task)
    (fs : FS) (i : nat) (t : task) :
  Forall2 task_of files tasks →
  tasks !! i = Some t →
  Forall2 task_of files (<[i := (step fs t).2]> tasks).
Proof.
  intros Hinv Hi.
  destruct (Forall2_lookup_r _ _ _ _ _ Hinv Hi) as (f & Hf & Hft).
  rewrite <- (list_insert_id files i f Hf).
  apply Forall2_insert; [ done | ]. by apply step_task_of.
Qed.

(** When [gather] returns, each result is that of the task of the file in
    the same position. *)
Lemma gather_returned (schedule : list nat) :
  ∀ (fs : FS) (tasks : list task) (files : list UploadedFile)
    (fs' : FS) (rs : list (option Document)),
    Forall2 task_of files tasks →
    gather schedule fs tasks = Some (fs', Returned rs) →
    Forall2 parsed_from files rs.
Proof.
  induction schedule as [ | i schedule IH ]; intros fs tasks files fs' rs Hinv; simpl;
    destruct (results tasks) as [rs0 | ] eqn:Hres;
    try (intros [= <- <-]; by eapply results_parsed_from); try done.
  destruct (tasks !! i) as [t | ] eqn:Hi; [ | by apply IH ].
  pose proof (resume_task_of files tasks fs i t Hinv Hi) as Hinv'.
  destruct (step fs t) as [fs1 t1]. simpl in Hinv'.
  destruct (at_pc t1) as [ | | | | d | [r | e]]; try done; by apply IH.
Qed.

(** When [gather] raises, a decoder has: some file has a content type of
    the dispatch. *)
Lemma gather_raised (schedule : list nat) :
  ∀ (fs : FS) (tasks : list task) (files : list UploadedFile) (fs' : FS) (e : exn),
    Forall2 task_of files tasks →
    Forall (λ t, ¬ has_raised t) tasks →
    gather schedule fs tasks = Some (fs', Raised e) →
    Exists (λ f, is_Some (dispatch (type f))) files.
Proof.
  induction schedule as [ | i schedule IH ]; intros fs tasks files fs' e Hinv Hnot; simpl;
    destruct (results tasks) as [rs0 | ] eqn:Hres; try done.
  destruct (tasks !! i) as [t | ] eqn:Hi; [ | by apply IH ].
  pose proof (resume_task_of files tasks fs i t Hinv Hi) as Hinv'.
  destruct (Forall2_lookup_r _ _ _ _ _ Hinv Hi) as (f & Hf & Hft).
  pose proof (step_raises fs f t) as Hraise.
  assert (¬ has_raised t) as Hnt.
  { eapply Forall_forall in Hnot; [ done | ]. by eapply list_elem_of_lookup_2. }
  destruct (step fs t) as [fs1 t1]. simpl in Hinv', Hraise.
  destruct (at_pc t1) as [ | | | | d | [r | e1]] eqn:Hat1;
    try (intros Hg; eapply IH; [ exact Hinv' | | exact Hg ];
         apply Forall_insert; [ done | ]; intros [e' He']; congruence).
  intros _. apply Exists_exists. exists f. split.
  - by eapply list_elem_of_lookup_2.
  - by eapply Hraise.
Qed.

Lemma enough_count (schedule : list nat) (n i : nat) :
  enough schedule n = true → (i < n)%nat →
  (5 ≤ count_occ Nat.eq_dec schedule i)%nat.
Proof.
  unfold enough. rewrite forallb_forall. intros Hall Hi.
  specialize (Hall i). rewrite in_seq in Hall.
  apply Nat.leb_le, Hall. lia.
Qed.

Lemma round_robin_enough (n : nat) : enough (round_robin n) n = true.
Proof.
  unfold enough, round_robin. apply forallb_forall. intros i Hi%in_seq.
  apply Nat.leb_le. simpl. rewrite app_nil_r, !count_occ_app.
  assert (In i (seq 0 n)) as Hin by (apply in_seq; lia).
  apply (count_occ_In Nat.eq_dec) in Hin. lia.
Qed.

(** [gather] comes to an end on a schedule which resumes every task as
    often as the task still needs. *)
Lemma gather_ends (schedule : list nat) :
  ∀ (fs : FS) (tasks : list task),
    (∀ i t, tasks !! i = Some t →
            (remaining t ≤ count_occ Nat.eq_dec schedule i)%nat) →
    Forall (λ t, ¬ has_raised t) tasks →
    is_Some (gather schedule fs tasks).
Proof.
  induction schedule as [ | i schedule IH ]; intros fs tasks Hcount Hnot; simpl;
    destruct (results tasks) as [rs | ] eqn:Hres; try by eauto.
  - exfalso. apply mapM_None, Exists_exists in Hres as (t & Hin & Hnone).
    apply list_elem_of_lookup_1 in Hin as [j Hj].
    specialize (Hcount j t Hj). simpl in Hcount.
    destruct (remaining_0 t) as [r Hr]; [ lia | ].
    unfold result_of in Hnone. rewrite Hr in Hnone. destruct r as [r | e]; [ done | ].
    eapply Forall_forall in Hnot; [ | by eapply list_elem_of_lookup_2 ].
    apply Hnot. by exists e.
  - destruct (tasks !! i) as [t | ] eqn:Hi.
    + pose proof (step_remaining fs t) as Hrem.
      destruct (step fs t) as [fs1 t1]. simpl in Hrem.
      assert (∀ j t', <[i := t1]> tasks !! j = Some t' →
                      (remaining t' ≤ count_occ Nat.eq_dec schedule j)%nat) as Hcount'.
      { intros j t' Hj. destruct (decide (i = j)) as [<- | Hne].
        - rewrite list_lookup_insert_eq in Hj by (by eapply lookup_lt_Some).
          inversion Hj; subst t'. specialize (Hcount i t Hi).
          rewrite count_occ_cons_eq in Hcount by done. lia.
        - rewrite list_lookup_insert_ne in Hj by done.
          specialize (Hcount j t' Hj).
          by rewrite count_occ_cons_neq in Hcount. }
      destruct (at_pc t1) as [ | | | | d | [r | e1]] eqn:Hat1; try by eauto.
      all: apply IH; [ done | ]; apply Forall_insert; [ done | ];
        intros [e' He']; congruence.
    + apply IH; [ | done ]. intros j t' Hj. specialize (Hcount j t' Hj).
      rewrite count_occ_cons_neq in Hcount; [ done | ]. intros <-. congruence.
Qed.

Lemma tasks_of_task_of (files : list UploadedFile) :
  Forall2 task_of files (tasks_of files).
Proof. induction files; constructor; [ apply start_task_of | done ]. Qed.

Lemma tasks_of_not_raised (files : list UploadedFile) :
  Forall (λ t, ¬ has_raised t) (tasks_of files).
Proof. induction files; constructor; [ by intros [e He] | done ]. Qed.


Lemma gather_tasks_of_ends (schedule : list nat) (fs : FS) (files : list UploadedFile) :
  enough schedule (length files) = true →
  is_Some (gather schedule fs (tasks_of files)).
Proof.
  intros Henough. apply gather_ends; [ | apply tasks_of_not_raised ].
  intros i t Hi. pose proof (lookup_lt_Some _ _ _ Hi) as Hlt.
  unfold tasks_of in Hi, Hlt. rewrite length_fmap in Hlt.
  rewrite list_lookup_fmap in Hi.
  destruct (files !! i) as [f | ]; [ | done ]. inversion Hi; subst t.
  change (remaining (start f)) with 5%nat. by eapply enough_count.
Qed.

(** What [aprocess_files] returns, from what [gather] does. *)
Lemma aprocess_files_returned (schedule : list nat) (files : list UploadedFile)
    (w w' : World) (docs : list Document) :
  aprocess_files schedule files w = Some (w', Returned docs) →
  ∃ rs, Forall2 parsed_from files rs ∧ docs = not_None rs.
Proof.
  unfold aprocess_files.
  destruct (gather schedule (fs w) (tasks_of files)) as [[fs' [rs | e]] | ] eqn:Hg;
    try done.
  intros [= <- <-]. exists rs. split; [ | done ].
  eapply gather_returned; [ apply tasks_of_task_of | done ].
Qed.

(** The documents kept are those of the files of a content type known to
    the dispatch, in the order of the files. *)
Lemma not_None_sources (files : list UploadedFile) (rs : list (option Document)) :
  Forall2 parsed_from files rs →
  Forall2 (λ f d, metadata d = {[ "file_name" := name f ]})
          (filter (λ f, is_Some (dispatch (type f))) files) (not_None rs).
Proof.
  induction 1 as [ | f r files rs Hr _ IH ]; [ constructor | ].
  unfold parsed_from in Hr. unfold not_None. simpl.
  destruct (dispatch (type f)) as [d | ] eqn:Hd.
  - destruct Hr as [s ->]. simpl.
    rewrite filter_cons_True by (rewrite Hd; eauto). by constructor.
  - subst r. simpl. rewrite filter_cons_False; [ done | ].
    rewrite Hd. by intros [? ?].
Qed.


(** On files of unknown content types only, [aprocess_files] returns no
    document. *)
Lemma aprocess_files_unsupported (schedule : list nat) (files : list UploadedFile)
    (w : World) :
  Forall (λ f, dispatch (type f) = None) files →
  enough schedule (length files) = true →
  ∃ fs', aprocess_files schedule files w = Some (with_fs fs' w, Returned []).
Proof.
  intros Hnone Henough. unfold aprocess_files.
  destruct (gather_tasks_of_ends schedule (fs w) files Henough) as [[fs' [rs | e]] Hg];
    rewrite Hg.
  - exists fs'. do 3 f_equal.
    apply gather_returned with (files := files) in Hg; [ | apply tasks_of_task_of ].
    clear Henough. induction Hg as [ | f r files rs Hr _ IH ]; [ done | ].
    inversion Hnone as [ | ? ? Hf Hnone' ]; subst.
    unfold parsed_from in Hr. rewrite Hf in Hr. subst r.
    unfold not_None in *. simpl. by apply IH.
  - exfalso.
    apply gather_raised with (files := files) in Hg;
      [ | apply tasks_of_task_of | apply tasks_of_not_raised ].
    apply Exists_exists in Hg as (f & Hin & Hsome).
    eapply Forall_forall in Hnone; [ | done ]. rewrite Hnone in Hsome.
    by destruct Hsome.
Qed.

(** On such files ingestion shows that no valid document was processed and
    ends the run; besides the page only the scratch location may differ. *)
Lemma ingest_no_document (app : AsyncRAGApp) (schedule : list nat)
    (files : list UploadedFile) (w : World) :
  Forall (λ f, dispatch (type f) = None) files →
  enough schedule (length files) = true →
  ∃ fs',
    ingest app schedule files w
    = Some (show (st_error "No valid documents were processed.") (with_fs fs' w),
            Returned Return).
Proof.
  intros Hnone Henough.
  destruct (aprocess_files_unsupported schedule files w Hnone Henough) as [fs' Hp].
  exists fs'. unfold ingest, try_except, bind. by rewrite Hp.
Qed.

(** C2.  On a batch of files whose content types are all unknown to the
    parser, ingestion shows that no valid document was processed and
    [main] returns; the session is as it was, so one without a retriever
    stays without, and neither the vector store nor the chat model has
    been called. *)
Theorem ingest_unsupported_only (app : AsyncRAGApp) (schedule : list nat)
    (files : list UploadedFile) (w : World) :
  Forall (λ f, dispatch (type f) = None) files →
  enough schedule (length files) = true →
  retriever (session_state w) = None →
  ∃ w',
    ingest app schedule files w = Some (w', Returned Return)
    ∧ page w' = page w ++ [st_error "No valid documents were processed."]
    ∧ session_state w' = session_state w
    ∧ retriever (session_state w') = None
    ∧ calls w' = calls w.
Proof.
  intros Hnone Henough Hempty.
  destruct (ingest_no_document app schedule files w Hnone Henough) as [fs' Hingest].
  eexists. split; [ exact Hingest | ]. by simpl.
Qed.

End Ingestion.

(* ===================================================================== *)
(** * Properties of the metadata                                          *)
(* ===================================================================== *)

Section Traceability.
Import FileProcessor VectorStore Retriever App.
Context `{Capabilities}.

(** A chunk carries the metadata of the document whose text it is cut from. *)
Lemma split_documents_elem (self : TextSplitter.t) (documents : list Document)
    (chunk : Document) :
  chunk ∈ TextSplitter.split_documents self documents →
  ∃ d, d ∈ documents
       ∧ metadata chunk = metadata d
       ∧ page_content chunk ∈ TextSplitter.split_text self (page_content d).
Proof.
  unfold TextSplitter.split_documents, TextSplitter.create_documents.
  induction documents as [ | d documents IH ]; simpl.
  - by intros ?%elem_of_nil.
  - rewrite elem_of_app. intros [Hhere | Hthere].
    + apply list_elem_of_In, in_map_iff in Hhere as (s & <- & Hs).
      exists d. split; [ by left | ]. split; [ done | ]. by apply list_elem_of_In.
    + destruct (IH Hthere) as (d' & Hd' & Hm & Hs).
      exists d'. split; [ by right | done ].
Qed.

(** C8.  The documents which [aprocess_files] returns are those of the
    files the parser can read, in order, and each has the name of its file
    under [file_name]; every chunk cut from them has the metadata of the
    document it comes from, hence the name of that document's file under
    [file_name]. *)
Theorem file_name_in_metadata (schedule : list nat) (files : list UploadedFile)
    (w w' : World) (docs : list Document) (vs : AsyncVectorStore) :
  aprocess_files schedule files w = Some (w', Returned docs) →
  Forall2 (λ f d, metadata d !! "file_name" = Some (name f))
          (filter (λ f, is_Some (dispatch (type f))) files) docs
  ∧ ∀ chunk,
      chunk ∈ aprocess_documents vs docs →
      ∃ f d, f ∈ files ∧ d ∈ docs
             ∧ page_content chunk
                 ∈ TextSplitter.split_text (text_splitter vs) (page_content d)
             ∧ metadata d !! "file_name" = Some (name f)
             ∧ metadata chunk !! "file_name" = Some (name f).
Proof.
  intros (rs & Hrs & ->)%aprocess_files_returned.
  pose proof (not_None_sources files rs Hrs) as Hsrc.
  split.
  - eapply Forall2_impl; [ exact Hsrc | ]. intros f d ->. apply lookup_singleton_eq.
  - intros chunk (d & Hd & Hm & Hs)%split_documents_elem.
    apply list_elem_of_lookup_1 in Hd as [i Hi].
    destruct (Forall2_lookup_r _ _ _ _ _ Hsrc Hi) as (f & Hf & Hfd).
    exists f, d. split.
    { apply list_elem_of_lookup_2 in Hf. by apply list_elem_of_filter in Hf as [_ ?]. }
    split; [ by eapply list_elem_of_lookup_2 | ]. split; [ done | ].
    rewrite Hm, Hfd. split; apply lookup_singleton_eq.
Qed.

End Traceability.

(* ===================================================================== *)
(** * Properties of the text splitter                                     *)
(* ===================================================================== *)

Section Text.

Lemma chars_str (l : list ascii) : chars (str l) = l.
Proof. apply list_ascii_of_string_of_list_ascii. Qed.

Lemma str_chars (s : string) : str (chars s) = s.
Proof. apply string_of_list_ascii_of_string. Qed.

Lemma length_chars (s : string) : length (chars s) = String.length s.
Proof. induction s as [ | c s IH ]; simpl; [ done | by rewrite IH ]. Qed.

Lemma str_nil_inv (l : list ascii) : str l = "" → l = [].
Proof. by destruct l. Qed.

Lemma len_app (a b : list ascii) :
  TextSplitter.len (a ++ b) = TextSplitter.len a + TextSplitter.len b.
Proof. unfold TextSplitter.len. rewrite length_app. lia. Qed.

Lemma len_nonneg (a : list ascii) : 0 ≤ TextSplitter.len a.
Proof. unfold TextSplitter.len. lia. Qed.

Lemma len_concat_cons (a : list ascii) (l : list (list ascii)) :
  TextSplitter.len (concat (a :: l)) = TextSplitter.len a + TextSplitter.len (concat l).
Proof. simpl. apply len_app. Qed.

Lemma concat_snoc (l : list (list ascii)) (a : list ascii) :
  concat (l ++ [a]) = concat l ++ a.
Proof. rewrite concat_app. simpl. by rewrite app_nil_r. Qed.

Lemma concat_filter_nonempty (l : list (list ascii)) :
  concat (filter (λ p, p ≠ []) l) = concat l.
Proof.
  induction l as [ | [ | c p] l IH ]; [ done | | ].
  - rewrite filter_cons_False by (by intros ?). by simpl.
  - rewrite filter_cons_True by done. simpl. by rewrite IH.
Qed.

Lemma concat_nonempty_nil (l : list (list ascii)) :
  Forall (λ p, p ≠ []) l → concat l = [] → l = [].
Proof.
  destruct 1 as [ | p l Hp _ ]; [ done | ]. simpl. intros Hnil.
  apply app_eq_nil in Hnil as [-> _]. done.
Qed.

Lemma list_case_nonempty {A B : Type} (l : list A) (x y : B) :
  l ≠ [] → match l with _ :: _ => x | [] => y end = x.
Proof. by destruct l. Qed.

Lemma startswith_app (p s : list ascii) :
  startswith p s = true → s = p ++ drop (length p) s.
Proof.
  revert s. induction p as [ | a p IH ]; intros [ | b s ]; simpl; try done.
  case_decide as Hab; [ | done ]. subst b. intros Hs. f_equal. by apply IH.
Qed.



End Text.

Section Regex_split.
Import TextSplitter.
Variable sep : list ascii.
Hypothesis sep_nonempty : sep ≠ [].

Lemma between_nonempty (k : nat) (s : list ascii) : between sep k s ≠ [].
Proof.
  revert k. induction s as [ | c s IH ]; intros k; simpl; [ done | ].
  destruct k as [ | k ]; [ | apply IH ].
  destruct (startswith sep (c :: s)); [ done | ].
  by destruct (between sep 0 s).
Qed.

Lemma alternate_cons (p q : list ascii) (qs : list (list ascii)) :
  alternate sep (p :: q :: qs) = p :: sep :: alternate sep (q :: qs).
Proof. done. Qed.

Lemma alternate_head (p : list ascii) (ps : list (list ascii)) :
  alternate sep (p :: ps) = p :: tail (alternate sep (p :: ps)).
Proof. by destruct ps. Qed.

Lemma concat_alternate_cons (c : ascii) (p : list ascii) (ps : list (list ascii)) :
  concat (alternate sep ((c :: p) :: ps)) = c :: concat (alternate sep (p :: ps)).
Proof. by destruct ps. Qed.

(** The texts between the separators, with the separators put back, are
    the text split. *)
Lemma concat_alternate_between (s : list ascii) :
  ∀ k, concat (alternate sep (between sep k s)) = drop k s.
Proof.
  induction s as [ | c s IH ]; intros k; [ by destruct k | ].
  destruct k as [ | k ]; [ | apply IH ]. cbn [between drop].
  destruct (startswith sep (c :: s)) eqn:Hstart.
  - pose proof (between_nonempty (length sep - 1) s) as Hne.
    specialize (IH (length sep - 1)%nat).
    destruct (between sep (length sep - 1) s) as [ | p ps ]; [ done | ].
    rewrite alternate_cons. cbn [concat app]. rewrite IH.
    apply startswith_app in Hstart. rewrite Hstart at 1.
    destruct sep as [ | a sep' ]; [ done | ]. simpl. by rewrite Nat.sub_0_r.
  - pose proof (between_nonempty 0 s) as Hne. specialize (IH 0%nat).
    destruct (between sep 0 s) as [ | p ps ]; [ done | ].
    by rewrite concat_alternate_cons, IH.
Qed.

Lemma glue_pairs_alternate (p : list ascii) (ps : list (list ascii)) :
  glue_pairs (tail (alternate sep (p :: ps))) = map (app sep) ps.
Proof.
  revert p. induction ps as [ | q qs IH ]; intros p; [ done | ].
  rewrite alternate_cons. cbn [tail]. rewrite alternate_head. cbn [glue_pairs map].
  by rewrite IH.
Qed.

Lemma even_length_alternate (p : list ascii) (ps : list (list ascii)) :
  Nat.even (length (alternate sep (p :: ps))) = false.
Proof.
  revert p. induction ps as [ | q qs IH ]; intros p; [ done | ].
  rewrite alternate_cons. cbn [length Nat.even]. apply IH.
Qed.

Lemma concat_glued (p : list ascii) (ps : list (list ascii)) :
  concat (p :: map (app sep) ps) = concat (alternate sep (p :: ps)).
Proof.
  revert p. induction ps as [ | q qs IH ]; intros p; [ done | ].
  rewrite alternate_cons. cbn [map concat]. rewrite <- IH. simpl.
  by rewrite <- app_assoc.
Qed.

(** [_split_text_with_regex] cuts the text into pieces, none empty, which
    put one after the other give the text again. *)
Lemma split_text_with_regex_concat (s : list ascii) :
  concat (_split_text_with_regex s sep) = s.
Proof.
  unfold _split_text_with_regex. rewrite concat_filter_nonempty.
  rewrite (list_case_nonempty sep _ _ sep_nonempty).
  unfold re_split_capture.
  pose proof (between_nonempty 0 s) as Hne.
  pose proof (concat_alternate_between s 0) as Hcat.
  destruct (between sep 0 s) as [ | p ps ]; [ done | ].
  rewrite even_length_alternate, glue_pairs_alternate.
  rewrite alternate_head at 1.
  replace (slice_first 1 (p :: tail (alternate sep (p :: ps)))) with [p] by done.
  change ([p] ++ map (app sep) ps) with (p :: map (app sep) ps).
  by rewrite concat_glued.
Qed.

End Regex_split.

Section Regex_split_chars.
Import TextSplitter.

Lemma split_chars_concat (s : list ascii) :
  concat (_split_text_with_regex s []) = s.
Proof.
  unfold _split_text_with_regex. rewrite concat_filter_nonempty.
  induction s as [ | c s IH ]; simpl; [ done | by rewrite IH ].
Qed.

Lemma split_chars (s : list ascii) :
  _split_text_with_regex s [] = map (λ c, [c]) s.
Proof.
  unfold _split_text_with_regex.
  induction s as [ | c s IH ]; [ done | ].
  cbn [map]. rewrite filter_cons_True by done. by rewrite IH.
Qed.

Lemma split_text_with_regex_nonempty (s separator : list ascii) :
  Forall (λ p, p ≠ []) (_split_text_with_regex s separator).
Proof.
  unfold _split_text_with_regex. apply Forall_forall.
  by intros p [? _]%list_elem_of_filter.
Qed.

End Regex_split_chars.

Section Short_text.
Import TextSplitter.
Variable self : TextSplitter.t.

Lemma join_text_nil (docs : list (list ascii)) : join_text [] docs = concat docs.
Proof.
  induction docs as [ | d docs IH ]; [ done | ].
  destruct docs as [ | d' docs ]; [ simpl; by rewrite app_nil_r | ].
  change (join_text [] (d :: d' :: docs)) with (d ++ [] ++ join_text [] (d' :: docs)).
  by rewrite IH.
Qed.

(** While the splits fit into one chunk, [_merge_splits] only collects
    them. *)
Lemma merge_fold_small (splits : list (list ascii)) :
  ∀ cur,
    len (concat cur) + len (concat splits) ≤ _chunk_size self →
    foldl (merge_step self [])
          {| docs := []; current_doc := cur; total := len (concat cur) |} splits
    = {| docs := []; current_doc := cur ++ splits;
         total := len (concat (cur ++ splits)) |}.
Proof.
  induction splits as [ | d splits IH ]; intros cur Hfit.
  - by rewrite app_nil_r.
  - rewrite len_concat_cons in Hfit. pose proof (len_nonneg (concat splits)).
    cbn [foldl]. unfold merge_step at 2. cbn [docs current_doc total].
    unfold overflows, separator_len. change (len []) with 0.
    assert ((len (concat cur) + len d
             + (if 0 <? Z.of_nat (length cur) then 0 else 0) >? _chunk_size self) = false)
      as ->.
    { destruct (0 <? Z.of_nat (length cur)); lia. }
    cbn [docs current_doc total].
    replace (len (concat cur)
             + (len d + (if 1 <? Z.of_nat (length (cur ++ [d])) then 0 else 0)))
      with (len (concat (cur ++ [d]))).
    2:{ rewrite concat_snoc, len_app.
        destruct (1 <? Z.of_nat (length (cur ++ [d]))); lia. }
    rewrite IH.
    + by rewrite <- app_assoc.
    + rewrite concat_snoc, len_app. lia.
Qed.

Lemma merge_splits_small (splits : list (list ascii)) :
  len (concat splits) ≤ _chunk_size self →
  _merge_splits self [] splits = option_list (_join_docs splits []).
Proof.
  intros Hfit. unfold _merge_splits.
  change 0 with (len (concat [])).
  rewrite (merge_fold_small splits []) by (simpl; unfold len at 1; simpl; lia).
  done.
Qed.

Lemma join_docs_nil_separator (splits : list (list ascii)) :
  option_list (_join_docs splits [])
  = match strip (concat splits) with [] => [] | _ => [strip (concat splits)] end.
Proof.
  unfold _join_docs. rewrite join_text_nil. by destruct (strip (concat splits)).
Qed.

(** The loop of [_split_text] on pieces which are all below the chunk
    size: they are merged together. *)
Lemma loop_fold_small (recurse : option (list ascii → list (list ascii)))
    (splits : list (list ascii)) :
  ∀ good,
    Forall (λ p, len p < _chunk_size self) splits →
    foldl (loop_step self recurse) {| final_chunks := []; _good_splits := good |} splits
    = {| final_chunks := []; _good_splits := good ++ splits |}.
Proof.
  induction splits as [ | d splits IH ]; intros good Hsmall.
  - by rewrite app_nil_r.
  - inversion Hsmall as [ | ? ? Hd Hsmall' ]; subst.
    cbn [foldl]. unfold loop_step at 2.
    assert ((len d <? _chunk_size self) = true) as -> by lia.
    cbn [final_chunks _good_splits]. rewrite IH by done. by rewrite <- app_assoc.
Qed.

Lemma split_loop_small (recurse : option (list ascii → list (list ascii)))
    (splits : list (list ascii)) :
  Forall (λ p, len p < _chunk_size self) splits →
  split_loop self recurse splits
  = match splits with [] => [] | _ => _merge_splits self [] splits end.
Proof.
  intros Hsmall. unfold split_loop. rewrite loop_fold_small by done.
  unfold flush. cbn [_good_splits final_chunks app]. by destruct splits.
Qed.

(** The loop on a single piece which reaches the chunk size: the piece is
    split further, or kept when no separator is left. *)
Lemma split_loop_single (recurse : option (list ascii → list (list ascii)))
    (s : list ascii) :
  _chunk_size self ≤ len s →
  split_loop self recurse [s]
  = match recurse with None => [s] | Some f => f s end.
Proof.
  intros Hbig. unfold split_loop. cbn [foldl]. unfold loop_step.
  assert ((len s <? _chunk_size self) = false) as -> by lia.
  unfold flush. cbn [_good_splits final_chunks app].
  destruct recurse; by cbn [_good_splits final_chunks app].
Qed.

(** Pieces which give a text no longer than the chunk size are all below
    it, or the text is the only piece. *)
Lemma pieces_small_or_single (pieces : list (list ascii)) (s : list ascii) :
  concat pieces = s →
  Forall (λ p, p ≠ []) pieces →
  len s ≤ _chunk_size self →
  Forall (λ p, len p < _chunk_size self) pieces
  ∨ (pieces = [s] ∧ _chunk_size self ≤ len s).
Proof.
  intros Hcat Hne Hfit.
  destruct (decide (Forall (λ p, len p < _chunk_size self) pieces)) as [ | Hbig ];
    [ by left | right ].
  apply not_Forall_Exists in Hbig; [ | intros p; apply _ ].
  apply Exists_exists in Hbig as (p & Hin & Hp).
  apply list_elem_of_split in Hin as (l1 & l2 & ->).
  rewrite concat_app in Hcat. simpl in Hcat. subst s.
  rewrite !len_app in Hfit.
  pose proof (len_nonneg (concat l1)). pose proof (len_nonneg (concat l2)).
  apply Forall_app in Hne as [Hne1 Hne2]. apply Forall_cons in Hne2 as [_ Hne2].
  assert (l1 = []) as ->.
  { apply concat_nonempty_nil; [ done | ].
    destruct (concat l1); [ done | ]. unfold len in *. simpl in *. lia. }
  assert (l2 = []) as ->.
  { apply concat_nonempty_nil; [ done | ].
    destruct (concat l2); [ done | ]. unfold len in *. simpl in *. lia. }
  simpl in *. rewrite app_nil_r. split; [ done | ]. lia.
Qed.

Lemma concat_singletons (s : list ascii) : concat (map (λ c, [c]) s) = s.
Proof. induction s as [ | c s IH ]; simpl; [ done | by rewrite IH ]. Qed.

(** A text no longer than the chunk size comes back as one chunk, stripped,
    or as none when nothing is left of it. *)
Lemma _split_text_short (separators : list (list ascii)) :
  ∀ s,
    last separators = Some [] →
    1 < _chunk_size self →
    len s ≤ _chunk_size self →
    _split_text self separators s
    = match strip s with [] => [] | _ => [strip s] end.
Proof.
  induction separators as [ | sep rest IH ]; intros s Hlast Hsize Hfit; [ done | ].
  assert (∀ pieces,
             concat pieces = s →
             Forall (λ p, len p < _chunk_size self) pieces →
             match pieces with [] => [] | _ => _merge_splits self [] pieces end
             = match strip s with [] => [] | _ => [strip s] end) as Hmerge.
  { intros pieces Hcat Hsmall. destruct pieces as [ | p pieces ].
    - simpl in Hcat. by subst s.
    - rewrite merge_splits_small by (by rewrite Hcat).
      by rewrite join_docs_nil_separator, Hcat. }
  cbn [_split_text]. destruct sep as [ | a sep' ].
  - rewrite split_chars, split_loop_small.
    + apply Hmerge; [ apply concat_singletons | ].
      apply Forall_forall. intros p (c & -> & _)%list_elem_of_fmap.
      unfold len. simpl. lia.
    + apply Forall_forall. intros p (c & -> & _)%list_elem_of_fmap.
      unfold len. simpl. lia.
  - assert (rest ≠ [] ∧ last rest = Some []) as [Hrest Hlast'].
    { destruct rest as [ | r rest' ]; [ simpl in Hlast; congruence | ].
      split; [ done | ]. by rewrite last_cons_cons in Hlast. }
    destruct (contains (a :: sep') s).
    + destruct (pieces_small_or_single (_split_text_with_regex s (a :: sep')) s)
        as [Hsmall | [Hone Hbig]];
        [ by apply split_text_with_regex_concat
        | apply split_text_with_regex_nonempty | done | | ].
      * rewrite split_loop_small by done.
        apply Hmerge; [ by apply split_text_with_regex_concat | done ].
      * rewrite Hone, split_loop_single by done.
        destruct rest as [ | r rest' ]; [ done | ]. by apply IH.
    + destruct rest as [ | r rest' ]; [ done | ]. by apply IH.
Qed.

End Short_text.

Section Short_document.
Import TextSplitter VectorStore.

Lemma split_text_short (self : TextSplitter.t) (s : string) :
  1 < _chunk_size self →
  Z.of_nat (String.length s) ≤ _chunk_size self →
  split_text self s = if decide (str_strip s = "") then [] else [str_strip s].
Proof.
  intros Hsize Hfit. unfold split_text, str_strip.
  rewrite _split_text_short; [ | done | done | unfold len; by rewrite length_chars ].
  destruct (strip (chars s)) as [ | c l ] eqn:Hstrip; by case_decide.
Qed.

Lemma aprocess_documents_short (vs : AsyncVectorStore) (doc : Document) :
  1 < _chunk_size (text_splitter vs) →
  Z.of_nat (String.length (page_content doc)) ≤ _chunk_size (text_splitter vs) →
  aprocess_documents vs [doc]
  = if decide (str_strip (page_content doc) = "") then []
    else [ {| page_content := str_strip (page_content doc);
              metadata := metadata doc |} ].
Proof.
  intros Hsize Hfit.
  unfold aprocess_documents, split_documents, create_documents. simpl.
  rewrite split_text_short by done. rewrite app_nil_r. by case_decide.
Qed.

(** C4, as the code has it.  A document whose text is no longer than the
    chunk size (of two characters at least) gives at most one chunk: its
    text without the whitespace at its two ends, under the metadata of the
    document, and no chunk when nothing but whitespace is in the text.  So
    the chunk is the document itself when the text is not empty and neither
    starts nor ends with whitespace. *)
Theorem short_document_one_stripped_chunk (vs : AsyncVectorStore) (doc : Document) :
  1 < _chunk_size (text_splitter vs) →
  Z.of_nat (String.length (page_content doc)) ≤ _chunk_size (text_splitter vs) →
  aprocess_documents vs [doc]
  = (if decide (str_strip (page_content doc) = "") then []
     else [ {| page_content := str_strip (page_content doc);
               metadata := metadata doc |} ])
  ∧ (page_content doc ≠ "" →
     str_strip (page_content doc) = page_content doc →
     aprocess_documents vs [doc] = [doc]).
Proof.
  intros Hsize Hfit. rewrite aprocess_documents_short by done.
  split; [ done | ]. intros Hne Hstrip. rewrite Hstrip.
  case_decide; [ done | ]. by destruct doc.
Qed.

End Short_document.

(** C4, as the claim has it, fails: the text which pandas prints for a small
    table starts with blanks, and the one chunk made of it does not. *)
Lemma short_document_chunk_differs :
  ¬ (∀ (vs : VectorStore.AsyncVectorStore) (doc : Document),
        Z.of_nat (String.length (page_content doc))
        ≤ TextSplitter._chunk_size (VectorStore.text_splitter vs) →
        ∃ chunk,
          VectorStore.aprocess_documents vs [doc] = [chunk]
          ∧ page_content chunk = page_content doc).
Proof.
  intros Hclaim.
  destruct (Hclaim Demo.vector_store Demo.people_table) as (chunk & Hsplit & Htext).
  { vm_compute. discriminate. }
  rewrite aprocess_documents_short in Hsplit; [ | done | vm_compute; discriminate ].
  case_decide as Hempty; [ done | ].
  inversion Hsplit; subst chunk. simpl in Htext. vm_compute in Htext. discriminate.
Qed.

(** [short_document_one_stripped_chunk] on the table printed by pandas,
    with the default sizes. *)
Lemma short_document_one_stripped_chunk_witness :
  VectorStore.aprocess_documents Demo.vector_store [Demo.people_table]
  = (if decide (str_strip (page_content Demo.people_table) = "") then []
     else [ {| page_content := str_strip (page_content Demo.people_table);
               metadata := metadata Demo.people_table |} ])
  ∧ (page_content Demo.people_table ≠ "" →
     str_strip (page_content Demo.people_table) = page_content Demo.people_table →
     VectorStore.aprocess_documents Demo.vector_store [Demo.people_table]
     = [Demo.people_table]).
Proof.
  apply (short_document_one_stripped_chunk Demo.vector_store Demo.people_table).
  - reflexivity.
  - vm_compute. discriminate.
Defined.

Section Unbroken_text.
Import TextSplitter.
Variable self : TextSplitter.t.
Hypothesis size_overlap : 0 ≤ _chunk_overlap self < _chunk_size self.














End Unbroken_text.

Section Overlap.
Import TextSplitter VectorStore.




End Overlap.



(* ===================================================================== *)
(** * The properties at work on the stand-ins                             *)
(* ===================================================================== *)

(** [ingest_unsupported_only] on an image and a text file, the tasks
    resumed in turn. *)
Lemma ingest_unsupported_only_witness :
  ∃ w',
    App.ingest Demo.app (App.round_robin 2) [Demo.logo_png; Demo.readme_txt] Demo.fresh
    = Some (w', Returned App.Return)
    ∧ App.page w'
      = App.page Demo.fresh ++ [App.st_error "No valid documents were processed."]
    ∧ App.session_state w' = App.session_state Demo.fresh
    ∧ App.retriever (App.session_state w') = None
    ∧ App.calls w' = App.calls Demo.fresh.
Proof.
  apply (ingest_unsupported_only (H := Demo.capabilities)).
  - repeat constructor.
  - reflexivity.
  - reflexivity.
Defined.

(** [ask_failure_keeps_conversation] with a chat model out of quota. *)
Lemma ask_failure_keeps_conversation_witness :
  ∃ w',
    App.ask (H := Demo.llm_down) Demo.app "Who wrote it?" Demo.ready_llm_down
    = Some (w', Returned tt)
    ∧ App.chat_history (App.session_state w')
      = App.chat_history (App.session_state Demo.ready_llm_down)
    ∧ App.retriever (App.session_state w') = Some Demo.retriever_llm_down
    ∧ App.page w'
      = App.page Demo.ready_llm_down
        ++ [App.st_chat_message "user" "Who wrote it?";
            App.st_error ("Error generating response: " +:+ "insufficient_quota")].
Proof.
  apply (ask_failure_keeps_conversation (H := Demo.llm_down)).
  - reflexivity.
  - right. eexists. split; reflexivity.
Defined.

(** [prompt_history_is_last_three] on a fifth question, from a store of
    five chunks. *)
Lemma prompt_history_is_last_three_witness :
  ∃ older recent,
    App.chat_history (App.session_state Demo.after_four_turns) = older ++ recent
    ∧ length recent
      = Nat.min 3 (length (App.chat_history (App.session_state Demo.after_four_turns)))
    ∧ let prompt :=
        App.render_prompt
          (join App.LF (map page_content (take 3 Demo.five_chunks)))
          (join App.LF
             (map (λ turn, "Q: " +:+ turn.1 +:+ App.LF +:+ "A: " +:+ turn.2) recent))
          "And then?" in
      ∃ w' res,
        App.ask Demo.app "And then?" Demo.after_four_turns = Some (w', res)
        ∧ App.calls w'
          = App.calls Demo.after_four_turns
            ++ [App.similarity_search_call "And then?" 3; App.llm_call prompt]
        ∧ App.chat_history (App.session_state w')
          = older ++ recent
            ++ match @llm_ainvoke Demo.capabilities prompt with
               | Returned answer => [("And then?", answer)]
               | Raised _ => []
               end.
Proof.
  apply (prompt_history_is_last_three (H := Demo.capabilities) Demo.app "And then?"
           Demo.after_four_turns Demo.retriever_of_five).
  - reflexivity.
  - reflexivity.
Defined.

(** In that run the first of the four earlier turns is not in the prompt. *)
Example prompt_after_four_turns :
  ∃ w' res,
    App.ask Demo.app "And then?" Demo.after_four_turns = Some (w', res)
    ∧ last (App.calls w')
      = Some (App.llm_call
                (App.render_prompt
                   ("one" +:+ App.LF +:+ "two" +:+ App.LF +:+ "three")
                   ("Q: When?" +:+ App.LF +:+ "A: In 1843." +:+ App.LF
                    +:+ "Q: Where?" +:+ App.LF +:+ "A: In London." +:+ App.LF
                    +:+ "Q: Why?" +:+ App.LF +:+ "A: To explain the engine.")
                   "And then?"))
    ∧ App.chat_history (App.session_state w')
      = Demo.four_turns ++ [("And then?", "I cannot tell from the context.")].
Proof. eexists _, _. split; [ vm_compute; reflexivity | ]. by vm_compute. Qed.

(** [file_name_in_metadata] on a PDF and an image: one document, of the
    PDF. *)
Lemma file_name_in_metadata_witness :
  let docs := [ {| page_content := "The capital of France is Paris.";
                   metadata := {[ "file_name" := "report.pdf" ]} |} ] in
  let files := [Demo.report_pdf; Demo.logo_png] in
  Forall2 (λ f d, metadata d !! "file_name" = Some (FileProcessor.name f))
          (filter (λ f, is_Some (FileProcessor.dispatch (FileProcessor.type f))) files)
          docs
  ∧ ∀ chunk,
      chunk ∈ VectorStore.aprocess_documents Demo.vector_store docs →
      ∃ f d, f ∈ files ∧ d ∈ docs
             ∧ page_content chunk
                 ∈ TextSplitter.split_text (VectorStore.text_splitter Demo.vector_store)
                     (page_content d)
             ∧ metadata d !! "file_name" = Some (FileProcessor.name f)
             ∧ metadata chunk !! "file_name" = Some (FileProcessor.name f).
Proof.
  refine (file_name_in_metadata (H := Demo.capabilities) (App.round_robin 2)
            [Demo.report_pdf; Demo.logo_png] Demo.fresh _ _ Demo.vector_store _).
  vm_compute. reflexivity.
Defined.

(* ===================================================================== *)
(** * One run of the script                                               *)
(* ===================================================================== *)

Section Script.
Import FileProcessor VectorStore Retriever App.
Context `{Capabilities}.

(** The default configuration is one the text splitter accepts. *)
Lemma init_default :
  init Config.default
  = Returned {| vector_store :=
                  {| vectorstore_path := "./data/vectorstore";
                     text_splitter := TextSplitter.mk 1500 200 |} |}.
Proof. reflexivity. Qed.

(** X22.  With no file in the uploader the script stops at once: neither
    ingestion nor the chat is reached, whatever the session holds and
    whatever has been typed. *)
Lemma main_without_files (config : Config.t) (app : AsyncRAGApp) (schedule : list nat)
    (chat_input : option string) (w : World) :
  init config = Returned app →
  ∃ w',
    main config schedule [] chat_input w = Some (w', Returned tt)
    ∧ page w' = page w ++ [st_sidebar_title "📁 Upload Files";
                           st_warning "👋 Please upload files to start chatting!"]
    ∧ session_state w' = session_state w
    ∧ calls w' = calls w.
Proof.
  intros Hinit. unfold main, bind, lift, modify. rewrite Hinit. simpl.
  eexists. split; [ reflexivity | ]. simpl. by rewrite <- app_assoc.
Qed.

(** A whole run of [main] on files of unknown content types only, from a
    session without retriever. *)
Lemma main_unsupported_only (config : Config.t) (app : AsyncRAGApp) (schedule : list nat)
    (files : list UploadedFile) (chat_input : option string) (w : World) :
  init config = Returned app →
  files ≠ [] →
  Forall (λ f, dispatch (type f) = None) files →
  enough schedule (length files) = true →
  retriever (session_state w) = None →
  ∃ w',
    main config schedule files chat_input w = Some (w', Returned tt)
    ∧ page w' = page w ++ [st_sidebar_title "📁 Upload Files";
                           st_error "No valid documents were processed."]
    ∧ session_state w' = session_state w
    ∧ calls w' = calls w.
Proof.
  intros Hinit Hfiles Hnone Henough Hempty.
  set (w1 := show (st_sidebar_title "📁 Upload Files") w).
  destruct (ingest_no_document app schedule files w1 Hnone Henough) as [fs' Hingest].
  eexists. unfold main, bind, lift, modify. rewrite Hinit. simpl.
  destruct files as [ | f files ]; [ done | ]. fold w1.
  change (retriever (session_state w1)) with (retriever (session_state w)).
  rewrite Hempty, Hingest. simpl.
  split; [ reflexivity | ]. simpl. by rewrite <- app_assoc.
Qed.

Lemma show_messages_session (w : World) :
  session_state (show_messages w) = session_state w.
Proof.
  unfold show_messages. generalize (messages (session_state w)). intros ms.
  revert w. induction ms as [ | m ms IH ]; intros w; [ done | ].
  simpl. by rewrite IH.
Qed.

(** A whole run of [main] with a question during which the search or the
    chat model raises: the session has a retriever, so ingestion is
    skipped. *)
Lemma main_ask_failure (config : Config.t) (app : AsyncRAGApp) (schedule : list nat)
    (files : list UploadedFile) (prompt : string) (w : World)
    (r : AsyncDocumentRetriever) (msg : string) :
  init config = Returned app →
  files ≠ [] →
  prompt ≠ "" →
  retriever (session_state w) = Some r →
  (Chroma_similarity_search (vector_db r) prompt 3 = Raised (Exception msg)
   ∨ ∃ docs,
       Chroma_similarity_search (vector_db r) prompt 3 = Returned docs
       ∧ llm_ainvoke (render_prompt (join LF (map page_content docs))
                        (history_str (chat_history (session_state w))) prompt)
         = Raised (Exception msg)) →
  ∃ w',
    main config schedule files (Some prompt) w = Some (w', Returned tt)
    ∧ chat_history (session_state w') = chat_history (session_state w)
    ∧ retriever (session_state w') = Some r
    ∧ last (page w') = Some (st_error ("Error generating response: " +:+ msg)).
Proof.
  intros Hinit Hfiles Hprompt Hr Hfail.
  set (w1 := show_messages
               (show (st_title "💬 Async RAG Chatbot")
                     (show (st_sidebar_title "📁 Upload Files") w))).
  assert (session_state w1 = session_state w) as Hs1
      by (unfold w1; by rewrite show_messages_session).
  destruct (ask_failure app prompt w1 r msg) as (w0 & Hask & Hsession & Hpage).
  { by rewrite Hs1. }
  { by rewrite Hs1. }
  eexists. unfold main, bind, lift, modify, ret. rewrite Hinit. simpl.
  destruct files as [ | f files ]; [ done | ]. cbn [session_state show].
  rewrite Hr. cbv beta iota.
  assert (String.eqb prompt "" = false) as -> by (by apply String.eqb_neq).
  fold w1. rewrite Hask. split; [ reflexivity | ]. simpl.
  rewrite Hsession. simpl. rewrite Hs1. split; [ done | ]. split; [ done | ].
  apply last_snoc.
Qed.

End Script.

(* ===================================================================== *)
(** * Runs on the stand-ins                                               *)
(* ===================================================================== *)

(** One file is ingested and one question answered: the page, the history
    and the scratch location afterwards. *)
Example run_report_question :
  ∃ w,
    App.main Config.default (App.round_robin 1) [Demo.report_pdf]
      (Some "What is the capital of France?") Demo.fresh
    = Some (w, Returned tt)
    ∧ App.page w
      = [App.st_sidebar_title "📁 Upload Files"; App.st_title "💬 Async RAG Chatbot";
         App.st_chat_message "user" "What is the capital of France?";
         App.st_chat_message "assistant" "I cannot tell from the context."]
    ∧ App.chat_history (App.session_state w)
      = [("What is the capital of France?", "I cannot tell from the context.")]
    ∧ App.retriever (App.session_state w)
      = Some (@Retriever.Build_AsyncDocumentRetriever Demo.capabilities
                [ {| page_content := "The capital of France is Paris.";
                     metadata := {[ "file_name" := "report.pdf" ]} |} ])
    ∧ App.fs w = ∅.
Proof. eexists. split; [ vm_compute; reflexivity | ]. by vm_compute. Qed.

(** A spreadsheet which cannot be read fails the whole ingestion, reported
    as an error of processing the documents; no retriever is installed. *)
Example run_unreadable_spreadsheet :
  ∃ w,
    App.main Config.default (App.round_robin 2)
      [Demo.report_pdf;
       {| FileProcessor.name := "sales.xlsx";
          FileProcessor.type :=
            "application/vnd.openxmlformats-officedocument.spreadsheetml.sheet";
          FileProcessor.getbuffer := "PK" |}]
      None Demo.fresh
    = Some (w, Returned tt)
    ∧ App.page w
      = [App.st_sidebar_title "📁 Upload Files";
         App.st_error
           "Error processing documents: Excel file format cannot be determined"]
    ∧ App.retriever (App.session_state w) = None
    ∧ App.calls w = [].
Proof. eexists. split; [ vm_compute; reflexivity | ]. by vm_compute. Qed.

(** The tasks finish in any order of resumption; here the second file is
    through before the first one. *)
Example run_other_schedule :
  ∃ w docs,
    App.aprocess_files [1; 1; 1; 0; 1; 0; 0; 1; 0; 0]%nat
      [Demo.report_pdf; Demo.people_csv] Demo.fresh
    = Some (w, Returned docs)
    ∧ map page_content docs = ["The capital of France is Paris."; "name,age"].
Proof. eexists _, _. split; [ vm_compute; reflexivity | ]. by vm_compute. Qed.

(* ===================================================================== *)
(** * The parse tasks and their temporary files                           *)
(* ===================================================================== *)

Section Own_bytes.
Import FileProcessor VectorStore Retriever App.
Context `{Capabilities}.

Lemma decode_read (d : decoder) (fs : FS) (path bytes : string) :
  fs !! path = Some bytes → decode d fs path = decode_bytes d bytes.
Proof.
  intros Hl.
  destruct d; unfold decode, aprocess_pdf, aprocess_csv, aprocess_excel, read_file;
    by rewrite Hl.
Qed.

Lemma cleanup_delete (fs : FS) (path : string) : cleanup fs path = delete path fs.
Proof.
  unfold cleanup, os_path_exists, os_remove. case_bool_decide as Hex; [ done | ].
  symmetry. apply delete_id. destruct (fs !! path) eqn:Hl; [ | done ].
  exfalso. apply Hex. eauto.
Qed.

(** A resumption touches no path but the temporary path of its task. *)
Lemma step_frame (fs : FS) (t : task) (p : string) :
  p ≠ temp_file_path (file t) → (step fs t).1 !! p = fs !! p.
Proof.
  intros Hp. unfold step. destruct (at_pc t); simpl; try done.
  - by rewrite lookup_insert_ne.
  - by rewrite lookup_insert_ne.
  - destruct (dispatch _); simpl; [ done | ].
    rewrite cleanup_delete. by rewrite lookup_delete_ne.
  - destruct (decode _ _ _); simpl; rewrite cleanup_delete; by rewrite lookup_delete_ne.
Qed.

Lemma step_in_step_with (fs : FS) (uploaded_file : UploadedFile) (t : task) :
  in_step_with fs uploaded_file t →
  in_step_with (step fs t).1 uploaded_file (step fs t).2.
Proof.
  intros [Hfile Hpc]. split; [ by rewrite step_file | ].
  unfold step. rewrite Hfile. destruct (at_pc t) eqn:Hat; simpl; try done.
  - apply lookup_insert_eq.
  - destruct (dispatch (type uploaded_file)) as [d | ] eqn:Hd; simpl; [ done | ].
    split; [ | apply cleanup_removes ]. unfold parse_of. by rewrite Hd.
  - destruct Hpc as [Hd Hl]. rewrite (decode_read _ _ _ _ Hl).
    unfold parse_of. rewrite Hd.
    destruct (decode_bytes d (getbuffer uploaded_file)); simpl;
      (split; [ done | apply cleanup_removes ]).
  - by rewrite Hat.
Qed.

Lemma step_other (fs : FS) (uploaded_file : UploadedFile) (t u : task) :
  in_step_with fs uploaded_file t →
  temp_file_path uploaded_file ≠ temp_file_path (file u) →
  in_step_with (step fs u).1 uploaded_file t.
Proof.
  intros [Hfile Hpc] Hne. split; [ done | ].
  destruct (at_pc t); try done; by rewrite step_frame.
Qed.

Lemma start_in_step_with (fs : FS) (uploaded_file : UploadedFile) :
  in_step_with fs uploaded_file (start uploaded_file).
Proof. done. Qed.

Lemma tasks_of_in_step_with (fs : FS) (files : list UploadedFile) :
  Forall2 (in_step_with fs) files (tasks_of files).
Proof. induction files; constructor; [ apply start_in_step_with | done ]. Qed.

(** With temporary paths which differ from file to file, resuming one
    task leaves every task in step with the scratch location. *)
Lemma resume_in_step_with (files : list UploadedFile) (tasks : list task)
    (fs : FS) (i : nat) (t : task) :
  NoDup (map temp_file_path files) →
  Forall2 (in_step_with fs) files tasks →
  tasks !! i = Some t →
  Forall2 (in_step_with (step fs t).1) files (<[i := (step fs t).2]> tasks).
Proof.
  intros Hdup Hinv Hi.
  apply Forall2_same_length_lookup in Hinv as [Hlen Hinv].
  apply Forall2_same_length_lookup. split; [ by rewrite length_insert | ].
  intros j f u Hf Hu.
  destruct (decide (i = j)) as [<- | Hne].
  - rewrite list_lookup_insert_eq in Hu by (by eapply lookup_lt_Some).
    inversion Hu; subst u. apply step_in_step_with. by eapply Hinv.
  - rewrite list_lookup_insert_ne in Hu by done.
    apply step_other; [ by eapply Hinv | ].
    destruct (files !! i) as [g | ] eqn:Hg.
    + destruct (Hinv i g t Hg Hi) as [-> _].
      intros Heq. apply Hne.
      eapply (NoDup_lookup _ i j _ Hdup).
      * by rewrite list_lookup_fmap, Hg.
      * rewrite list_lookup_fmap, Hf. simpl. by rewrite Heq.
    + exfalso. apply lookup_ge_None in Hg.
      apply lookup_lt_Some in Hi. lia.
Qed.

Lemma results_in_step_with (fs : FS) (files : list UploadedFile) (tasks : list task)
    (rs : list (option Document)) :
  Forall2 (in_step_with fs) files tasks →
  results tasks = Some rs →
  Forall2 (λ f r, parse_of f = Returned r) files rs
  ∧ Forall (λ f, fs !! temp_file_path f = None) files.
Proof.
  unfold results. intros Hinv Hrs%mapM_Some. revert rs Hrs.
  induction Hinv as [ | f t files tasks [_ Hpc] _ IH ]; intros rs Hrs;
    inversion Hrs as [ | ? r ? rs' Hr Hrs' ]; subst; [ by split | ].
  destruct (IH _ Hrs') as [IH1 IH2].
  unfold result_of in Hr.
  destruct (at_pc t) as [ | | | | d | [r' | e]]; try done.
  inversion Hr; subst r'. destruct Hpc as [Hp Hl].
  split; constructor; done.
Qed.

(** [gather] over tasks whose temporary paths differ: every task has read
    the bytes of its own upload, whatever the schedule. *)
Lemma gather_in_step_with (schedule : list nat) :
  ∀ (fs0 fs : FS) (tasks : list task) (files : list UploadedFile),
    NoDup (map temp_file_path files) →
    Forall2 (in_step_with fs) files tasks →
    (∀ p, p ∉ map temp_file_path files → fs !! p = fs0 !! p) →
    match gather schedule fs tasks with
    | Some (fs', Returned rs) =>
        Forall2 (λ f r, parse_of f = Returned r) files rs
        ∧ Forall (λ f, fs' !! temp_file_path f = None) files
        ∧ ∀ p, p ∉ map temp_file_path files → fs' !! p = fs0 !! p
    | Some (fs', Raised e) =>
        (∃ f, f ∈ files ∧ parse_of f = Raised e)
        ∧ ∀ p, p ∉ map temp_file_path files → fs' !! p = fs0 !! p
    | None => True
    end.
Proof.
  induction schedule as [ | i schedule IH ]; intros fs0 fs tasks files Hdup Hinv Hframe;
    simpl; destruct (results tasks) as [rs0 | ] eqn:Hres; try done.
  - destruct (results_in_step_with _ _ _ _ Hinv Hres). done.
  - destruct (results_in_step_with _ _ _ _ Hinv Hres). done.
  - destruct (tasks !! i) as [t | ] eqn:Hi; [ | by apply IH ].
    pose proof (resume_in_step_with files tasks fs i t Hdup Hinv Hi) as Hinv'.
    destruct (Forall2_lookup_r _ _ _ _ _ Hinv Hi) as (f & Hf & Hft).
    pose proof (step_in_step_with fs f t Hft) as Hown.
    assert (∀ p, p ∉ map temp_file_path files → (step fs t).1 !! p = fs0 !! p)
      as Hframe'.
    { intros p Hp. rewrite step_frame; [ by apply Hframe | ].
      intros ->. apply Hp. destruct Hft as [-> _].
      apply list_elem_of_fmap. exists f. split; [ done | ].
      by eapply list_elem_of_lookup_2. }
    destruct (step fs t) as [fs1 t1]. simpl in Hinv', Hown, Hframe'.
    destruct (at_pc t1) as [ | | | | d | [r | e]] eqn:Hat1; try by apply IH.
    split; [ | done ]. exists f. split; [ by eapply list_elem_of_lookup_2 | ].
    destruct Hown as [_ Hpc]. rewrite Hat1 in Hpc. by destruct Hpc as [<- _].
Qed.

Lemma not_None_documents_of (files : list UploadedFile) (rs : list (option Document)) :
  Forall2 (λ f r, parse_of f = Returned r) files rs →
  not_None rs = documents_of files.
Proof.
  unfold not_None, documents_of.
  induction 1 as [ | f r files rs Hr _ IH ]; [ done | ].
  cbn [omap list_omap]. rewrite Hr, IH. done.
Qed.

Lemma lookup_without_temp_files (fs : FS) (files : list UploadedFile) (p : string) :
  without_temp_files fs files !! p
  = if decide (p ∈ map temp_file_path files) then None else fs !! p.
Proof.
  unfold without_temp_files. induction files as [ | f files IH ].
  - destruct (decide (p ∈ map temp_file_path [])) as [Hin | ]; [ | done ].
    by apply elem_of_nil in Hin.
  - cbn [foldr]. destruct (decide (p = temp_file_path f)) as [-> | Hne].
    + rewrite lookup_delete_eq. rewrite decide_True; [ done | ]. apply list_elem_of_here.
    + rewrite lookup_delete_ne by done. rewrite IH.
      destruct (decide (p ∈ map temp_file_path files)) as [Hin | Hout].
      * rewrite decide_True; [ done | ]. by apply list_elem_of_further.
      * rewrite decide_False; [ done | ].
        intros [ | ]%elem_of_cons; done.
Qed.

(** What [gather] gives on a schedule which lets every task run, when the
    temporary paths differ and every parse returns. *)
Lemma gather_all_parsed (schedule : list nat) (fs : FS) (files : list UploadedFile) :
  NoDup (map temp_file_path files) →
  enough schedule (length files) = true →
  Forall (λ f, ∃ r, parse_of f = Returned r) files →
  ∃ rs, gather schedule fs (tasks_of files)
        = Some (without_temp_files fs files, Returned rs)
        ∧ not_None rs = documents_of files.
Proof.
  intros Hdup Henough Hall.
  pose proof (gather_in_step_with schedule fs fs (tasks_of files) files Hdup
                (tasks_of_in_step_with fs files) (λ _ _, eq_refl)) as Hg.
  destruct (gather_tasks_of_ends schedule fs files Henough) as [[fs' [rs | e]] Heq];
    rewrite Heq in Hg.
  - destruct Hg as (Hrs & Hgone & Hframe). exists rs.
    split; [ | by apply not_None_documents_of ].
    assert (fs' = without_temp_files fs files) as ->; [ | done ].
    apply map_eq. intros p. rewrite lookup_without_temp_files.
    destruct (decide (p ∈ map temp_file_path files)) as [Hin | ]; [ | by apply Hframe ].
    apply list_elem_of_fmap in Hin as (f & -> & Hin).
    eapply Forall_forall in Hgone; [ | done ]. done.
  - exfalso. destruct Hg as [(f & Hin & Hraise) _].
    eapply Forall_forall in Hall; [ | done ]. destruct Hall as [r Hr]. congruence.
Qed.

(** And when some parse raises. *)
Lemma gather_some_raises (schedule : list nat) (fs : FS) (files : list UploadedFile) :
  NoDup (map temp_file_path files) →
  enough schedule (length files) = true →
  Exists (λ f, ∃ e, parse_of f = Raised e) files →
  ∃ fs' e f, gather schedule fs (tasks_of files) = Some (fs', Raised e)
             ∧ f ∈ files ∧ parse_of f = Raised e.
Proof.
  intros Hdup Henough Hex.
  pose proof (gather_in_step_with schedule fs fs (tasks_of files) files Hdup
                (tasks_of_in_step_with fs files) (λ _ _, eq_refl)) as Hg.
  destruct (gather_tasks_of_ends schedule fs files Henough) as [[fs' [rs | e]] Heq];
    rewrite Heq in Hg.
  - exfalso. destruct Hg as (Hrs & _ & _).
    apply Exists_exists in Hex as (f & Hin & e & He).
    apply list_elem_of_lookup_1 in Hin as [i Hi].
    destruct (Forall2_lookup_l _ _ _ _ _ Hrs Hi) as (r & _ & Hr). congruence.
  - destruct Hg as [(f & Hin & Hraise) _]. by exists fs', e, f.
Qed.

(** X1.  Uploads whose temporary paths differ are parsed each from its
    own bytes: on every schedule which lets each task run, when every
    parse returns, [aprocess_files] returns the documents of the uploads
    in the order of the uploads, and leaves the scratch location as it
    was but for the temporary paths, which hold nothing. *)
Theorem aprocess_files_own_bytes (schedule : list nat) (files : list UploadedFile)
    (w : World) :
  NoDup (map temp_file_path files) →
  enough schedule (length files) = true →
  Forall (λ f, ∃ r, parse_of f = Returned r) files →
  aprocess_files schedule files w
  = Some (with_fs (without_temp_files (fs w) files) w, Returned (documents_of files)).
Proof.
  intros Hdup Henough Hall. unfold aprocess_files.
  destruct (gather_all_parsed schedule (fs w) files Hdup Henough Hall) as (rs & -> & ->).
  done.
Qed.

(** X2.  With temporary paths which differ, [aprocess_files] raises what
    the parse of one of the uploads raises on the bytes of that upload,
    as soon as one does; no document is returned then. *)
Theorem aprocess_files_raises_own_error (schedule : list nat)
    (files : list UploadedFile) (w : World) :
  NoDup (map temp_file_path files) →
  enough schedule (length files) = true →
  Exists (λ f, ∃ e, parse_of f = Raised e) files →
  ∃ fs' e f,
    aprocess_files schedule files w = Some (with_fs fs' w, Raised e)
    ∧ f ∈ files ∧ parse_of f = Raised e.
Proof.
  intros Hdup Henough Hex. unfold aprocess_files.
  destruct (gather_some_raises schedule (fs w) files Hdup Henough Hex)
    as (fs' & e & f & -> & Hin & He).
  by exists fs', e, f.
Qed.

(** X3.  Run on its own, [aprocess_file] gives the outcome of the parse
    of the bytes of the upload, and leaves the scratch location as it was
    but for the temporary path, which holds nothing: a file which stood
    there before is gone too. *)
Theorem aprocess_file_alone_result (fs : FS) (uploaded_file : UploadedFile) :
  aprocess_file fs uploaded_file
  = (delete (temp_file_path uploaded_file) fs, Some (parse_of uploaded_file)).
Proof.
  unfold aprocess_file, parse_of. simpl. unfold step at 1. simpl.
  destruct (dispatch (type uploaded_file)) as [d | ] eqn:Hd; simpl.
  - unfold step. simpl.
    rewrite (decode_read d _ _ (getbuffer uploaded_file)) by apply lookup_insert_eq.
    destruct (decode_bytes d (getbuffer uploaded_file)); simpl;
      rewrite cleanup_delete, !delete_insert_eq; done.
  - rewrite cleanup_delete, !delete_insert_eq. done.
Qed.

End Own_bytes.

(* ===================================================================== *)
(** * Ingestion, from the uploads to the index                            *)
(* ===================================================================== *)

Section Index_build.
Import FileProcessor VectorStore Retriever App.
Context `{Capabilities}.







Lemma ask_frame (app : AsyncRAGApp) (prompt : string) (w : World) :
  ∃ w' res,
    ask app prompt w = Some (w', res)
    ∧ fs w' = fs w
    ∧ retriever (session_state w') = retriever (session_state w)
    ∧ ∀ chunks, from_documents_call chunks ∈ calls w' →
                from_documents_call chunks ∈ calls w.
Proof.
  unfold ask, bind, modify, try_except. simpl.
  destruct (retriever (session_state w)) as [r | ] eqn:Hr; simpl.
  - destruct (Chroma_similarity_search (vector_db r) prompt 3) as [docs | e] eqn:Hs.
    + rewrite (agenerate_response_search_returns _ _ _ _ _ Hs). simpl.
      destruct (llm_ainvoke _) as [answer | [msg | ]]; simpl;
        eexists _, _; (split; [ reflexivity | ]); simpl; rewrite ?Hr;
        (split; [ done | ]); (split; [ done | ]); intros chunks Hin;
        repeat (apply elem_of_app in Hin as [Hin | Hin%list_elem_of_singleton];
                [ | discriminate ]);
        done.
    + rewrite (agenerate_response_search_raises _ _ _ _ _ Hs). simpl.
      destruct e as [msg | ]; simpl;
        eexists _, _; (split; [ reflexivity | ]); simpl; rewrite ?Hr;
        (split; [ done | ]); (split; [ done | ]); intros chunks Hin;
        repeat (apply elem_of_app in Hin as [Hin | Hin%list_elem_of_singleton];
                [ | discriminate ]);
        done.
  - eexists _, _. split; [ reflexivity | ]. simpl. rewrite ?Hr. done.
Qed.

Lemma show_messages_frame (w : World) :
  fs (show_messages w) = fs w ∧ calls (show_messages w) = calls w.
Proof.
  unfold show_messages. generalize (messages (session_state w)). intros ms.
  revert w. induction ms as [ | m ms IH ]; intros w; [ done | ].
  simpl. destruct (IH (show (st_chat_message m.1 m.2) w)) as [-> ->]. done.
Qed.

(** X8.  Once the session holds a retriever, a run of the script does not
    look at the uploads: with other files in the uploader, and on any
    schedule, it ends in the same way; it leaves the scratch location and
    the retriever as they were and does not call the build of the index. *)
Theorem main_with_retriever_ignores_uploads (config : Config.t)
    (schedule schedule' : list nat) (files files' : list UploadedFile)
    (chat_input : option string) (w : World) (r : AsyncDocumentRetriever) :
  retriever (session_state w) = Some r →
  files ≠ [] →
  files' ≠ [] →
  main config schedule files chat_input w = main config schedule' files' chat_input w
  ∧ ∃ w' res,
      main config schedule files chat_input w = Some (w', res)
      ∧ fs w' = fs w
      ∧ retriever (session_state w') = Some r
      ∧ ∀ chunks, from_documents_call chunks ∈ calls w' →
                  from_documents_call chunks ∈ calls w.
Proof.
  intros Hr Hfiles Hfiles'.
  destruct files as [ | f files ]; [ done | ].
  destruct files' as [ | f' files' ]; [ done | ].
  unfold main, bind, lift, modify, ret.
  destruct (init config) as [app | e]; [ | split; [ done | ]; by eexists _, _ ].
  cbn [session_state show]. rewrite Hr. cbv beta iota.
  split; [ done | ].
  set (w1 := show_messages
               (show (st_title "💬 Async RAG Chatbot")
                     (show (st_sidebar_title "📁 Upload Files") w))).
  assert (session_state w1 = session_state w) as Hs1
      by (unfold w1; by rewrite show_messages_session).
  assert (fs w1 = fs w ∧ calls w1 = calls w) as [Hfs1 Hc1].
  { unfold w1. destruct (show_messages_frame
                           (show (st_title "💬 Async RAG Chatbot")
                              (show (st_sidebar_title "📁 Upload Files") w)))
      as [-> ->]. done. }
  destruct chat_input as [prompt | ].
  - destruct (String.eqb prompt "").
    + eexists _, _. split; [ reflexivity | ]. by rewrite Hfs1, Hs1, Hc1.
    + destruct (ask_frame app prompt w1) as (w' & res & -> & Hfs & Hret & Hcalls).
      eexists _, _. split; [ reflexivity | ].
      rewrite Hfs, Hret, Hfs1, Hs1. rewrite Hc1 in Hcalls. done.
  - eexists _, _. split; [ reflexivity | ]. by rewrite Hfs1, Hs1, Hc1.
Qed.

End Index_build.

(* ===================================================================== *)
(** * The properties of ingestion on the stand-ins                        *)
(* ===================================================================== *)

Lemma aprocess_files_own_bytes_witness :
  App.aprocess_files (App.round_robin 2) [Demo.report_pdf; Demo.people_csv] Demo.fresh
  = Some (App.with_fs
            (FileProcessor.without_temp_files (App.fs Demo.fresh)
               [Demo.report_pdf; Demo.people_csv])
            Demo.fresh,
          Returned (FileProcessor.documents_of (H := Demo.capabilities) [Demo.report_pdf; Demo.people_csv])).
Proof.
  apply (aprocess_files_own_bytes (H := Demo.capabilities)).
  - apply (bool_decide_unpack _). vm_compute. exact I.
  - reflexivity.
  - repeat constructor; eexists; reflexivity.
Defined.

Lemma aprocess_files_raises_own_error_witness :
  ∃ fs' e f,
    App.aprocess_files (App.round_robin 2) [Demo.report_pdf; Demo.sales_xlsx] Demo.fresh
    = Some (App.with_fs fs' Demo.fresh, Raised e)
    ∧ f ∈ [Demo.report_pdf; Demo.sales_xlsx]
    ∧ FileProcessor.parse_of (H := Demo.capabilities) f = Raised e.
Proof.
  apply (aprocess_files_raises_own_error (H := Demo.capabilities)).
  - apply (bool_decide_unpack _). vm_compute. exact I.
  - reflexivity.
  - apply Exists_cons_tl, Exists_cons_hd. eexists. reflexivity.
Defined.





Lemma main_with_retriever_ignores_uploads_witness :
  App.main Config.default (App.round_robin 1) [Demo.report_pdf] (Some "Why?")
    Demo.after_four_turns
  = App.main Config.default [] [Demo.people_csv; Demo.logo_png] (Some "Why?")
      Demo.after_four_turns
  ∧ ∃ w' res,
      App.main Config.default (App.round_robin 1) [Demo.report_pdf] (Some "Why?")
        Demo.after_four_turns
      = Some (w', res)
      ∧ App.fs w' = App.fs Demo.after_four_turns
      ∧ App.retriever (App.session_state w') = Some Demo.retriever_of_five
      ∧ ∀ chunks, App.from_documents_call chunks ∈ App.calls w' →
                  App.from_documents_call chunks ∈ App.calls Demo.after_four_turns.
Proof.
  apply (main_with_retriever_ignores_uploads (H := Demo.capabilities)); done.
Defined.

(* ===================================================================== *)
(** * Properties of the upload service                                    *)
(* ===================================================================== *)

Section Python_dict.
Context {K V : Type} `{EqDecision K}.
Implicit Types (d : list (K * V)) (k j : K) (v : V).

Lemma dict_get_set_eq d k v : dict_get (dict_set d k v) k = Some v.
Proof.
  induction d as [ | [k' v'] d IH ]; simpl.
  - by rewrite decide_True.
  - destruct (decide (k' = k)) as [-> | Hne]; simpl.
    + by rewrite decide_True.
    + by rewrite decide_False.
Qed.

Lemma dict_get_set_ne d k j v : j ≠ k → dict_get (dict_set d k v) j = dict_get d j.
Proof.
  intros Hj. induction d as [ | [k' v'] d IH ]; simpl.
  - by rewrite decide_False.
  - destruct (decide (k' = k)) as [-> | Hne]; simpl.
    + by rewrite !decide_False.
    + destruct (decide (k' = j)); done.
Qed.

Lemma dict_get_del_eq d k : dict_get (dict_del d k) k = None.
Proof.
  unfold dict_del. induction d as [ | [k' v'] d IH ]; [ done | ].
  destruct (decide (k' = k)) as [-> | Hne].
  - by rewrite filter_cons_False by (simpl; intros Hk; by apply Hk).
  - rewrite filter_cons_True by done. simpl. by rewrite decide_False.
Qed.

Lemma dict_get_del_ne d k j : j ≠ k → dict_get (dict_del d k) j = dict_get d j.
Proof.
  intros Hj. unfold dict_del. induction d as [ | [k' v'] d IH ]; [ done | ].
  destruct (decide (k' = k)) as [-> | Hne].
  - rewrite filter_cons_False by (simpl; intros Hk; by apply Hk).
    simpl. by rewrite decide_False.
  - rewrite filter_cons_True by done. simpl. by rewrite IH.
Qed.

Lemma dict_get_None d k : dict_get d k = None ↔ k ∉ dict_keys d.
Proof.
  unfold dict_keys. induction d as [ | [k' v'] d IH ]; simpl.
  - split; [ intros _; apply not_elem_of_nil | done ].
  - rewrite not_elem_of_cons. destruct (decide (k' = k)) as [-> | Hne].
    + split; [ done | ]. by intros [? _].
    + rewrite IH. split; [ by split | by intros [_ ?] ].
Qed.

Lemma dict_set_new d k v : dict_get d k = None → dict_set d k v = d ++ [(k, v)].
Proof.
  induction d as [ | [k' v'] d IH ]; simpl; [ done | ].
  destruct (decide (k' = k)); [ done | ]. intros Hd. by rewrite IH.
Qed.

Lemma dict_set_length d k v :
  is_Some (dict_get d k) → length (dict_set d k v) = length d.
Proof.
  induction d as [ | [k' v'] d IH ]; simpl; [ by intros [? ?] | ].
  destruct (decide (k' = k)); [ done | ]. intros Hd. simpl. by rewrite IH.
Qed.

Lemma dict_del_absent d k : k ∉ dict_keys d → dict_del d k = d.
Proof.
  unfold dict_del, dict_keys. induction d as [ | [k' v'] d IH ]; [ done | ].
  simpl. rewrite not_elem_of_cons. intros [Hne Hd].
  rewrite filter_cons_True by (simpl; congruence). by rewrite IH.
Qed.

Lemma dict_del_length d k :
  NoDup (dict_keys d) → is_Some (dict_get d k) →
  S (length (dict_del d k)) = length d.
Proof.
  unfold dict_keys. induction d as [ | [k' v'] d IH ]; simpl; [ by intros _ [? ?] | ].
  intros [Hnotin Hdup]%NoDup_cons.
  destruct (decide (k' = k)) as [-> | Hne]; intros Hsome.
  - unfold dict_del. rewrite filter_cons_False by (simpl; intros Hk; by apply Hk).
    fold (dict_del d k). by rewrite dict_del_absent.
  - unfold dict_del. rewrite filter_cons_True by done. simpl.
    fold (dict_del d k). by rewrite IH.
Qed.

End Python_dict.

Section Extension.
Import ApiUtils.

Lemma append_String (a : ascii) (s t : string) :
  String a s +:+ t = String a (s +:+ t).
Proof. done. Qed.

(** [rsplit1 sep s] cuts [s] at its last [sep]. *)
Lemma rsplit1_cases (sep : ascii) (s : string) :
  (rsplit1 sep s = [s] ∧ sep ∉ chars s)
  ∨ ∃ stem ext, rsplit1 sep s = [stem; ext]
                ∧ s = stem +:+ String sep ext ∧ sep ∉ chars ext.
Proof.
  induction s as [ | c s IH ]; simpl.
  - left. split; [ done | apply not_elem_of_nil ].
  - destruct IH as [[-> Hno] | (stem & ext & -> & -> & Hno)].
    + destruct (decide (c = sep)) as [-> | Hne].
      * right. by exists EmptyString, s.
      * left. split; [ done | ]. apply not_elem_of_cons. split; [ congruence | done ].
    + right. by exists (String c stem), ext.
Qed.

Lemma rsplit1_last (sep : ascii) (stem ext : string) :
  sep ∉ chars ext → rsplit1 sep (stem +:+ String sep ext) = [stem; ext].
Proof.
  intros Hno. induction stem as [ | c stem IH ].
  - change (EmptyString +:+ String sep ext) with (String sep ext). simpl.
    destruct (rsplit1_cases sep ext) as [[-> _] | (s1 & e1 & _ & -> & _)].
    + by rewrite decide_True.
    + exfalso. apply Hno. clear. induction s1 as [ | a s1 IH ]; simpl.
      * apply list_elem_of_here.
      * by apply list_elem_of_further.
  - rewrite append_String. simpl. by rewrite IH.
Qed.

Lemma ALLOWED_FILE_TYPES_lookup (ty : string) (content_types : gset string) :
  dict_get ALLOWED_FILE_TYPES ty = Some content_types →
  (ty = "pdf" ∧ content_types = {[ "application/pdf" ]})
  ∨ (ty = "csv" ∧ content_types = {[ "text/csv"; "application/csv" ]})
  ∨ (ty = "xlsx"
     ∧ content_types
       = {[ "application/vnd.openxmlformats-officedocument.spreadsheetml.sheet";
            "application/vnd.ms-excel" ]}).
Proof.
  unfold ALLOWED_FILE_TYPES. simpl.
  repeat (destruct (decide _) as [<- | _]; [ intros [= <-]; eauto 10 | ]). done.
Qed.

Lemma allowed_pair_lookup (ty content_type : string) :
  allowed_pair ty content_type
  ↔ ∃ content_types,
      dict_get ALLOWED_FILE_TYPES ty = Some content_types
      ∧ content_type ∈ content_types.
Proof.
  unfold allowed_pair. split.
  - intros [[-> ->] | [[-> [-> | ->]] | [-> [-> | ->]]]];
      eexists; (split; [ reflexivity | ]); set_solver.
  - intros (content_types & Hl & Hin).
    apply ALLOWED_FILE_TYPES_lookup in Hl as [[-> ->] | [[-> ->] | [-> ->]]].
    + apply elem_of_singleton in Hin as ->. by left.
    + apply elem_of_union in Hin as [->%elem_of_singleton | ->%elem_of_singleton];
        right; left; eauto.
    + apply elem_of_union in Hin as [->%elem_of_singleton | ->%elem_of_singleton];
        right; right; eauto.
Qed.

Lemma validate_file_type_inr (filename content_type ty : string) :
  validate_file_type filename content_type = inr ty
  ↔ ∃ ext, rsplit1 "." filename !! 1%nat = Some ext
           ∧ ty = lower ext ∧ allowed_pair ty content_type.
Proof.
  unfold validate_file_type. split.
  - destruct (rsplit1 "." filename !! 1%nat) as [ext | ]; [ | done ].
    destruct (dict_get ALLOWED_FILE_TYPES (lower ext)) as [content_types | ] eqn:Hl;
      [ | done ].
    destruct (decide (content_type ∈ content_types)) as [Hin | ]; [ | done ].
    intros [= <-]. exists ext. split; [ done | ]. split; [ done | ].
    apply allowed_pair_lookup. eauto.
  - intros (ext & -> & -> & (content_types & -> & Hin)%allowed_pair_lookup).
    by rewrite decide_True.
Qed.

Lemma validate_file_type_inl (filename content_type : string) (e : HTTPException) :
  validate_file_type filename content_type = inl e → status_code e = 400.
Proof.
  unfold validate_file_type.
  destruct (rsplit1 "." filename !! 1%nat) as [ext | ]; [ | by intros [= <-] ].
  destruct (dict_get ALLOWED_FILE_TYPES (lower ext)) as [content_types | ];
    [ | by intros [= <-] ].
  destruct (decide (content_type ∈ content_types)); [ done | by intros [= <-] ].
Qed.

(** X9.  [validate_file_type] lets a file through exactly when its name
    ends in a dot and an extension without dot which, in lower case, is
    one of [pdf], [csv] and [xlsx], and the content type is one of those
    listed for it; what it returns is that extension in lower case.
    Every refusal is a 400, and a name without dot is refused as a file
    which must have an extension. *)
Theorem validate_file_type_accepts_iff (filename content_type : string) :
  (∀ ty,
     validate_file_type filename content_type = inr ty
     ↔ ∃ stem ext,
         filename = stem +:+ "." +:+ ext ∧ ("."%char ∉ chars ext)
         ∧ ty = lower ext ∧ allowed_pair ty content_type)
  ∧ (∀ e, validate_file_type filename content_type = inl e → status_code e = 400)
  ∧ ("."%char ∉ chars filename →
     validate_file_type filename content_type
     = inl {| status_code := 400; detail := "File must have an extension" |}).
Proof.
  split; [ | split ].
  - intros ty. rewrite validate_file_type_inr. split.
    + intros (ext & Hsplit & Hty & Hok).
      destruct (rsplit1_cases "." filename) as [[Heq _] | (stem & ext' & Heq & -> & Hno)];
        rewrite Heq in Hsplit; [ done | ].
      injection Hsplit as ->. by exists stem, ext.
    + intros (stem & ext & -> & Hno & Hty & Hok). exists ext.
      change ("." +:+ ext) with (String "." ext).
      by rewrite rsplit1_last.
  - intros e. apply validate_file_type_inl.
  - intros Hno. unfold validate_file_type.
    destruct (rsplit1_cases "." filename) as [[-> _] | (stem & ext & _ & -> & _)];
      [ done | ].
    exfalso. apply Hno. clear. induction stem as [ | a stem IH ]; simpl.
    + apply list_elem_of_here.
    + by apply list_elem_of_further.
Qed.

(** X10.  What [validate_file_type] lets through passes the validators of
    [FileCreate]: the file type returned is one [validate_file_type] of the
    model accepts, and with it among the values validated the content type
    is accepted too.  The subscript in [validate_content_type] finds its
    key whenever the file type among the values has passed the validator
    of the file type. *)
Theorem FileCreate_validators_agree (filename content_type ty : string) :
  (validate_file_type filename content_type = inr ty →
   ApiModels.validate_file_type ty = inr ty
   ∧ ApiModels.validate_content_type content_type {[ "file_type" := ty ]}
     = inr content_type)
  ∧ (∀ v (values : gmap string string),
       values !! "file_type" = Some ty →
       ApiModels.validate_file_type ty = inr ty →
       ∀ key, ApiModels.validate_content_type v values ≠ inl (ApiModels.KeyError key)).
Proof.
  split.
  - intros (ext & _ & _ & (content_types & Hl & Hin)%allowed_pair_lookup)%validate_file_type_inr.
    unfold ApiModels.validate_file_type, ApiModels.validate_content_type.
    rewrite lookup_singleton_eq, Hl. by rewrite decide_True.
  - intros v values Hv. unfold ApiModels.validate_file_type, ApiModels.validate_content_type.
    rewrite Hv. destruct (dict_get ALLOWED_FILE_TYPES ty) as [content_types | ]; [ | done ].
    intros _ key. by destruct (decide (v ∈ content_types)).
Qed.

End Extension.

Section Service.
Import ApiUtils ApiMain.
Context `{Surroundings}.

Lemma validate_file_size_inr (file_size : Z) (file_type : string) (m : Z) :
  validate_file_size format_file_size file_size file_type = inr tt →
  MAX_FILE_SIZES !! file_type = Some m →
  file_size ≤ m.
Proof.
  unfold validate_file_size. intros Hv Hm. rewrite Hm in Hv.
  pose proof (MAX_FILE_SIZES_nonzero _ _ Hm) as Hnz.
  destruct (negb (m =? 0) && (file_size >? m)) eqn:Hc; [ done | ].
  apply andb_false_iff in Hc as [Hc%negb_false_iff | Hc]; lia.
Qed.

Lemma allowed_pair_limit (ty content_type : string) :
  allowed_pair ty content_type → ∃ m, MAX_FILE_SIZES !! ty = Some m.
Proof. intros [[-> _] | [[-> _] | [-> _]]]; by eexists. Qed.

(** What an upload which is accepted has gone through. *)
Lemma upload_file_inr (file : UploadFile.t) (now now' : datetime) (s s' : Server)
    (entry : FileEntry) :
  upload_file file now now' s = (s', inr entry) →
  ∃ ty,
    validate_file_type (UploadFile.filename file) (UploadFile.content_type file) = inr ty
    ∧ open_error (upload_path file now) = None
    ∧ validate_file_size format_file_size
        (Z.of_nat (String.length (UploadFile.read file))) ty = inr tt
    ∧ entry = {| id := Z.of_nat (length (files_db s)) + 1;
                 filename := UploadFile.filename file;
                 file_type := ty;
                 content_type := UploadFile.content_type file;
                 size := Z.of_nat (String.length (UploadFile.read file));
                 size_formatted :=
                   format_file_size (Z.of_nat (String.length (UploadFile.read file)));
                 upload_time := now';
                 status := "uploaded";
                 file_path := upload_path file now;
                 error_message := None |}
    ∧ s' = {| files_db := dict_set (files_db s) (id entry) entry;
              disk := <[upload_path file now := UploadFile.read file]>
                        (<[upload_path file now := ""]> (disk s)) |}.
Proof.
  unfold upload_file. intros Hup.
  destruct (validate_file_type _ _) as [e | ty]; [ done | ].
  destruct (open_error _) as [msg | ]; [ done | ].
  destruct (validate_file_size _ _ _) as [e | []] eqn:Hsize; [ done | ].
  injection Hup as <- <-. exists ty. done.
Qed.

(** X11.  An upload which is accepted is on disk under its path with the
    bytes received, and is recorded under the id [len(files_db) + 1] with
    the status [uploaded]: [get_file] on this id returns the entry which
    [upload_file] returns, and finds under every other id what it found
    before.  The file type recorded is the one [validate_file_type] gives,
    and the size recorded, the number of bytes, is within the maximum of
    this file type. *)
Theorem upload_file_recorded (file : UploadFile.t) (now now' : datetime)
    (s s' : Server) (entry : FileEntry) :
  upload_file file now now' s = (s', inr entry) →
  get_file (id entry) s' = inr entry
  ∧ (∀ j, j ≠ id entry → get_file j s' = get_file j s)
  ∧ id entry = Z.of_nat (length (files_db s)) + 1
  ∧ status entry = "uploaded"
  ∧ filename entry = UploadFile.filename file
  ∧ validate_file_type (UploadFile.filename file) (UploadFile.content_type file)
    = inr (file_type entry)
  ∧ size entry = Z.of_nat (String.length (UploadFile.read file))
  ∧ (∃ m, MAX_FILE_SIZES !! file_type entry = Some m ∧ size entry ≤ m)
  ∧ file_path entry = upload_path file now
  ∧ disk s' !! file_path entry = Some (UploadFile.read file)
  ∧ (∀ p, p ≠ file_path entry → disk s' !! p = disk s !! p).
Proof.
  intros (ty & Hty & Hopen & Hsize & Hentry & ->)%upload_file_inr.
  unfold get_file. simpl. rewrite dict_get_set_eq. split; [ done | ].
  split; [ intros j Hj; by rewrite dict_get_set_ne | ].
  subst entry. simpl. repeat (split; [ done | ]). split.
  - apply validate_file_type_inr in Hty as (ext & _ & _ & Hok).
    destruct (allowed_pair_limit _ _ Hok) as [m Hm]. exists m. split; [ done | ].
    by eapply validate_file_size_inr.
  - split; [ done | ]. split; [ apply lookup_insert_eq | ].
    intros p Hp. by rewrite !lookup_insert_ne.
Qed.

(** X12.  An upload which is refused leaves [files_db] as it was.  The
    refusal is a 400 or a 500, and the disk holds what it held, but for
    the path of the upload, where an empty file may stand: the size is
    checked after the file has been opened for writing. *)
Theorem upload_file_refused (file : UploadFile.t) (now now' : datetime)
    (s s' : Server) (e : HTTPException) :
  upload_file file now now' s = (s', inl e) →
  files_db s' = files_db s
  ∧ (status_code e = 400 ∨ status_code e = 500)
  ∧ (∀ p, p ≠ upload_path file now → disk s' !! p = disk s !! p)
  ∧ (disk s' !! upload_path file now = disk s !! upload_path file now
     ∨ disk s' !! upload_path file now = Some "").
Proof.
  unfold upload_file.
  destruct (validate_file_type _ _) as [e0 | ty] eqn:Hty.
  { intros [= <- <-]. split; [ done | ]. split; [ | by split; [ | left ] ].
    left. by eapply validate_file_type_inl. }
  destruct (open_error _) as [msg | ].
  { intros [= <- <-]. split; [ done | ]. split; [ by right | by split; [ | left ] ]. }
  destruct (validate_file_size _ _ _) as [e0 | []] eqn:Hsize; [ | done ].
  intros [= <- <-]. simpl. split; [ done | ]. split.
  - left. unfold validate_file_size in Hsize.
    destruct (MAX_FILE_SIZES !! ty) as [m | ]; [ | done ].
    destruct (negb (m =? 0) && _); [ | done ]. by injection Hsize as <-.
  - split; [ intros p Hp; by rewrite lookup_insert_ne | ].
    right. apply lookup_insert_eq.
Qed.

(** X13.  An upload of an accepted type whose bytes are more than the
    maximum of this type is refused with a 400 and not recorded, and the
    file opened for it stays on disk, empty: also where no file stood
    before. *)
Theorem oversized_upload_leaves_empty_file (file : UploadFile.t) (now now' : datetime)
    (s : Server) (ty : string) (m : Z) :
  validate_file_type (UploadFile.filename file) (UploadFile.content_type file) = inr ty →
  open_error (upload_path file now) = None →
  MAX_FILE_SIZES !! ty = Some m →
  m < Z.of_nat (String.length (UploadFile.read file)) →
  ∃ e,
    upload_file file now now' s
    = ({| files_db := files_db s;
          disk := <[upload_path file now := ""]> (disk s) |}, inl e)
    ∧ status_code e = 400.
Proof.
  intros Hty Hopen Hm Hlt. unfold upload_file. rewrite Hty, Hopen.
  unfold validate_file_size. rewrite Hm.
  pose proof (MAX_FILE_SIZES_nonzero _ _ Hm) as Hnz.
  assert (negb (m =? 0) && (Z.of_nat (String.length (UploadFile.read file)) >? m) = true)
    as ->.
  { apply andb_true_iff. split; [ apply negb_true_iff | ]; lia. }
  by eexists.
Qed.

Lemma dense_get_None (db : list (Z * FileEntry)) :
  dense db → dict_get db (Z.of_nat (length db) + 1) = None.
Proof.
  unfold dense. intros Hd. apply dict_get_None. rewrite Hd.
  intros (i & Heq & Hin%elem_of_seq)%list_elem_of_fmap. lia.
Qed.

Lemma dense_NoDup (db : list (Z * FileEntry)) : dense db → NoDup (dict_keys db).
Proof.
  unfold dense. intros ->. apply NoDup_fmap_2; [ | apply NoDup_seq ].
  intros ? ? ?. lia.
Qed.

Lemma dense_get_Some (db : list (Z * FileEntry)) (k : Z) :
  dense db → 1 ≤ k ≤ Z.of_nat (length db) → is_Some (dict_get db k).
Proof.
  intros Hd Hk. destruct (dict_get db k) eqn:Hg; [ by eexists | ].
  exfalso. apply dict_get_None in Hg. apply Hg. rewrite Hd.
  apply list_elem_of_fmap. exists (Z.to_nat k). split; [ lia | ].
  apply elem_of_seq. lia.
Qed.

Lemma upload_file_dense (file : UploadFile.t) (now now' : datetime)
    (s s' : Server) (entry : FileEntry) :
  dense (files_db s) →
  upload_file file now now' s = (s', inr entry) →
  dict_get (files_db s) (id entry) = None
  ∧ files_db s' = files_db s ++ [(id entry, entry)]
  ∧ dense (files_db s').
Proof.
  intros Hd (ty & _ & _ & _ & Hentry & ->)%upload_file_inr.
  assert (id entry = Z.of_nat (length (files_db s)) + 1) as Hid by (by subst entry).
  pose proof (dense_get_None _ Hd) as Hnone. rewrite <- Hid in Hnone.
  simpl. rewrite (dict_set_new _ _ _ Hnone). split; [ done | ]. split; [ done | ].
  unfold dense in *. unfold dict_keys in *.
  rewrite map_app, length_app, Hd. simpl.
  rewrite Nat.add_1_r, seq_S, map_app. simpl. do 2 f_equal. lia.
Qed.

(** X14.  As long as no entry has been deleted, so that the ids are [1] to
    [len(files_db)], an upload which is accepted adds its entry at the
    end, under an id which no entry has; the entries there were are
    untouched, [list_files] lists them as before, followed by the new one,
    and the ids are again [1] to [len(files_db)]. *)
Theorem upload_file_fresh_id (file : UploadFile.t) (now now' : datetime)
    (s s' : Server) (entry : FileEntry) :
  dense (files_db s) →
  upload_file file now now' s = (s', inr entry) →
  get_file (id entry) s = inl (not_found (id entry))
  ∧ files_db s' = files_db s ++ [(id entry, entry)]
  ∧ list_files s' = list_files s ++ [entry]
  ∧ dense (files_db s').
Proof.
  intros Hd Hup.
  destruct (upload_file_dense file now now' s s' entry Hd Hup) as (Hnone & Hdb & Hd').
  unfold get_file, list_files. rewrite Hnone, Hdb.
  split; [ done | ]. split; [ done | ].
  split; [ unfold dict_values; by rewrite map_app | ]. by rewrite <- Hdb.
Qed.



(** What a deletion which goes through has done. *)
Lemma delete_file_inr (file_id : Z) (s s' : Server) (r : deleted) :
  delete_file file_id s = (s', inr r) →
  ∃ file_info,
    dict_get (files_db s) file_id = Some file_info
    ∧ files_db s' = dict_del (files_db s) file_id
    ∧ (disk s' = disk s
       ∧ (file_path file_info = "" ∨ disk s !! file_path file_info = None)
       ∨ disk s' = delete (file_path file_info) (disk s)
         ∧ file_path file_info ≠ ""
         ∧ remove_error (file_path file_info) = None).
Proof.
  unfold delete_file. intros Hdel.
  destruct (dict_get (files_db s) file_id) as [file_info | ]; [ | done ].
  exists file_info. split; [ done | ].
  destruct (String.eqb (file_path file_info) "") eqn:Hempty.
  { apply String.eqb_eq in Hempty. injection Hdel as <- _. simpl. split; [ done | ].
    left. split; [ done | by left ]. }
  apply String.eqb_neq in Hempty.
  destruct (disk s !! file_path file_info) as [content | ] eqn:Hdisk.
  - destruct (remove_error (file_path file_info)) eqn:Hrm; [ done | ].
    injection Hdel as <- _. simpl. split; [ done | ]. by right.
  - injection Hdel as <- _. simpl. split; [ done | ]. left. split; [ done | by right ].
Qed.

(** X15.  After a deletion which goes through, [get_file] finds no entry
    under the id deleted and, under every other id, what it found before;
    the file of the entry is not on disk, and every other file is as it
    was. *)
Theorem delete_file_removes (file_id : Z) (s s' : Server) (r : deleted) :
  delete_file file_id s = (s', inr r) →
  get_file file_id s' = inl (not_found file_id)
  ∧ (∀ j, j ≠ file_id → get_file j s' = get_file j s)
  ∧ ∃ file_info,
      get_file file_id s = inr file_info
      ∧ (file_path file_info ≠ "" → disk s' !! file_path file_info = None)
      ∧ (∀ p, p ≠ file_path file_info → disk s' !! p = disk s !! p).
Proof.
  intros (file_info & Hget & Hdb & Hdisk)%delete_file_inr.
  unfold get_file. rewrite Hdb, dict_get_del_eq. split; [ done | ].
  split; [ intros j Hj; by rewrite dict_get_del_ne | ].
  exists file_info. rewrite Hget. split; [ done | ].
  destruct Hdisk as [[-> [Hempty | Hnone]] | (-> & Hne & _)].
  - split; [ done | done ].
  - split; [ done | done ].
  - split; [ intros _; apply lookup_delete_eq | ].
    intros p Hp. by rewrite lookup_delete_ne.
Qed.

(** X16.  A deletion which fails changes nothing: neither [files_db] nor
    the disk.  It fails with a 404 when the id has no entry, and with a
    500 when the file of the entry is on disk and cannot be removed: the
    entry stays then. *)
Theorem delete_file_failure (file_id : Z) (s s' : Server) (e : HTTPException) :
  delete_file file_id s = (s', inl e) →
  s' = s
  ∧ (status_code e = 404 ∧ get_file file_id s = inl e
     ∨ status_code e = 500
       ∧ ∃ file_info content,
           get_file file_id s = inr file_info
           ∧ disk s !! file_path file_info = Some content
           ∧ is_Some (remove_error (file_path file_info))).
Proof.
  unfold delete_file, get_file.
  destruct (dict_get (files_db s) file_id) as [file_info | ].
  - destruct (String.eqb (file_path file_info) ""); [ done | ].
    destruct (disk s !! file_path file_info) as [content | ] eqn:Hdisk; [ | done ].
    destruct (remove_error (file_path file_info)) as [msg | ] eqn:Hrm; [ | done ].
    intros [= <- <-]. split; [ done | ]. right. split; [ done | ].
    exists file_info, content. by rewrite Hrm.
  - intros [= <- <-]. split; [ done | ]. by left.
Qed.

(** X17.  The id of an upload is [len(files_db) + 1], also after a
    deletion: when the ids are [1] to [n] and an entry other than the last
    is deleted, the next upload which is accepted gets the id [n], which
    the last entry has, and takes its place: [files_db] holds [n - 1]
    entries after it, as before. *)
Theorem upload_after_delete_reuses_id (file : UploadFile.t) (now now' : datetime)
    (file_id : Z) (s s1 s2 : Server) (r : deleted) (entry : FileEntry) :
  dense (files_db s) →
  1 ≤ file_id < Z.of_nat (length (files_db s)) →
  delete_file file_id s = (s1, inr r) →
  upload_file file now now' s1 = (s2, inr entry) →
  id entry = Z.of_nat (length (files_db s))
  ∧ (∃ last_entry, get_file (id entry) s1 = inr last_entry)
  ∧ get_file (id entry) s2 = inr entry
  ∧ length (files_db s2) = length (files_db s1)
  ∧ S (length (files_db s2)) = length (files_db s).
Proof.
  intros Hd Hk (file_info & Hget & Hdb & _)%delete_file_inr
    (ty & _ & _ & _ & Hentry & ->)%upload_file_inr.
  assert (S (length (files_db s1)) = length (files_db s)) as Hlen.
  { rewrite Hdb. apply dict_del_length; [ by apply dense_NoDup | by rewrite Hget ]. }
  assert (id entry = Z.of_nat (length (files_db s))) as Hid.
  { subst entry. simpl. lia. }
  assert (is_Some (dict_get (files_db s1) (id entry))) as [last_entry Hlast].
  { rewrite Hdb, dict_get_del_ne by lia. apply dense_get_Some; [ done | lia ]. }
  split; [ done | ]. unfold get_file. simpl. rewrite Hlast, dict_get_set_eq.
  split; [ by eexists | ]. split; [ done | ].
  rewrite dict_set_length by (by rewrite Hlast). done.
Qed.

End Service.

Section Same_second.
Import ApiUtils ApiMain.
Context `{Surroundings}.


End Same_second.

(* ===================================================================== *)
(** * The properties of the upload service on the stand-ins               *)
(* ===================================================================== *)

Lemma upload_file_recorded_witness :
  let s := ApiMain.started (H := Demo.surroundings) ∅ in
  let s' := (ApiMain.upload_file (H := Demo.surroundings) Demo.report_upload
               "20240501_120000" "20240501_120000" s).1 in
  let entry := Demo.report_entry 1 "20240501_120000" in
  ApiMain.get_file (ApiMain.id entry) s' = inr entry
  ∧ (∀ j, j ≠ ApiMain.id entry → ApiMain.get_file j s' = ApiMain.get_file j s)
  ∧ ApiMain.id entry = Z.of_nat (length (ApiMain.files_db s)) + 1
  ∧ ApiMain.status entry = "uploaded"
  ∧ ApiMain.filename entry = ApiMain.UploadFile.filename Demo.report_upload
  ∧ ApiUtils.validate_file_type (ApiMain.UploadFile.filename Demo.report_upload)
      (ApiMain.UploadFile.content_type Demo.report_upload)
    = inr (ApiMain.file_type entry)
  ∧ ApiMain.size entry
    = Z.of_nat (String.length (ApiMain.UploadFile.read Demo.report_upload))
  ∧ (∃ m, ApiUtils.MAX_FILE_SIZES !! ApiMain.file_type entry = Some m
          ∧ ApiMain.size entry ≤ m)
  ∧ ApiMain.file_path entry = ApiMain.upload_path (H := Demo.surroundings) Demo.report_upload "20240501_120000"
  ∧ ApiMain.disk s' !! ApiMain.file_path entry
    = Some (ApiMain.UploadFile.read Demo.report_upload)
  ∧ (∀ p, p ≠ ApiMain.file_path entry → ApiMain.disk s' !! p = ApiMain.disk s !! p).
Proof.
  intros s s' entry.
  apply (upload_file_recorded (H := Demo.surroundings) Demo.report_upload
           "20240501_120000" "20240501_120000" s s' entry).
  vm_compute. reflexivity.
Defined.

Lemma upload_file_refused_witness :
  let s := Demo.two_uploads in
  let e := {| ApiUtils.status_code := 400;
              ApiUtils.detail :=
                "File type '.sh' not allowed. Allowed types: ['pdf', 'csv', 'xlsx']" |} in
  let path := ApiMain.upload_path (H := Demo.surroundings) Demo.script_upload "20240501_121000" in
  ApiMain.files_db s = ApiMain.files_db s
  ∧ (ApiUtils.status_code e = 400 ∨ ApiUtils.status_code e = 500)
  ∧ (∀ p, p ≠ path → ApiMain.disk s !! p = ApiMain.disk s !! p)
  ∧ (ApiMain.disk s !! path = ApiMain.disk s !! path
     ∨ ApiMain.disk s !! path = Some "").
Proof.
  intros s e path.
  apply (upload_file_refused (H := Demo.surroundings) Demo.script_upload
           "20240501_121000" "20240501_121000" s s e).
  vm_compute. reflexivity.
Defined.

Lemma oversized_upload_leaves_empty_file_witness :
  ∃ e,
    ApiMain.upload_file (H := Demo.surroundings) Demo.huge_csv "20240501_121000" "20240501_121000"
      (ApiMain.started (H := Demo.surroundings) ∅)
    = ({| ApiMain.files_db := ApiMain.files_db (ApiMain.started (H := Demo.surroundings) ∅);
          ApiMain.disk :=
            <[ApiMain.upload_path (H := Demo.surroundings) Demo.huge_csv "20240501_121000" := ""]>
              (ApiMain.disk (ApiMain.started (H := Demo.surroundings) ∅)) |}, inl e)
    ∧ ApiUtils.status_code e = 400.
Proof.
  apply (oversized_upload_leaves_empty_file (H := Demo.surroundings) Demo.huge_csv
           "20240501_121000" "20240501_121000" (ApiMain.started (H := Demo.surroundings) ∅) "csv"
           (10 * 1024 * 1024)).
  - reflexivity.
  - reflexivity.
  - reflexivity.
  - change (ApiMain.UploadFile.read Demo.huge_csv)
      with (str (repeat "x"%char (Z.to_nat (10 * 1024 * 1024 + 1)))).
    unfold str. rewrite <- length_chars. unfold chars.
    rewrite list_ascii_of_string_of_list_ascii, repeat_length. lia.
Defined.

Lemma upload_file_fresh_id_witness :
  let s := Demo.two_uploads in
  let s' := (ApiMain.upload_file (H := Demo.surroundings) Demo.report_upload
               "20240501_121000" "20240501_121000" s).1 in
  let entry := Demo.report_entry 3 "20240501_121000" in
  ApiMain.get_file (ApiMain.id entry) s = inl (ApiMain.not_found (ApiMain.id entry))
  ∧ ApiMain.files_db s' = ApiMain.files_db s ++ [(ApiMain.id entry, entry)]
  ∧ ApiMain.list_files s' = ApiMain.list_files s ++ [entry]
  ∧ ApiMain.dense (ApiMain.files_db s').
Proof.
  intros s s' entry.
  apply (upload_file_fresh_id (H := Demo.surroundings) Demo.report_upload
           "20240501_121000" "20240501_121000" s s' entry).
  - vm_compute. reflexivity.
  - vm_compute. reflexivity.
Defined.

Lemma delete_file_removes_witness :
  let s := Demo.two_uploads in
  let s' := (ApiMain.delete_file 1 s).1 in
  ApiMain.get_file 1 s' = inl (ApiMain.not_found 1)
  ∧ (∀ j, j ≠ 1 → ApiMain.get_file j s' = ApiMain.get_file j s)
  ∧ ∃ file_info,
      ApiMain.get_file 1 s = inr file_info
      ∧ (ApiMain.file_path file_info ≠ "" →
         ApiMain.disk s' !! ApiMain.file_path file_info = None)
      ∧ (∀ p, p ≠ ApiMain.file_path file_info →
              ApiMain.disk s' !! p = ApiMain.disk s !! p).
Proof.
  intros s s'.
  apply (delete_file_removes (H := Demo.surroundings) 1 s s'
           (ApiMain.file_deleted "File 1 deleted successfully" "Report.PDF" "8 B")).
  vm_compute. reflexivity.
Defined.

Lemma delete_file_failure_witness :
  let s := Demo.two_uploads in
  let e := ApiMain.not_found 7 in
  s = s
  ∧ (ApiUtils.status_code e = 404 ∧ ApiMain.get_file 7 s = inl e
     ∨ ApiUtils.status_code e = 500
       ∧ ∃ (file_info : ApiMain.FileEntry (H := Demo.surroundings)) content,
           ApiMain.get_file 7 s = inr file_info
           ∧ ApiMain.disk s !! ApiMain.file_path file_info = Some content
           ∧ is_Some (ApiMain.remove_error (Surroundings := Demo.surroundings)
                        (ApiMain.file_path file_info))).
Proof.
  intros s e.
  apply (delete_file_failure (H := Demo.surroundings) 7 s s e).
  vm_compute. reflexivity.
Defined.

Lemma upload_after_delete_reuses_id_witness :
  let s := Demo.two_uploads in
  let s1 := (ApiMain.delete_file 1 s).1 in
  let s2 := (ApiMain.upload_file (H := Demo.surroundings) Demo.report_upload
               "20240501_121000" "20240501_121000" s1).1 in
  let entry := Demo.report_entry 2 "20240501_121000" in
  ApiMain.id entry = Z.of_nat (length (ApiMain.files_db s))
  ∧ (∃ last_entry, ApiMain.get_file (ApiMain.id entry) s1 = inr last_entry)
  ∧ ApiMain.get_file (ApiMain.id entry) s2 = inr entry
  ∧ length (ApiMain.files_db s2) = length (ApiMain.files_db s1)
  ∧ S (length (ApiMain.files_db s2)) = length (ApiMain.files_db s).
Proof.
  intros s s1 s2 entry.
  apply (upload_after_delete_reuses_id (H := Demo.surroundings) Demo.report_upload
           "20240501_121000" "20240501_121000" 1 s s1 s2
           (ApiMain.file_deleted "File 1 deleted successfully" "Report.PDF" "8 B")
           entry).
  - vm_compute. reflexivity.
  - vm_compute. split; [ discriminate | reflexivity ].
  - vm_compute. reflexivity.
  - vm_compute. reflexivity.
Defined.


(** The scenarios of [api/test_main.py], one after the other on a service
    which has just started: the health check, the empty list, an upload,
    an upload read back by its id, an upload deleted by its id. *)
Example test_main_scenarios :
  let upload name s :=
    ApiMain.upload_file (H := Demo.surroundings) (Demo.test_file name)
      "20240501_120000" "20240501_120000" s in
  let s := ApiMain.started (H := Demo.surroundings) ∅ in
  let first := upload "test_file.pdf" s in
  let second := upload "test_file_2.pdf" first.1 in
  let third := upload "test_file_3.pdf" second.1 in
  ApiMain.health_check = [("status", "healthy")]
  ∧ ApiMain.list_files s = []
  ∧ match first.2 with
    | inr uploaded_file =>
        ApiMain.filename uploaded_file = "test_file.pdf"
        ∧ ApiMain.file_type uploaded_file = "pdf"
    | inl _ => False
    end
  ∧ match second.2 with
    | inr uploaded_file =>
        match ApiMain.get_file (ApiMain.id uploaded_file) second.1 with
        | inr retrieved_file => ApiMain.filename retrieved_file = "test_file_2.pdf"
        | inl _ => False
        end
    | inl _ => False
    end
  ∧ match third.2 with
    | inr uploaded_file =>
        match (ApiMain.delete_file (ApiMain.id uploaded_file) third.1).2 with
        | inr (ApiMain.file_deleted message _ _) =>
            message = "File " +:+ str_int (ApiMain.id uploaded_file)
                      +:+ " deleted successfully"
        | _ => False
        end
    | inl _ => False
    end.
Proof. vm_compute. repeat split. Qed.

(* ===================================================================== *)
(** * What every chunk is                                                 *)
(* ===================================================================== *)

Section Strip.

Lemma lstrip_suffix (l : list ascii) : ∃ w, l = w ++ lstrip l.
Proof.
  induction l as [ | c l [w IH] ]; [ by exists [] | ]. simpl.
  destruct (isspace c); [ | by exists [] ]. exists (c :: w). simpl. by rewrite <- IH.
Qed.

Lemma rstrip_prefix (l : list ascii) : ∃ w, l = rstrip l ++ w.
Proof.
  unfold rstrip. destruct (lstrip_suffix (rev l)) as [w Hw]. exists (rev w).
  rewrite <- rev_app_distr, <- Hw. by rewrite rev_involutive.
Qed.

Lemma strip_passage (l : list ascii) : passage (strip l) l.
Proof.
  unfold strip. destruct (lstrip_suffix l) as [w1 H1].
  destruct (rstrip_prefix (lstrip l)) as [w2 H2].
  exists w1, w2. by rewrite <- H2.
Qed.

Lemma passage_len (x s : list ascii) :
  passage x s → TextSplitter.len x ≤ TextSplitter.len s.
Proof. intros (l & r & ->). unfold TextSplitter.len. rewrite !length_app. lia. Qed.

Lemma passage_refl (s : list ascii) : passage s s.
Proof. exists [], []. by rewrite app_nil_r. Qed.

Lemma passage_trans (x y z : list ascii) : passage x y → passage y z → passage x z.
Proof.
  intros (l1 & r1 & ->) (l2 & r2 & ->). exists (l2 ++ l1), (r1 ++ r2).
  by rewrite <- !app_assoc.
Qed.

Lemma passage_concat (pre g post : list (list ascii)) :
  passage (concat g) (concat (pre ++ g ++ post)).
Proof. exists (concat pre), (concat post). by rewrite !concat_app. Qed.

Lemma passage_elem (d : list ascii) (pieces : list (list ascii)) :
  d ∈ pieces → passage d (concat pieces).
Proof.
  intros (l1 & l2 & ->)%list_elem_of_split.
  exists (concat l1), (concat l2). by rewrite concat_app.
Qed.

Lemma passage_elem_of (x s : list ascii) (c : ascii) : passage x s → c ∈ x → c ∈ s.
Proof. intros (l & r & ->) Hc. rewrite !elem_of_app. auto. Qed.

Lemma lstrip_head (l : list ascii) (c : ascii) (l' : list ascii) :
  lstrip l = c :: l' → isspace c = false.
Proof.
  induction l as [ | a l IH ]; simpl; [ done | ].
  destruct (isspace a) eqn:Ha; [ done | ]. by intros [= <- _].
Qed.

Lemma lstrip_snoc (a : list ascii) (c : ascii) :
  isspace c = false → ∃ u, lstrip (a ++ [c]) = u ++ [c].
Proof.
  intros Hc. induction a as [ | b a [u IH] ]; simpl.
  - rewrite Hc. by exists [].
  - destruct (isspace b); [ by exists u | ]. by exists (b :: a).
Qed.

Lemma lstrip_idemp (l : list ascii) : lstrip (lstrip l) = lstrip l.
Proof.
  destruct (lstrip l) as [ | c l' ] eqn:Hl; [ done | ].
  simpl. by rewrite (lstrip_head _ _ _ Hl).
Qed.

(** Nothing is left to strip from a text which has been stripped. *)
Lemma strip_idemp (l : list ascii) : strip (strip l) = strip l.
Proof.
  unfold strip. destruct (lstrip l) as [ | c z ] eqn:Hz; [ done | ].
  pose proof (lstrip_head _ _ _ Hz) as Hc.
  assert (lstrip (rstrip (c :: z)) = rstrip (c :: z)) as ->.
  { unfold rstrip. simpl. destruct (lstrip_snoc (rev z) c Hc) as [u ->].
    rewrite rev_app_distr. simpl. by rewrite Hc. }
  unfold rstrip. by rewrite rev_involutive, lstrip_idemp.
Qed.

Lemma strip_whitespace (l : list ascii) :
  Forall (λ c, isspace c = true) l → strip l = [].
Proof.
  intros Hl. assert (lstrip l = []) as Hnil.
  { induction Hl as [ | c l Hc _ IH ]; simpl; [ done | by rewrite Hc ]. }
  unfold strip. by rewrite Hnil.
Qed.

Lemma str_app (a b : list ascii) : str (a ++ b) = str a +:+ str b.
Proof. induction a as [ | c a IH ]; simpl; [ done | by rewrite IH ]. Qed.

End Strip.

Section Chunks.
Import TextSplitter.
Variable self : TextSplitter.t.

(** The [while] loop of [_merge_splits] without separator keeps the end
    of [current_doc], with its length as [total], and stops when the next
    split fits or nothing is left. *)
Lemma pop_front_spec (_len : Z) (cur : list (list ascii)) :
  ∀ total,
    total = len (concat cur) →
    ∃ dropped,
      cur = dropped ++ (pop_front self [] _len cur total).1
      ∧ (pop_front self [] _len cur total).2
        = len (concat (pop_front self [] _len cur total).1)
      ∧ ((pop_front self [] _len cur total).2 + _len ≤ _chunk_size self
         ∨ (pop_front self [] _len cur total).2 = 0).
Proof.
  induction cur as [ | d0 rest IH ]; intros total Htotal.
  - exists []. simpl. split; [ done | ]. split; [ done | by right ].
  - cbn [pop_front].
    destruct ((total >? _chunk_overlap self)
              || (overflows self [] total _len (d0 :: rest) && (total >? 0))) eqn:Hcond.
    + destruct (IH (total - (len d0 + (if 1 <? Z.of_nat (length (d0 :: rest))
                                       then separator_len [] else 0))))
        as (dropped & Hcur & Htot & Hfit).
      { rewrite Htotal, len_concat_cons. unfold separator_len. change (len []) with 0.
        destruct (1 <? _); lia. }
      exists (d0 :: dropped). split; [ | done ]. rewrite <- app_comm_cons. by f_equal.
    + exists []. simpl. split; [ done | ]. split; [ done | ].
      apply orb_false_iff in Hcond as [_ Hcond].
      apply andb_false_iff in Hcond as [Hcond | Hcond].
      * left. unfold overflows, separator_len in Hcond. change (len []) with 0 in Hcond.
        simpl in Hcond. lia.
      * right. pose proof (len_nonneg (concat (d0 :: rest))). lia.
Qed.

Section merged.
Variable Q : list ascii → Prop.
Variable g : list (list ascii).
Hypothesis run_Q :
  ∀ pre cur post x,
    g = pre ++ cur ++ post →
    len (concat cur) ≤ _chunk_size self →
    _join_docs cur [] = Some x →
    Q x.

Lemma merge_step_run (st : merge_state) (d : list ascii)
    (pre rest : list (list ascii)) :
  g = pre ++ current_doc st ++ d :: rest →
  len d < _chunk_size self →
  total st = len (concat (current_doc st)) →
  total st ≤ _chunk_size self →
  Forall Q (docs st) →
  ∃ pre1,
    g = pre1 ++ current_doc (merge_step self [] st d) ++ rest
    ∧ total (merge_step self [] st d)
      = len (concat (current_doc (merge_step self [] st d)))
    ∧ total (merge_step self [] st d) ≤ _chunk_size self
    ∧ Forall Q (docs (merge_step self [] st d)).
Proof.
  intros Hg Hd Htotal Hfit Hdocs. unfold merge_step.
  assert (∀ cd, (if 1 <? Z.of_nat (length (cd ++ [d])) then separator_len [] else 0) = 0)
    as Hsep.
  { intros cd. unfold separator_len. change (len []) with 0. by destruct (1 <? _). }
  destruct (overflows self [] (total st) (len d) (current_doc st)) eqn:Hover.
  - destruct (current_doc st) as [ | d0 cur ] eqn:Hcur.
    + exfalso. unfold overflows, separator_len in Hover. simpl in Hover.
      rewrite Htotal in Hover. change (len (concat [])) with 0 in Hover. lia.
    + destruct (pop_front_spec (len d) (d0 :: cur) (total st) Htotal)
        as (dropped & Hdrop & Htot & Hroom).
      destruct (pop_front self [] (len d) (d0 :: cur) (total st)) as [cd tot].
      simpl in Hdrop, Htot, Hroom. cbn [docs current_doc total].
      rewrite Hsep. exists (pre ++ dropped). split.
      { rewrite Hg, Hdrop. by rewrite <- !app_assoc. }
      split; [ rewrite concat_snoc, len_app; lia | ].
      split; [ lia | ].
      apply Forall_app. split; [ done | ].
      destruct (_join_docs (d0 :: cur) []) as [x | ] eqn:Hjoin; [ | constructor ].
      repeat constructor. eapply (run_Q pre (d0 :: cur) (d :: rest)); [ done | | done ].
      by rewrite <- Htotal.
  - cbn [docs current_doc total]. rewrite Hsep. exists pre.
    split; [ by rewrite Hg, <- !app_assoc | ].
    unfold overflows, separator_len in Hover. change (len []) with 0 in Hover.
    split; [ rewrite concat_snoc, len_app; lia | ].
    split; [ | done ]. destruct (0 <? _); lia.
Qed.

Lemma merge_fold_run (rest : list (list ascii)) :
  ∀ (st : merge_state) (pre : list (list ascii)),
    g = pre ++ current_doc st ++ rest →
    Forall (λ p, len p < _chunk_size self) rest →
    total st = len (concat (current_doc st)) →
    total st ≤ _chunk_size self →
    Forall Q (docs st) →
    Forall Q (docs (foldl (merge_step self []) st rest)
              ++ option_list
                   (_join_docs (current_doc (foldl (merge_step self []) st rest)) [])).
Proof.
  induction rest as [ | d rest IH ]; intros st pre Hg Hsmall Htotal Hfit Hdocs.
  - simpl. apply Forall_app. split; [ done | ].
    destruct (_join_docs (current_doc st) []) as [x | ] eqn:Hjoin; [ | constructor ].
    repeat constructor. eapply (run_Q pre (current_doc st) []); [ done | | done ].
    by rewrite <- Htotal.
  - apply Forall_cons in Hsmall as [Hd Hsmall]. cbn [foldl].
    destruct (merge_step_run st d pre rest Hg Hd Htotal Hfit Hdocs)
      as (pre1 & Hg1 & Htotal1 & Hfit1 & Hdocs1).
    by eapply IH.
Qed.

End merged.

(** Every chunk which [_merge_splits] makes of splits below the chunk
    size comes from splits in a row which together fit the chunk size. *)
Lemma merge_splits_run (Q : list ascii → Prop) (g : list (list ascii)) :
  (∀ pre cur post x,
      g = pre ++ cur ++ post →
      len (concat cur) ≤ _chunk_size self →
      _join_docs cur [] = Some x →
      Q x) →
  Forall (λ p, len p < _chunk_size self) g →
  Forall Q (_merge_splits self [] g).
Proof.
  intros HQ Hsmall. unfold _merge_splits.
  destruct g as [ | d g' ] eqn:Hg.
  - simpl. constructor.
  - assert (0 ≤ _chunk_size self) as Hsize.
    { apply Forall_cons in Hsmall as [Hd _]. pose proof (len_nonneg d). lia. }
    rewrite <- Hg in *. by apply (merge_fold_run Q g HQ g _ []).
Qed.

Section looped.
Variable Q : list ascii → Prop.
Variable recurse : option (list ascii → list (list ascii)).
Variable pieces : list (list ascii).
Hypothesis run_Q :
  ∀ pre cur post x,
    pieces = pre ++ cur ++ post →
    len (concat cur) ≤ _chunk_size self →
    _join_docs cur [] = Some x →
    Q x.
Hypothesis whole_Q :
  ∀ d, d ∈ pieces → _chunk_size self ≤ len d →
       match recurse with
       | None => Q d
       | Some f => Forall Q (f d)
       end.

Lemma flush_run (st : loop_state) (pre post : list (list ascii)) :
  pieces = pre ++ _good_splits st ++ post →
  Forall (λ p, len p < _chunk_size self) (_good_splits st) →
  Forall Q (final_chunks st) →
  Forall Q (final_chunks (flush self st)) ∧ _good_splits (flush self st) = [].
Proof.
  intros Hp Hsmall Hfinal. unfold flush.
  destruct (_good_splits st) as [ | d good ] eqn:Hgood; [ done | ].
  cbn [final_chunks _good_splits]. split; [ | done ].
  apply Forall_app. split; [ done | ].
  apply merge_splits_run; [ | done ].
  intros pre1 cur post1 x Hrun Hfit Hjoin.
  eapply (run_Q (pre ++ pre1) cur (post1 ++ post)); [ | done | done ].
  rewrite Hp, Hrun. by rewrite <- !app_assoc.
Qed.

Lemma loop_fold_run (rest : list (list ascii)) :
  ∀ (st : loop_state) (pre : list (list ascii)),
    pieces = pre ++ _good_splits st ++ rest →
    Forall (λ p, len p < _chunk_size self) (_good_splits st) →
    Forall Q (final_chunks st) →
    Forall Q (final_chunks (flush self (foldl (loop_step self recurse) st rest))).
Proof.
  induction rest as [ | d rest IH ]; intros st pre Hp Hsmall Hfinal.
  - simpl. by eapply flush_run.
  - cbn [foldl]. unfold loop_step at 2.
    destruct (len d <? _chunk_size self) eqn:Hd.
    + apply (IH _ pre); cbn [final_chunks _good_splits].
      * by rewrite Hp, <- !app_assoc.
      * apply Forall_app. split; [ done | ]. repeat constructor. lia.
      * done.
    + destruct (flush_run st pre (d :: rest) Hp Hsmall Hfinal) as [Hflushed _].
      assert (d ∈ pieces) as Hin.
      { rewrite Hp, !elem_of_app. right. right. left. }
      specialize (whole_Q d Hin ltac:(lia)).
      destruct recurse as [f | ];
        apply (IH _ (pre ++ _good_splits st ++ [d])); cbn [final_chunks _good_splits];
        try (by rewrite Hp, <- !app_assoc); try done;
        apply Forall_app; (split; [ done | ]); [ done | by repeat constructor ].
Qed.

Lemma split_loop_run : Forall Q (split_loop self recurse pieces).
Proof.
  unfold split_loop. by apply (loop_fold_run pieces _ []).
Qed.

End looped.

(** The chunks of a text, by what holds of the texts stripped from splits
    in a row which fit the chunk size. *)
Lemma _split_text_run (P : list ascii → list ascii → Prop) :
  (∀ s cur x,
      passage (concat cur) s →
      len (concat cur) ≤ _chunk_size self →
      _join_docs cur [] = Some x →
      P s x) →
  (∀ s d x, passage d s → P d x → P s x) →
  (∀ s c, passage [c] s → _chunk_size self ≤ 1 → P s [c]) →
  ∀ separators s,
    last separators = Some [] →
    Forall (P s) (_split_text self separators s).
Proof.
  intros Hrun Hsub Hone.
  induction separators as [ | sep rest IH ]; intros s Hlast; [ done | ].
  cbn [_split_text]. destruct sep as [ | a sep' ].
  - apply split_loop_run.
    + intros pre cur post x Hp Hfit Hjoin. apply (Hrun s cur x); [ | done | done ].
      rewrite <- (split_chars_concat s), Hp. apply passage_concat.
    + intros d Hin Hbig. rewrite split_chars in Hin.
      apply list_elem_of_fmap in Hin as (c & -> & Hc).
      apply Hone; [ | done ].
      rewrite <- (concat_singletons s) at 1. apply passage_elem.
      apply list_elem_of_fmap. by exists c.
  - assert (rest ≠ [] ∧ last rest = Some []) as [Hrest Hlast'].
    { destruct rest as [ | r rest' ]; [ simpl in Hlast; congruence | ].
      split; [ done | ]. by rewrite last_cons_cons in Hlast. }
    destruct (contains (a :: sep') s).
    + rewrite (list_case_nonempty rest _ _ Hrest).
      apply split_loop_run.
      * intros pre cur post x Hp Hfit Hjoin. apply (Hrun s cur x); [ | done | done ].
        rewrite <- (split_text_with_regex_concat (a :: sep') ltac:(done) s), Hp.
        apply passage_concat.
      * intros d Hin Hbig. eapply Forall_impl; [ by apply IH | ].
        intros x. apply Hsub.
        rewrite <- (split_text_with_regex_concat (a :: sep') ltac:(done) s) at 1.
        by apply passage_elem.
    + destruct rest as [ | r rest' ]; [ done | ]. by apply IH.
Qed.

Lemma join_docs_Some (cur : list (list ascii)) (x : list ascii) :
  _join_docs cur [] = Some x → x = strip (concat cur) ∧ x ≠ [].
Proof.
  unfold _join_docs. rewrite join_text_nil.
  destruct (strip (concat cur)) eqn:Hs; [ done | ]. by intros [= <-].
Qed.

(** Every chunk is a passage of the text. *)
Lemma _split_text_passage (s : list ascii) :
  Forall (λ x, passage x s) (_split_text self _separators s).
Proof.
  apply (_split_text_run (λ s x, passage x s)); [ | | | done ].
  - intros s0 cur x Hcur _ [-> _]%join_docs_Some.
    eapply passage_trans; [ apply strip_passage | done ].
  - intros s0 d x Hd Hx. by eapply passage_trans.
  - done.
Qed.

(** No chunk is longer than the chunk size. *)
Lemma _split_text_within_size (s : list ascii) :
  0 < _chunk_size self →
  Forall (λ x, len x ≤ _chunk_size self) (_split_text self _separators s).
Proof.
  intros Hsize.
  apply (_split_text_run (λ _ x, len x ≤ _chunk_size self)); [ | | | done ].
  - intros s0 cur x _ Hfit [-> _]%join_docs_Some.
    pose proof (passage_len _ _ (strip_passage (concat cur))). lia.
  - done.
  - intros s0 c _ _. unfold len. simpl. lia.
Qed.

(** With a chunk size of two at least, every chunk has been stripped and
    is not empty. *)
Lemma _split_text_stripped (s : list ascii) :
  1 < _chunk_size self →
  Forall (λ x, x ≠ [] ∧ strip x = x) (_split_text self _separators s).
Proof.
  intros Hsize.
  apply (_split_text_run (λ _ x, x ≠ [] ∧ strip x = x)); [ | | | done ].
  - intros s0 cur x _ _ [-> Hne]%join_docs_Some. split; [ done | apply strip_idemp ].
  - done.
  - intros s0 c _ Hle. lia.
Qed.

End Chunks.

Section Chunks_of_documents.
Import TextSplitter VectorStore.

Lemma aprocess_documents_elem (vs : AsyncVectorStore) (documents : list Document)
    (chunk : Document) :
  chunk ∈ aprocess_documents vs documents →
  ∃ doc x,
    doc ∈ documents
    ∧ metadata chunk = metadata doc
    ∧ page_content chunk = str x
    ∧ x ∈ _split_text (text_splitter vs) _separators (chars (page_content doc)).
Proof.
  intros (doc & Hdoc & Hmeta & Hin)%split_documents_elem.
  unfold split_text in Hin. apply list_elem_of_fmap in Hin as (x & Hx & Hin).
  by exists doc, x.
Qed.

(** A store which [__init__] has built has the sizes of the
    configuration, which the text splitter has accepted. *)
Lemma init_sizes (config : Config.t) (vs : AsyncVectorStore) :
  VectorStore.init config = Returned vs →
  _chunk_size (text_splitter vs) = Config.CHUNK_SIZE config
  ∧ _chunk_overlap (text_splitter vs) = Config.CHUNK_OVERLAP config
  ∧ 0 < Config.CHUNK_SIZE config
  ∧ 0 ≤ Config.CHUNK_OVERLAP config ≤ Config.CHUNK_SIZE config.
Proof.
  unfold VectorStore.init, TextSplitter.init.
  destruct (Config.CHUNK_SIZE config <=? 0) eqn:Hsize; [ done | ].
  destruct (Config.CHUNK_OVERLAP config <? 0) eqn:Hneg; [ done | ].
  destruct (Config.CHUNK_OVERLAP config >? Config.CHUNK_SIZE config) eqn:Hover; [ done | ].
  intros [= <-]. simpl. lia.
Qed.

(** X18.  Every chunk a store makes is a passage of the text of one of
    the documents: characters which stand in a row in that text, under the
    metadata of that document.  Nothing is added to the text and nothing
    is put in another order. *)
Theorem chunk_is_passage (config : Config.t) (vs : AsyncVectorStore)
    (documents : list Document) (chunk : Document) :
  VectorStore.init config = Returned vs →
  chunk ∈ aprocess_documents vs documents →
  ∃ doc before after,
    doc ∈ documents
    ∧ metadata chunk = metadata doc
    ∧ page_content doc = before +:+ page_content chunk +:+ after.
Proof.
  intros _ (doc & x & Hdoc & Hmeta & Hx & Hin)%aprocess_documents_elem.
  pose proof (_split_text_passage (text_splitter vs) (chars (page_content doc))) as Hall.
  eapply Forall_forall in Hall as (l & r & Hs); [ | done ].
  exists doc, (str l), (str r). split; [ done | ]. split; [ done | ].
  rewrite Hx, <- !str_app, <- Hs. by rewrite str_chars.
Qed.

(** X19.  No chunk a store makes has more characters than the
    [CHUNK_SIZE] of the configuration. *)
Theorem chunk_within_chunk_size (config : Config.t) (vs : AsyncVectorStore)
    (documents : list Document) (chunk : Document) :
  VectorStore.init config = Returned vs →
  chunk ∈ aprocess_documents vs documents →
  Z.of_nat (String.length (page_content chunk)) ≤ Config.CHUNK_SIZE config.
Proof.
  intros (Hsize & _ & Hpos & _)%init_sizes
    (doc & x & Hdoc & Hmeta & Hx & Hin)%aprocess_documents_elem.
  rewrite <- Hsize in *.
  pose proof (_split_text_within_size (text_splitter vs) (chars (page_content doc)) Hpos)
    as Hall.
  eapply Forall_forall in Hall; [ | done ].
  rewrite Hx, <- length_chars, chars_str. done.
Qed.

(** X20.  With a [CHUNK_SIZE] of two at least, no chunk is empty and none
    starts or ends with whitespace; a document whose text is made of
    whitespace only gives no chunk. *)
Theorem chunk_stripped_not_empty (config : Config.t) (vs : AsyncVectorStore) :
  VectorStore.init config = Returned vs →
  1 < Config.CHUNK_SIZE config →
  (∀ documents chunk,
     chunk ∈ aprocess_documents vs documents →
     page_content chunk ≠ "" ∧ str_strip (page_content chunk) = page_content chunk)
  ∧ (∀ doc,
       Forall (λ c, isspace c = true) (chars (page_content doc)) →
       aprocess_documents vs [doc] = []).
Proof.
  intros (Hcs & _)%init_sizes Hsize. rewrite <- Hcs in Hsize.
  assert (∀ documents chunk,
             chunk ∈ aprocess_documents vs documents →
             ∃ doc x, doc ∈ documents ∧ page_content chunk = str x
                      ∧ x ≠ [] ∧ strip x = x ∧ passage x (chars (page_content doc)))
    as Hchunk.
  { intros documents chunk (doc & x & Hdoc & Hmeta & Hx & Hin)%aprocess_documents_elem.
    pose proof (_split_text_stripped (text_splitter vs) (chars (page_content doc)) Hsize)
      as Hall.
    eapply Forall_forall in Hall as [Hne Hstrip]; [ | done ].
    pose proof (_split_text_passage (text_splitter vs) (chars (page_content doc))) as Hp.
    eapply Forall_forall in Hp; [ | done ].
    by exists doc, x. }
  split.
  - intros documents chunk (doc & x & _ & -> & Hne & Hstrip & _)%Hchunk.
    split.
    + intros Hnil%str_nil_inv. done.
    + unfold str_strip. by rewrite chars_str, Hstrip.
  - intros doc Hspace.
    destruct (aprocess_documents vs [doc]) as [ | chunk chunks ] eqn:Hchunks; [ done | ].
    exfalso.
    destruct (Hchunk [doc] chunk) as (doc' & x & Hdoc & _ & Hne & Hstrip & Hp).
    { rewrite Hchunks. left. }
    apply list_elem_of_singleton in Hdoc as ->.
    apply Hne. rewrite <- Hstrip. apply strip_whitespace.
    apply Forall_forall. intros c Hc.
    eapply Forall_forall in Hspace; [ done | ]. by eapply passage_elem_of.
Qed.

(** X21.  The chunks of a list of documents are the chunks of its
    documents, one document after the other: what [aadd_documents] hands
    to a collection for documents added later is what [asetup_vectorstore]
    would have handed over for them, had they come at the end of the
    first batch. *)
Theorem chunks_of_batches `{Capabilities} (vs : AsyncVectorStore)
    (first later : list Document) (db : Chroma) :
  aprocess_documents vs (first ++ later)
  = aprocess_documents vs first ++ aprocess_documents vs later
  ∧ (asetup_vectorstore vs (first ++ later)).1
    = (asetup_vectorstore vs first).1 ++ (aadd_documents vs db later).1.
Proof.
  assert (aprocess_documents vs (first ++ later)
          = aprocess_documents vs first ++ aprocess_documents vs later) as Happ.
  { unfold aprocess_documents, split_documents, create_documents.
    induction first as [ | d first IH ]; [ done | ].
    simpl. by rewrite IH, <- app_assoc. }
  split; [ done | ]. unfold asetup_vectorstore, aadd_documents. simpl. done.
Qed.

End Chunks_of_documents.

(* ===================================================================== *)
(** * Nothing but whitespace is lost                                      *)
(* ===================================================================== *)

Section Covered.
Implicit Types (chunks : list (list ascii)) (l g r : list ascii).

Lemma covered_mono chunks chunks' l g r :
  (∀ x, x ∈ chunks → x ∈ chunks') → covered chunks l g r → covered chunks' l g r.
Proof.
  intros Hsub Hc g1 c g2 Hg Hns.
  destruct (Hc g1 c g2 Hg Hns) as (x & a & b & Hx & Heq & Hpos).
  exists x, a, b. auto.
Qed.

Lemma covered_whitespace chunks l g r :
  Forall (λ c, isspace c = true) g → covered chunks l g r.
Proof.
  intros Hw g1 c g2 -> Hns. apply Forall_app in Hw as [_ Hw].
  apply Forall_cons in Hw as [Hc _]. congruence.
Qed.

Lemma covered_self chunks l x r : x ∈ chunks → covered chunks l x r.
Proof.
  intros Hx g1 c g2 -> _. exists (g1 ++ c :: g2), l, r.
  split; [ done | ]. split; [ done | ]. rewrite !length_app. simpl. lia.
Qed.

Lemma covered_app chunks l g1 g2 r :
  covered chunks l g1 (g2 ++ r) →
  covered chunks (l ++ g1) g2 r →
  covered chunks l (g1 ++ g2) r.
Proof.
  intros H1 H2 h1 c h2 Heq Hns.
  apply app_eq_inv in Heq as [(k & -> & Hk) | (k & -> & ->)].
  - destruct k as [ | c' k ].
    + simpl in Hk. subst g2. rewrite app_nil_r in *.
      destruct (H2 [] c h2 eq_refl Hns) as (x & a & b & Hx & Heq & Hpos).
      exists x, a, b. split; [ done | ]. rewrite app_nil_r in Hpos.
      split; [ | done ]. by rewrite <- Heq, <- !app_assoc.
    + injection Hk as <- ->.
      destruct (H1 h1 c k eq_refl Hns) as (x & a & b & Hx & Heq & Hpos).
      exists x, a, b. split; [ done | ]. split; [ | done ].
      by rewrite <- Heq, <- !app_assoc.
  - destruct (H2 k c h2 eq_refl Hns) as (x & a & b & Hx & Heq & Hpos).
    exists x, a, b. split; [ done | ]. rewrite <- app_assoc in Hpos.
    split; [ | done ]. by rewrite <- Heq, <- !app_assoc.
Qed.

Lemma covered_split chunks l g1 g2 r :
  covered chunks l (g1 ++ g2) r →
  covered chunks l g1 (g2 ++ r) ∧ covered chunks (l ++ g1) g2 r.
Proof.
  intros Hc. split.
  - intros h1 c h2 -> Hns.
    destruct (Hc h1 c (h2 ++ g2)) as (x & a & b & Hx & Heq & Hpos);
      [ by rewrite <- app_assoc | done | ].
    exists x, a, b. split; [ done | ]. split; [ | done ].
    by rewrite <- Heq, <- !app_assoc.
  - intros h1 c h2 -> Hns.
    destruct (Hc (g1 ++ h1) c h2) as (x & a & b & Hx & Heq & Hpos);
      [ by rewrite <- app_assoc | done | ].
    exists x, a, b. split; [ done | ].
    split; [ by rewrite <- Heq, <- !app_assoc | by rewrite <- app_assoc ].
Qed.

Lemma covered_shift chunks l0 l g r r0 :
  covered chunks l g r → covered chunks (l0 ++ l) g (r ++ r0).
Proof.
  intros Hc g1 c g2 Hg Hns.
  destruct (Hc g1 c g2 Hg Hns) as (x & a & b & Hx & Heq & Hpos).
  exists x, (l0 ++ a), (b ++ r0). split; [ done | ]. split.
  - rewrite <- !app_assoc. f_equal. rewrite !app_assoc. f_equal.
    by rewrite <- !app_assoc.
  - rewrite !length_app in *. lia.
Qed.

Lemma lstrip_whitespace (l : list ascii) :
  ∃ w, l = w ++ lstrip l ∧ Forall (λ c, isspace c = true) w.
Proof.
  induction l as [ | c l (w & IH & Hw) ]; [ by exists [] | ]. simpl.
  destruct (isspace c) eqn:Hc; [ | by exists [] ].
  exists (c :: w). split; [ simpl; by rewrite <- IH | by constructor ].
Qed.

Lemma strip_whitespace_around (g : list ascii) :
  ∃ w1 w2,
    g = w1 ++ strip g ++ w2
    ∧ Forall (λ c, isspace c = true) w1 ∧ Forall (λ c, isspace c = true) w2.
Proof.
  unfold strip, rstrip. destruct (lstrip_whitespace g) as (w1 & H1 & Hw1).
  destruct (lstrip_whitespace (rev (lstrip g))) as (w2 & H2 & Hw2).
  exists w1, (rev w2). split; [ | split; [ done | by apply Forall_rev ] ].
  rewrite <- rev_app_distr, <- H2. by rewrite rev_involutive.
Qed.

(** A text is covered by what is left of it when it is stripped. *)
Lemma covered_strip chunks l g r :
  (strip g ≠ [] → strip g ∈ chunks) → covered chunks l g r.
Proof.
  intros Hx. destruct (strip_whitespace_around g) as (w1 & w2 & Hg & Hw1 & Hw2).
  rewrite Hg. apply covered_app; [ by apply covered_whitespace | ].
  apply covered_app; [ | by apply covered_whitespace ].
  destruct (strip g) as [ | c x ] eqn:Hs; [ by apply covered_whitespace | ].
  apply covered_self. by apply Hx.
Qed.

End Covered.

Section Coverage.
Import TextSplitter.
Variable self : TextSplitter.t.

Lemma pop_front_suffix (_len : Z) (cur : list (list ascii)) :
  ∀ total, ∃ dropped, cur = dropped ++ (pop_front self [] _len cur total).1.
Proof.
  induction cur as [ | d0 rest IH ]; intros total; [ by exists [] | ].
  cbn [pop_front]. destruct (_ || _); [ | by exists [] ].
  destruct (IH (total - (len d0 + (if 1 <? Z.of_nat (length (d0 :: rest))
                                   then separator_len [] else 0))))
    as [dropped Hd].
  exists (d0 :: dropped). rewrite <- app_comm_cons. by f_equal.
Qed.

Lemma join_docs_covered chunks (cur : list (list ascii)) (l r : list ascii) :
  (∀ x, x ∈ option_list (_join_docs cur []) → x ∈ chunks) →
  covered chunks l (concat cur) r.
Proof.
  intros Hsub. apply covered_strip. intros Hne. apply Hsub.
  unfold _join_docs. rewrite join_text_nil.
  destruct (strip (concat cur)); [ done | ]. left.
Qed.

Section merged.
Variable g : list (list ascii).

Lemma merge_step_covered (st : merge_state) (d : list ascii)
    (pre rest : list (list ascii)) :
  g = pre ++ current_doc st ++ d :: rest →
  covered (docs st) [] (concat pre) (concat (current_doc st ++ d :: rest)) →
  ∃ pre1,
    g = pre1 ++ current_doc (merge_step self [] st d) ++ rest
    ∧ covered (docs (merge_step self [] st d)) [] (concat pre1)
        (concat (current_doc (merge_step self [] st d) ++ rest)).
Proof.
  intros Hg Hcov. unfold merge_step.
  destruct (overflows self [] (total st) (len d) (current_doc st)).
  - destruct (current_doc st) as [ | d0 cur ] eqn:Hcur.
    + cbn [docs current_doc total]. exists pre. by rewrite Hcur.
    + destruct (pop_front_suffix (len d) (d0 :: cur) (total st)) as [dropped Hdrop].
      destruct (pop_front self [] (len d) (d0 :: cur) (total st)) as [cd tot].
      simpl in Hdrop. cbn [docs current_doc total].
      exists (pre ++ dropped). split.
      { rewrite Hg, Hdrop. by rewrite <- !app_assoc. }
      rewrite concat_app. apply covered_app.
      * eapply covered_mono; [ | ].
        { intros x Hx. apply elem_of_app. left. exact Hx. }
        rewrite <- concat_app, <- !app_assoc. simpl.
        rewrite Hdrop, <- !app_assoc in Hcov. exact Hcov.
      * rewrite <- !app_assoc. cbn [app].
        assert (covered (docs st ++ option_list (_join_docs (d0 :: cur) []))
                  (concat pre) (concat (d0 :: cur)) (concat (d :: rest))) as Hrun.
        { apply join_docs_covered. intros x Hx. apply elem_of_app. by right. }
        rewrite Hdrop, concat_app in Hrun.
        apply covered_split in Hrun as [Hrun _].
        rewrite Hdrop, concat_app. exact Hrun.
  - cbn [docs current_doc total]. exists pre.
    split; [ by rewrite Hg, <- !app_assoc | ]. by rewrite <- !app_assoc.
Qed.

Lemma merge_fold_covered (rest : list (list ascii)) :
  ∀ (st : merge_state) (pre : list (list ascii)),
    g = pre ++ current_doc st ++ rest →
    covered (docs st) [] (concat pre) (concat (current_doc st ++ rest)) →
    covered (docs (foldl (merge_step self []) st rest)
             ++ option_list
                  (_join_docs (current_doc (foldl (merge_step self []) st rest)) []))
            [] (concat g) [].
Proof.
  induction rest as [ | d rest IH ]; intros st pre Hg Hcov.
  - simpl. rewrite app_nil_r in Hg, Hcov. rewrite Hg, concat_app.
    apply covered_app.
    + eapply covered_mono; [ | by rewrite app_nil_r ].
      intros x Hx. apply elem_of_app. by left.
    + apply join_docs_covered. intros x Hx. apply elem_of_app. by right.
  - cbn [foldl].
    destruct (merge_step_covered st d pre rest Hg Hcov) as (pre1 & Hg1 & Hcov1).
    by eapply IH.
Qed.

End merged.

(** [_merge_splits] loses nothing but whitespace. *)
Lemma merge_splits_covered (g : list (list ascii)) :
  covered (_merge_splits self [] g) [] (concat g) [].
Proof.
  unfold _merge_splits. apply (merge_fold_covered g g _ []); [ done | ].
  simpl. intros g1 c g2 Hnil. by destruct g1.
Qed.

Section looped.
Variable recurse : option (list ascii → list (list ascii)).
Variable pieces : list (list ascii).
Hypothesis recurse_covered :
  ∀ d, d ∈ pieces →
       match recurse with
       | None => True
       | Some f => covered (f d) [] d []
       end.

Lemma flush_covered (st : loop_state) (pre post : list (list ascii)) :
  covered (final_chunks st) [] (concat pre) (concat (_good_splits st ++ post)) →
  covered (final_chunks (flush self st)) [] (concat (pre ++ _good_splits st))
    (concat post)
  ∧ _good_splits (flush self st) = [].
Proof.
  intros Hcov. unfold flush.
  destruct (_good_splits st) as [ | d good ] eqn:Hgood.
  - rewrite Hgood, app_nil_r. done.
  - cbn [final_chunks _good_splits]. split; [ | done ].
    rewrite concat_app. apply covered_app.
    + eapply covered_mono; [ | by rewrite <- concat_app ].
      intros x Hx. apply elem_of_app. by left.
    + eapply covered_mono; [ intros x Hx; apply elem_of_app; right; exact Hx | ].
      pose proof (covered_shift _ (concat pre) [] _ [] (concat post)
                    (merge_splits_covered (d :: good))) as Hs.
      by rewrite app_nil_r in Hs.
Qed.

Lemma loop_fold_covered (rest : list (list ascii)) :
  ∀ (st : loop_state) (pre : list (list ascii)),
    pieces = pre ++ _good_splits st ++ rest →
    covered (final_chunks st) [] (concat pre) (concat (_good_splits st ++ rest)) →
    covered (final_chunks (flush self (foldl (loop_step self recurse) st rest)))
      [] (concat pieces) [].
Proof.
  induction rest as [ | d rest IH ]; intros st pre Hp Hcov.
  - simpl. destruct (flush_covered st pre [] Hcov) as [Hflushed _].
    rewrite app_nil_r in Hp. by rewrite Hp.
  - cbn [foldl]. unfold loop_step at 2.
    destruct (len d <? _chunk_size self).
    + apply (IH _ pre); cbn [final_chunks _good_splits].
      * by rewrite Hp, <- !app_assoc.
      * by rewrite <- !app_assoc.
    + destruct (flush_covered st pre (d :: rest) Hcov) as [Hflushed Hnil].
      assert (d ∈ pieces) as Hin.
      { rewrite Hp, !elem_of_app. right. right. left. }
      specialize (recurse_covered d Hin).
      assert (∀ more,
                 covered more [] d [] →
                 covered (final_chunks (flush self st) ++ more) []
                   (concat ((pre ++ _good_splits st) ++ [d])) (concat rest)) as Hd.
      { intros more Hmore. rewrite concat_app. apply covered_app.
        - eapply covered_mono; [ intros x Hx; apply elem_of_app; left; exact Hx | ].
          simpl. rewrite app_nil_r. exact Hflushed.
        - eapply covered_mono; [ intros x Hx; apply elem_of_app; right; exact Hx | ].
          simpl. rewrite app_nil_r.
          pose proof (covered_shift _ (concat (pre ++ _good_splits st)) [] _ []
                        (concat rest) Hmore) as Hs.
          by rewrite app_nil_r in Hs. }
      destruct recurse as [f | ].
      * apply (IH _ ((pre ++ _good_splits st) ++ [d])); cbn [final_chunks _good_splits].
        { by rewrite Hp, <- !app_assoc. }
        by apply Hd.
      * apply (IH _ ((pre ++ _good_splits st) ++ [d])); cbn [final_chunks _good_splits].
        { by rewrite Hp, <- !app_assoc. }
        apply Hd. apply covered_self. left.
Qed.

Lemma split_loop_covered :
  covered (split_loop self recurse pieces) [] (concat pieces) [].
Proof.
  unfold split_loop. apply (loop_fold_covered pieces _ []); [ done | ].
  simpl. intros g1 c g2 Hnil. by destruct g1.
Qed.

End looped.

(** [_split_text] loses nothing but whitespace. *)
Lemma _split_text_covered (separators : list (list ascii)) :
  ∀ s, separators ≠ [] → covered (_split_text self separators s) [] s [].
Proof.
  induction separators as [ | sep rest IH ]; intros s Hne; [ done | ].
  cbn [_split_text]. destruct sep as [ | a sep' ].
  - pose proof (split_loop_covered None (_split_text_with_regex s []) (λ _ _, I)) as Hc.
    by rewrite split_chars_concat in Hc.
  - destruct (contains (a :: sep') s).
    + assert (∀ d, d ∈ _split_text_with_regex s (a :: sep') →
                   match match rest with
                         | [] => None
                         | _ => Some (_split_text self rest)
                         end with
                   | None => True
                   | Some f => covered (f d) [] d []
                   end) as Hrec.
      { intros d _. destruct rest as [ | r rest' ]; [ done | ]. by apply IH. }
      pose proof (split_loop_covered _ _ Hrec) as Hc.
      by rewrite split_text_with_regex_concat in Hc.
    + destruct rest as [ | r rest' ]; [ | by apply IH ].
      pose proof (split_loop_covered None (_split_text_with_regex s (a :: sep'))
                    (λ _ _, I)) as Hc.
      by rewrite split_text_with_regex_concat in Hc.
Qed.

End Coverage.

Section Coverage_of_documents.
Import TextSplitter VectorStore.

Lemma split_documents_intro (self : TextSplitter.t) (documents : list Document)
    (doc : Document) (x : string) :
  doc ∈ documents →
  x ∈ split_text self (page_content doc) →
  {| page_content := x; metadata := metadata doc |} ∈ split_documents self documents.
Proof.
  unfold split_documents, create_documents.
  induction documents as [ | d documents IH ]; [ by intros ?%elem_of_nil | ].
  simpl. rewrite elem_of_app. intros [-> | Hin]%elem_of_cons Hx.
  - left. apply list_elem_of_fmap. by exists x.
  - right. by apply IH.
Qed.

(** X24.  Chunking loses nothing but whitespace: every character of a
    document which is not whitespace lies, where it stands in the text of
    the document, in a chunk of this document. *)
Theorem chunks_cover_document (config : Config.t) (vs : AsyncVectorStore)
    (documents : list Document) (doc : Document) (before after : string) (c : ascii) :
  VectorStore.init config = Returned vs →
  doc ∈ documents →
  page_content doc = before +:+ String c after →
  isspace c = false →
  ∃ chunk a b,
    chunk ∈ aprocess_documents vs documents
    ∧ metadata chunk = metadata doc
    ∧ page_content doc = a +:+ page_content chunk +:+ b
    ∧ (String.length a ≤ String.length before
       < String.length a + String.length (page_content chunk))%nat.
Proof.
  intros _ Hdoc Htext Hns.
  destruct (_split_text_covered (text_splitter vs) _separators
              (chars (page_content doc)) ltac:(done) (chars before) c (chars after))
    as (x & a & b & Hx & Heq & Hpos); [ | done | ].
  { rewrite Htext. unfold chars. clear.
    induction before as [ | c' before IH ]; simpl; [ done | by rewrite IH ]. }
  exists {| page_content := str x; metadata := metadata doc |}, (str a), (str b).
  split; [ | split; [ done | split ] ].
  - apply split_documents_intro; [ done | ].
    unfold split_text. apply list_elem_of_fmap. by exists x.
  - simpl. rewrite <- !str_app. simpl in Heq. rewrite app_nil_r in Heq.
    by rewrite <- Heq, str_chars.
  - simpl in *. rewrite <- !length_chars, !chars_str. done.
Qed.

End Coverage_of_documents.

Lemma chunks_cover_document_witness :
  ∃ chunk a b,
    chunk ∈ VectorStore.aprocess_documents Demo.vector_store [Demo.people_table]
    ∧ metadata chunk = metadata Demo.people_table
    ∧ page_content Demo.people_table = a +:+ page_content chunk +:+ b
    ∧ (String.length a ≤ String.length "    name  "
       < String.length a + String.length (page_content chunk))%nat.
Proof.
  apply (chunks_cover_document Config.default Demo.vector_store [Demo.people_table]
           Demo.people_table "    name  " ("ge" +:+ App.LF +:+ "0  Alice   30") "a").
  - reflexivity.
  - left.
  - reflexivity.
  - reflexivity.
Defined.

(* ===================================================================== *)
(** * The properties of the chunks on the stand-ins                       *)
(* ===================================================================== *)

Lemma chunk_is_passage_witness :
  ∃ doc before after,
    doc ∈ [Demo.people_table]
    ∧ metadata {| page_content := "name  age" +:+ App.LF +:+ "0  Alice   30";
                  metadata := {[ "file_name" := "people.csv" ]} |}
      = metadata doc
    ∧ page_content doc
      = before
        +:+ page_content {| page_content := "name  age" +:+ App.LF +:+ "0  Alice   30";
                            metadata := {[ "file_name" := "people.csv" ]} |}
        +:+ after.
Proof.
  apply (chunk_is_passage Config.default Demo.vector_store [Demo.people_table]).
  - reflexivity.
  - vm_compute. left.
Defined.

Lemma chunk_within_chunk_size_witness :
  Z.of_nat (String.length (page_content (Demo.paragraph_chunk "a")))
  ≤ Config.CHUNK_SIZE Config.default.
Proof.
  apply (chunk_within_chunk_size Config.default Demo.vector_store
           [Demo.three_paragraphs]).
  - reflexivity.
  - vm_compute. left.
Defined.

Lemma chunk_stripped_not_empty_witness :
  (∀ documents chunk,
     chunk ∈ VectorStore.aprocess_documents Demo.vector_store documents →
     page_content chunk ≠ "" ∧ str_strip (page_content chunk) = page_content chunk)
  ∧ (∀ doc,
       Forall (λ c, isspace c = true) (chars (page_content doc)) →
       VectorStore.aprocess_documents Demo.vector_store [doc] = []).
Proof.
  apply (chunk_stripped_not_empty Config.default Demo.vector_store); reflexivity.
Defined.

Lemma main_without_files_witness :
  ∃ w',
    App.main Config.default [] [] (Some "Hello?") Demo.fresh = Some (w', Returned tt)
    ∧ App.page w'
      = App.page Demo.fresh ++ [App.st_sidebar_title "📁 Upload Files";
                                App.st_warning "👋 Please upload files to start chatting!"]
    ∧ App.session_state w' = App.session_state Demo.fresh
    ∧ App.calls w' = App.calls Demo.fresh.
Proof.
  apply (main_without_files (H := Demo.capabilities) Config.default Demo.app).
  reflexivity.
Defined.
